(** * SE3 group normalisation (se3cnn/image/groupnorm.py)

    A shallow embedding of [SE3GroupNorm] and [SE3GNConvolution] together
    with the small part of the tensor library they call.  Tensors are a
    list of sizes and a flat, row-major list of scalars; Python integers
    are [Z]; every operation that can raise returns a [result].

    The floating-point scalars are kept abstract behind the [Scalar]
    class, so that every structural statement (shapes, errors, which
    entries are read, what is multiplied by what) holds for any
    arithmetic.  Two instances are given: the real numbers, on which the
    small runs are made, and the real numbers with one more value for
    what floating point calls NaN or infinity, on which the statement
    that needs an order is proved. *)

From Stdlib Require Import List ZArith Lia Bool Arith PeanoNat.
From Stdlib Require Import Reals Lra.
Import ListNotations.

Set Implicit Arguments.

(** ** Exceptions and the error monad *)

Inductive error : Type :=
| AssertionError
| RuntimeError
| IndexError
| TypeError
| AttributeError.

Inductive result (A : Type) : Type :=
| Ok (a : A)
| Raise (e : error).

Arguments Ok {A} a.
Arguments Raise {A} e.

Definition bind {A B : Type} (c : result A) (k : A -> result B) : result B :=
  match c with
  | Ok a => k a
  | Raise e => Raise e
  end.

Declare Scope result_scope.
Delimit Scope result_scope with result.
Notation "x <- c ;; k" := (bind c (fun x => k))
  (at level 61, c at next level, right associativity) : result_scope.
Notation "' pat <- c ;; k" := (bind c (fun x => match x with pat => k end))
  (at level 61, pat pattern, c at next level, right associativity) : result_scope.
Open Scope result_scope.

(** [assert cond] of Python. *)
Definition assert (cond : bool) : result unit :=
  if cond then Ok tt else Raise AssertionError.

(** ** Scalars *)

(** The arithmetic the source asks of a tensor element. [fpow_neg_half x]
    is [x.pow(-0.5)], [fof_nat n] the element count a mean divides by. *)
Class Scalar (F : Type) : Type := {
  fzero : F;
  fone : F;
  fadd : F -> F -> F;
  fsub : F -> F -> F;
  fmul : F -> F -> F;
  fdiv : F -> F -> F;
  fpow_neg_half : F -> F;
  fof_nat : nat -> F
}.

(** The idealised instance: real numbers.  The power is sealed behind its
    equation, so that a run on concrete reals stops at [Rpow_neg_half x]
    instead of unfolding the construction of the exponential.  It is the
    power of the source on a positive base only, as is the division on a
    divisor other than zero: the theorems over this instance assume a
    positive epsilon and a block that is not empty, and the instance on
    [option R] below gives [None] elsewhere. *)
Definition Rpow_neg_half_sig (x : R) : { y : R | y = Rpower x (- (1 / 2)) }.
Proof. exists (Rpower x (- (1 / 2))). reflexivity. Qed.

Definition Rpow_neg_half (x : R) : R := proj1_sig (Rpow_neg_half_sig x).

#[export] Instance Scalar_R : Scalar R := {
  fzero := 0%R;
  fone := 1%R;
  fadd := Rplus;
  fsub := Rminus;
  fmul := Rmult;
  fdiv := Rdiv;
  fpow_neg_half := Rpow_neg_half;
  fof_nat := INR
}.

(** Reals with one more value, [None], for what is not a real number:
    the NaN and the infinities of floating point.  A division by zero and
    a power -0.5 of a base that is not positive give [None], and [None]
    stays [None]. *)
Definition lift2 (f : R -> R -> R) (x y : option R) : option R :=
  match x, y with
  | Some a, Some b => Some (f a b)
  | _, _ => None
  end.

Definition Rnan_div (x y : option R) : option R :=
  match x, y with
  | Some a, Some b => if Req_dec_T b 0 then None else Some (a / b)%R
  | _, _ => None
  end.

Definition Rnan_pow_neg_half (x : option R) : option R :=
  match x with
  | Some a => if Rlt_dec 0 a then Some (Rpow_neg_half a) else None
  | None => None
  end.

#[export] Instance Scalar_Rnan : Scalar (option R) := {
  fzero := Some 0%R;
  fone := Some 1%R;
  fadd := lift2 Rplus;
  fsub := lift2 Rminus;
  fmul := lift2 Rmult;
  fdiv := Rnan_div;
  fpow_neg_half := Rnan_pow_neg_half;
  fof_nat := fun n => Some (INR n)
}.

(** ** Python slices *)

(** Start or stop of [a:b] on a sequence of length [len]: a negative
    index counts from the end, then the index is clamped to [0, len]. *)
Definition slice_index (len i : Z) : nat :=
  Z.to_nat (if (i <? 0)%Z then Z.max 0 (i + len) else Z.min i len).

Definition slice_start (len : nat) (a : Z) : nat := slice_index (Z.of_nat len) a.

Definition slice_len (len : nat) (a b : Z) : nat :=
  slice_index (Z.of_nat len) b - slice_index (Z.of_nat len) a.

(** [sum([...])] of Python integers. *)
Definition zsum (l : list Z) : Z := fold_left Z.add l 0%Z.

(** ** Tensors *)

Module Torch.
Section Tensors.
Context {F : Type} `{Scalar F}.

Record Tensor : Type := { size : list nat; data : list F }.

Definition prod (s : list nat) : nat := fold_right Nat.mul 1 s.

Definition numel (t : Tensor) : nat := prod (size t).

(** A tensor holds as many elements as its sizes say. *)
Definition wf (t : Tensor) : Prop := length (data t) = numel t.

(** [row n b l] is the [b]-th run of [n] elements of [l]. *)
Definition row (n b : nat) (l : list F) : list F := firstn n (skipn (b * n) l).

Definition rows (k n : nat) (l : list F) : list (list F) :=
  map (fun b => row n b l) (seq 0 k).

(** [t[b]], flat: the run of the data that belongs to batch sample [b]. *)
Definition sample (t : Tensor) (b : nat) : list F :=
  row (prod (tl (size t))) b (data t).

(** [t[b, c, ...]] at flat position [s] of the trailing axes. *)
Definition channel_entry (t : Tensor) (b c s : nat) : F :=
  nth ((b * nth 1 (size t) 0 + c) * prod (skipn 2 (size t)) + s) (data t) fzero.

(** [t.size(i)] *)
Definition size_at (t : Tensor) (i : nat) : result Z :=
  match nth_error (size t) i with
  | Some n => Ok (Z.of_nat n)
  | None => Raise IndexError
  end.

(** [torch.ones(n)], [torch.zeros(n)] as the data of a 1-d tensor. *)
Definition full (x : F) (n : Z) : result (list F) :=
  if (n <? 0)%Z then Raise RuntimeError else Ok (repeat x (Z.to_nat n)).
Definition ones : Z -> result (list F) := full fone.
Definition zeros : Z -> result (list F) := full fzero.

(** [v[a:b]] on a 1-d tensor. *)
Definition slice0 (v : list F) (a b : Z) : list F :=
  firstn (slice_len (length v) a b) (skipn (slice_start (length v) a) v).

Definition tensor1 (v : list F) : Tensor := {| size := [length v]; data := v |}.

(** [t[:, a:b]] *)
Definition slice1 (t : Tensor) (a b : Z) : result Tensor :=
  match size t with
  | B :: C :: rest =>
      let inner := prod rest in
      let n := slice_len C a b in
      Ok {| size := B :: n :: rest;
            data := flat_map (fun r => firstn (n * inner) (skipn (slice_start C a * inner) r))
                             (rows B (C * inner) (data t)) |}
  | _ => Raise IndexError
  end.

(** The size a [view] gives for a requested shape, on [n] elements: at
    most one entry may be [-1], it is inferred from [n]. *)
Definition infer_size (shape : list Z) (n : Z) : result (list nat) :=
  if existsb (fun s => s <? -1)%Z shape then Raise RuntimeError
  else
    let infer := count_occ Z.eq_dec shape (-1)%Z in
    if 1 <? infer then Raise RuntimeError
    else
      let newsize := fold_right Z.mul 1%Z (filter (fun s => negb (s =? -1)%Z) shape) in
      if (n =? newsize)%Z || ((0 <? infer) && (0 <? newsize)%Z && (n mod newsize =? 0)%Z)
      then
        if 0 <? infer
        then if (newsize =? 0)%Z then Raise RuntimeError
             else Ok (map (fun s => Z.to_nat (if (s =? -1)%Z then n / newsize else s)) shape)
        else Ok (map Z.to_nat shape)
      else Raise RuntimeError.

(** [t.view] of a shape, on a contiguous tensor: the data stay as they are. *)
Definition view (t : Tensor) (shape : list Z) : result Tensor :=
  s <- infer_size shape (Z.of_nat (numel t)) ;;
  Ok {| size := s; data := data t |}.

Definition fsum (l : list F) : F := fold_left fadd l fzero.

Definition mean (l : list F) : F := fdiv (fsum l) (fof_nat (length l)).

(** [t.mean(-1)] *)
Definition mean_last (t : Tensor) : Tensor :=
  let outer := removelast (size t) in
  {| size := outer;
     data := map mean (rows (prod outer) (last (size t) 1) (data t)) |}.

(** Elementwise maps: [t ** 2], [t + eps], [t.pow(-0.5)]. *)
Definition tmap (f : F -> F) (t : Tensor) : Tensor :=
  {| size := size t; data := map f (data t) |}.
Definition pow2 : Tensor -> Tensor := tmap (fun x => fmul x x).
Definition add_scalar (t : Tensor) (c : F) : Tensor := tmap (fun x => fadd x c) t.
Definition pow_neg_half : Tensor -> Tensor := tmap fpow_neg_half.

Fixpoint zip_with (f : F -> F -> F) (l1 l2 : list F) : list F :=
  match l1, l2 with
  | x :: l1', y :: l2' => f x y :: zip_with f l1' l2'
  | _, _ => []
  end.

(** Sum of [n] runs of [p] elements, position by position. *)
Definition colsum (n p : nat) (l : list F) : list F :=
  fold_left (zip_with fadd) (rows n p l) (repeat fzero p).

(** [torch.sum(t, dim=k)] *)
Definition sum_dim (t : Tensor) (k : nat) : result Tensor :=
  match nth_error (size t) k with
  | Some n =>
      let pre := firstn k (size t) in
      let post := skipn (S k) (size t) in
      Ok {| size := pre ++ post;
            data := flat_map (colsum n (prod post))
                             (rows (prod pre) (n * prod post) (data t)) |}
  | None => Raise IndexError
  end.

(** Broadcasting of two size lists of one length. *)
Fixpoint broadcast_size (s1 s2 : list nat) : option (list nat) :=
  match s1, s2 with
  | [], [] => Some []
  | a :: r1, b :: r2 =>
      match broadcast_size r1 r2 with
      | Some r =>
          if a =? b then Some (a :: r)
          else if a =? 1 then Some (b :: r)
          else if b =? 1 then Some (a :: r)
          else None
      | None => None
      end
  | _, _ => None
  end.

Fixpoint broadcast_data (op : F -> F -> F) (s1 s2 : list nat) (d1 d2 : list F) : list F :=
  match s1, s2 with
  | a :: r1, b :: r2 =>
      flat_map (fun i =>
                  broadcast_data op r1 r2
                    (row (prod r1) (if a =? 1 then 0 else i) d1)
                    (row (prod r2) (if b =? 1 then 0 else i) d2))
               (seq 0 (if a =? 1 then b else a))
  | _, _ =>
      match d1, d2 with
      | x :: _, y :: _ => [op x y]
      | _, _ => []
      end
  end.

(** Sizes are aligned on the right; the shorter list is filled with 1. *)
Definition align (k : nat) (s : list nat) : list nat := repeat 1 (k - length s) ++ s.

(** [t op u] with broadcasting. *)
Definition binop (op : F -> F -> F) (t u : Tensor) : result Tensor :=
  let k := Nat.max (length (size t)) (length (size u)) in
  let s1 := align k (size t) in
  let s2 := align k (size u) in
  match broadcast_size s1 s2 with
  | Some s => Ok {| size := s; data := broadcast_data op s1 s2 (data t) (data u) |}
  | None => Raise RuntimeError
  end.

Definition add : Tensor -> Tensor -> result Tensor := binop fadd.
Definition sub : Tensor -> Tensor -> result Tensor := binop fsub.
Definition mul : Tensor -> Tensor -> result Tensor := binop fmul.

Definition same_but_dim1 (t u : Tensor) : bool :=
  match size t, size u with
  | B :: _ :: rest, B' :: _ :: rest' =>
      (B =? B') && if list_eq_dec Nat.eq_dec rest rest' then true else false
  | _, _ => false
  end.

(** [torch.cat(ts, dim=1)] *)
Definition cat1 (ts : list Tensor) : result Tensor :=
  match ts with
  | [] => Raise RuntimeError
  | t0 :: _ =>
      match size t0 with
      | B :: _ :: rest =>
          if forallb (same_but_dim1 t0) ts
          then Ok {| size := B :: list_sum (map (fun t => nth 1 (size t) 0) ts) :: rest;
                     data := flat_map (fun b =>
                               flat_map (fun t => row (nth 1 (size t) 0 * prod rest) b (data t)) ts)
                               (seq 0 B) |}
          else Raise RuntimeError
      | _ => Raise IndexError
      end
  end.

End Tensors.
Arguments Tensor F : clear implicits.
End Torch.

Import Torch.

(** ** class SE3GroupNorm *)

Module SE3GroupNorm.
Section GroupNorm.
Context {F : Type} `{Scalar F}.

(** The attributes [__init__] sets. [weight] and [bias] are [None] when
    the parameter is registered as absent. *)
Record t : Type := {
  Rs : list (Z * Z);
  eps : F;
  affine : bool;
  weight : option (list F);
  bias : option (list F)
}.

(** [[(m, d) for m, d in Rs if m * d > 0]] *)
Definition kept (Rs0 : list (Z * Z)) : list (Z * Z) :=
  filter (fun md => 0 <? fst md * snd md)%Z Rs0.

(** [sum([m for m, d in Rs])] *)
Definition multiplicities (l : list (Z * Z)) : Z := zsum (map fst l).

(** [sum([m for m, d in Rs if d == 1])] *)
Definition scalar_multiplicities (l : list (Z * Z)) : Z :=
  zsum (map fst (filter (fun md => snd md =? 1)%Z l)).

(** The channels a list of blocks spans: the sum of [m * d]. *)
Definition channels (l : list (Z * Z)) : Z :=
  zsum (map (fun md => fst md * snd md)%Z l).

(** Every block has a positive multiplicity and a positive dimension. *)
Definition positive_blocks (l : list (Z * Z)) : Prop :=
  Forall (fun md => 0 < fst md /\ 0 < snd md)%Z l.

(** [__init__(self, Rs, eps, affine)] *)
Definition init (Rs0 : list (Z * Z)) (eps0 : F) (affine0 : bool) : result t :=
  if affine0 then
    w <- ones (multiplicities Rs0) ;;
    b <- zeros (scalar_multiplicities Rs0) ;;
    Ok {| Rs := kept Rs0; eps := eps0; affine := affine0;
          weight := Some w; bias := Some b |}
  else
    Ok {| Rs := kept Rs0; eps := eps0; affine := affine0;
          weight := None; bias := None |}.

(** Subscripting a parameter that is [None]. *)
Definition param (p : option (list F)) : result (list F) :=
  match p with
  | Some v => Ok v
  | None => Raise TypeError
  end.

(** [len] of a parameter that is [None]: [None.size(0)]. *)
Definition param_size (p : option (list F)) : result Z :=
  match p with
  | Some v => Ok (Z.of_nat (length v))
  | None => Raise AttributeError
  end.

(** Lines 42-44: scalar blocks are centred. *)
Definition center (B d : Z) (field : Tensor F) : result (Tensor F) :=
  if (d =? 1)%Z then
    flat <- view field [B; -1]%Z ;;
    let field_mean := mean_last flat in
    field_mean <- view field_mean [-1; 1; 1; 1]%Z ;;
    sub field field_mean
  else Ok field.

(** Lines 46-47: the norm statistic, one entry per batch sample. *)
Definition norm_stat (B : Z) (field : Tensor F) : result (Tensor F) :=
  field_norm <- sum_dim (pow2 field) 2 ;;
  field_norm <- view field_norm [B; -1]%Z ;;
  Ok (mean_last field_norm).

(** Line 48. *)
Definition field_norm (self : t) (B : Z) (field : Tensor F) : result (Tensor F) :=
  stat <- norm_stat B field ;;
  view (pow_neg_half (add_scalar stat (eps self))) [-1; 1; 1; 1]%Z.

(** Lines 50-53. *)
Definition apply_weight (self : t) (m iw : Z) (norm : Tensor F) : result (Tensor F * Z) :=
  if affine self then
    w <- param (weight self) ;;
    let weight := tensor1 (slice0 w iw (iw + m)) in
    wv <- view weight [1; -1; 1; 1]%Z ;;
    norm <- mul norm wv ;;
    Ok (norm, (iw + m)%Z)
  else Ok (norm, iw).

(** Lines 57-60. *)
Definition apply_bias (self : t) (m d ib : Z) (field : Tensor F) : result (Tensor F * Z) :=
  if affine self && (d =? 1)%Z then
    b <- param (bias self) ;;
    let bias := tensor1 (slice0 b ib (ib + m)) in
    bv <- view bias [1; -1; 1; 1]%Z ;;
    field <- add field bv ;;
    Ok (field, (ib + m)%Z)
  else Ok (field, ib).

(** The variables the loop of [forward] updates. *)
Record loop_state : Type := {
  fields : list (Tensor F);
  ix : Z;
  iw : Z;
  ib : Z
}.

Definition loop_start : loop_state := {| fields := []; ix := 0; iw := 0; ib := 0 |}.

(** One turn of the loop, lines 38-62. *)
Definition block (self : t) (input : Tensor F) (st : loop_state) (md : Z * Z)
  : result loop_state :=
  let '(m, d) := md in
  field <- slice1 input (ix st) (ix st + m * d) ;;
  let ix' := (ix st + m * d)%Z in
  B <- size_at input 0 ;;
  field <- view field [B; m; d; -1]%Z ;;
  field <- center B d field ;;
  norm <- field_norm self B field ;;
  '(norm, iw') <- apply_weight self m (iw st) norm ;;
  field <- mul field norm ;;
  '(field, ib') <- apply_bias self m d (ib st) field ;;
  out <- view field (B :: (m * d)%Z :: map Z.of_nat (skipn 2 (size input))) ;;
  Ok {| fields := fields st ++ [out]; ix := ix'; iw := iw'; ib := ib' |}.

(** [for m, d in self.Rs: ...] *)
Fixpoint loop (self : t) (input : Tensor F) (st : loop_state) (l : list (Z * Z))
  : result loop_state :=
  match l with
  | [] => Ok st
  | md :: l' => st' <- block self input st md ;; loop self input st' l'
  end.

(** Lines 64-67. *)
Definition checks (self : t) (input : Tensor F) (st : loop_state) : result unit :=
  C <- size_at input 1 ;;
  _ <- assert (ix st =? C)%Z ;;
  if affine self then
    wlen <- param_size (weight self) ;;
    _ <- assert (iw st =? wlen)%Z ;;
    blen <- param_size (bias self) ;;
    assert (ib st =? blen)%Z
  else Ok tt.

(** [forward(self, input)] *)
Definition forward (self : t) (input : Tensor F) : result (Tensor F) :=
  st <- loop self input loop_start (Rs self) ;;
  _ <- checks self input st ;;
  cat1 (fields st).

End GroupNorm.
Arguments t F : clear implicits.
Arguments loop_state F : clear implicits.
End SE3GroupNorm.


(** ** The forward pass, one batch sample at a time

    What section 4.1 of the specification says happens to a block, written
    for a single batch sample: [x] is the sample's part of the block,
    [m * d * S] scalars laid out as [m] channels of [d] components of
    [S] spatial positions.  These definitions follow the specification;
    the theorems below compare them with [SE3GroupNorm.forward]. *)

Module PerSample.
Section PerSample.
Context {F : Type} `{Scalar F}.

Section Block.
Variables (m d S : nat).

(** Entry [(i, j, s)] of the sample: channel, component, position. *)
Definition entry (x : list F) (i j s : nat) : F := nth ((i * d + j) * S + s) x fzero.

(** Step 2: only a block of dimension 1 is centred, on the mean over
    all its channels and positions. *)
Definition centred (x : list F) : list F :=
  if d =? 1 then map (fun v => fsub v (mean x)) x else x.

(** Step 3: sum of squares across the dimension axis, one per channel
    and position ... *)
Definition sum_squares (x : list F) : list F :=
  flat_map (fun i =>
    map (fun s => fsum (map (fun j => fmul (entry x i j s) (entry x i j s)) (seq 0 d)))
        (seq 0 S))
    (seq 0 m).

(** ... averaged over channels and positions, plus epsilon, to the
    power -0.5: one scalar for the whole sample. *)
Definition norm_factor (eps0 : F) (x : list F) : F :=
  fpow_neg_half (fadd (mean (sum_squares x)) eps0).

(** Steps 5 and 6: every entry of channel [i] is combined with [c i]. *)
Definition per_channel (op : F -> F -> F) (c : nat -> F) (x : list F) : list F :=
  flat_map (fun i => map (fun v => op v (c i)) (row (d * S) i x)) (seq 0 m).

(** Steps 2 to 6 for one block; [w] and [b] are the block's weight and
    bias sub-vectors when the transform is affine. *)
Definition block (eps0 : F) (affine0 : bool) (w b : nat -> F) (x : list F) : list F :=
  let xc := centred x in
  let n := norm_factor eps0 xc in
  let y := per_channel fmul (fun i => if affine0 then fmul n (w i) else n) xc in
  if affine0 && (d =? 1) then per_channel fadd b y else y.

End Block.

(** The sub-vector of a parameter from offset [o] on. *)
Definition sub_vector (p : option (list F)) (o : nat) (i : nat) : F :=
  match p with
  | Some v => nth (o + i) v fzero
  | None => fzero
  end.

(** All blocks of one sample [x] of [C * S] scalars, with the running
    offsets into the channel axis, the weight and the bias. *)
Fixpoint blocks (self : SE3GroupNorm.t F) (S : nat) (x : list F)
         (ix iw ib : nat) (l : list (Z * Z)) : list F :=
  match l with
  | [] => []
  | (m, d) :: l' =>
      let mn := Z.to_nat m in
      let dn := Z.to_nat d in
      let aff := SE3GroupNorm.affine self in
      block mn dn S (SE3GroupNorm.eps self) aff
            (sub_vector (SE3GroupNorm.weight self) iw)
            (sub_vector (SE3GroupNorm.bias self) ib)
            (firstn (mn * dn * S) (skipn (ix * S) x))
      ++ blocks self S x (ix + mn * dn)
                (if aff then iw + mn else iw)
                (if aff && (dn =? 1) then ib + mn else ib) l'
  end.

Definition forward (self : SE3GroupNorm.t F) (S : nat) (x : list F) : list F :=
  blocks self S x 0 0 0 (SE3GroupNorm.Rs self).

End PerSample.
End PerSample.

(** ** When a module and an input fit

    The blocks stored are positive and there is at least one, the batch
    is not empty, the blocks span exactly the [C] channels of the input,
    and an affine module has exactly the weights and biases the blocks
    take. *)

Definition fits {F : Type} (self : SE3GroupNorm.t F) (t : Tensor F)
           (Bn C : nat) (sp : list nat) : Prop :=
  size t = Bn :: C :: sp /\ 0 < Bn /\
  SE3GroupNorm.positive_blocks (SE3GroupNorm.Rs self) /\
  SE3GroupNorm.Rs self <> [] /\
  SE3GroupNorm.channels (SE3GroupNorm.Rs self) = Z.of_nat C /\
  (SE3GroupNorm.affine self = true ->
     exists w b0,
       SE3GroupNorm.weight self = Some w /\ SE3GroupNorm.bias self = Some b0 /\
       SE3GroupNorm.multiplicities (SE3GroupNorm.Rs self) = Z.of_nat (length w) /\
       SE3GroupNorm.scalar_multiplicities (SE3GroupNorm.Rs self) = Z.of_nat (length b0)).

(** ** The totals the closing assertions compare *)

Section Totals.
Context {F : Type}.

Definition param_len (p : option (list F)) : Z :=
  match p with
  | Some v => Z.of_nat (length v)
  | None => 0
  end.

(** An affine module has its two parameters. *)
Definition consistent (self : SE3GroupNorm.t F) : Prop :=
  SE3GroupNorm.affine self = true ->
  (exists w, SE3GroupNorm.weight self = Some w) /\
  (exists b0, SE3GroupNorm.bias self = Some b0).

(** The channel width the blocks take differs from the [C] channels of
    the input, or, on an affine module, the weights or biases they take
    differ from those allocated. *)
Definition totals_differ (self : SE3GroupNorm.t F) (C : nat) : Prop :=
  SE3GroupNorm.channels (SE3GroupNorm.Rs self) <> Z.of_nat C \/
  (SE3GroupNorm.affine self = true /\
   (SE3GroupNorm.multiplicities (SE3GroupNorm.Rs self)
      <> param_len (SE3GroupNorm.weight self) \/
    SE3GroupNorm.scalar_multiplicities (SE3GroupNorm.Rs self)
      <> param_len (SE3GroupNorm.bias self))).

End Totals.

(** ** class SE3GNConvolution *)

Module SE3GNConvolution.
Section GNConvolution.
Context {F : Type} `{Scalar F}.

(** The convolution of [se3cnn.image.convolution] is not part of these
    sources: its module type, its constructor and its call are taken as
    given. *)
Variables (Conv Kwargs : Type).
Variable SE3Convolution : list (Z * Z) -> list (Z * Z) -> Z -> Kwargs -> result Conv.
Variable conv_call : Conv -> Tensor F -> result (Tensor F).

Record t : Type := { gn : SE3GroupNorm.t F; conv : Conv }.

(** [[(m, 2 * l + 1) for m, l in Rs_in]] *)
Definition default_Rs_gn (Rs_in : list (Z * Z)) : list (Z * Z) :=
  map (fun ml => (fst ml, 2 * snd ml + 1)%Z) Rs_in.

(** [__init__(self, Rs_in, Rs_out, size, eps, Rs_gn, **kwargs)] *)
Definition init (Rs_in Rs_out : list (Z * Z)) (size0 : Z) (eps0 : F)
           (Rs_gn : option (list (Z * Z))) (kwargs : Kwargs) : result t :=
  let Rs_gn :=
    match Rs_gn with
    | None => default_Rs_gn Rs_in
    | Some l => l
    end in
  g <- SE3GroupNorm.init Rs_gn eps0 true ;;
  c <- SE3Convolution Rs_in Rs_out size0 kwargs ;;
  Ok {| gn := g; conv := c |}.

(** [forward(self, input)] *)
Definition forward (self : t) (input : Tensor F) : result (Tensor F) :=
  y <- SE3GroupNorm.forward (gn self) input ;;
  conv_call (conv self) y.

End GNConvolution.
End SE3GNConvolution.

(** ** The channels of a block, for one batch sample *)

Section Channels.
Context {F : Type}.

(** [t[b, c0 : c0 + n]], flat: the entries of batch sample [b] in the
    [n] channels from [c0] on. *)
Definition channels_of (t : Tensor F) (b c0 n : nat) : list F :=
  let S := prod (skipn 2 (size t)) in
  firstn (n * S) (skipn (c0 * S) (sample t b)).

End Channels.

(** ** se3cnn/util/plot.py: the signal of spherical harmonic coefficients *)

Module Plot.
Section Signal.
Context {F : Type} `{Scalar F}.

(** The spherical harmonics of [se3cnn.SO3] are not part of these
    sources: the type of the angles and the function are taken as
    given. *)
Variable Angles : Type.
Variable spherical_harmonics : nat -> Angles -> Angles -> result (Tensor F).

(** [torch.einsum("i,i...->...", (c, y))] for a 1-d [c]: the first axis
    of [y] is contracted with [c] and the other axes are kept.  The two
    sizes of the axis [i] agree, or one of them is 1 and that operand is
    repeated. *)
Definition einsum_i (c : list F) (y : Tensor F) : result (Tensor F) :=
  match size y with
  | [] => Raise RuntimeError
  | n :: rest =>
      let k := length c in
      if (k =? n) || (k =? 1) || (n =? 1) then
        Ok {| size := rest;
              data := map (fun p =>
                        fsum (map (fun i =>
                                fmul (nth (if k =? 1 then 0 else i) c fzero)
                                     (nth ((if n =? 1 then 0 else i) * prod rest + p)
                                          (data y) fzero))
                                  (seq 0 (if k =? 1 then n else k))))
                          (seq 0 (prod rest)) |}
      else Raise RuntimeError
  end.

(** What [s] holds: the Python integer [0] it starts as, or a tensor. *)
Inductive signal : Type :=
| Zero
| Signal (t : Tensor F).

(** [s += e]: on the integer [0] this is [0 + e], a new tensor; on a
    tensor it adds in place, where broadcasting may not change the size
    of [s]. *)
Definition iadd (s : signal) (e : Tensor F) : result signal :=
  match s with
  | Zero => Ok (Signal (add_scalar e fzero))
  | Signal t =>
      r <- add t e ;;
      if list_eq_dec Nat.eq_dec (size r) (size t) then Ok (Signal r) else Raise RuntimeError
  end.

(** The body of the loop after the test, for the degree [l] whose
    coefficients start at [i]. *)
Definition degree (coeff : list F) (alpha beta : Angles) (l i : nat) (s : signal)
  : result signal :=
  let d := 2 * l + 1 in
  let c := slice0 coeff (Z.of_nat i) (Z.of_nat (i + d)) in
  y <- spherical_harmonics l alpha beta ;;
  e <- einsum_i c y ;;
  iadd s e.

(** [for l in count(): ...], with the number of rounds bounded by
    [fuel]; [None] when the bound is reached before the [break]. *)
Fixpoint loop (fuel : nat) (coeff : list F) (alpha beta : Angles) (l i : nat) (s : signal)
  : option (result signal) :=
  match fuel with
  | 0 => None
  | S fuel' =>
      let d := 2 * l + 1 in
      if length coeff <? i + d then Some (Ok s)
      else
        match degree coeff alpha beta l i s with
        | Ok s' => loop fuel' coeff alpha beta (S l) (i + d) s'
        | Raise e => Some (Raise e)
        end
  end.

(** [spherical_harmonic_signal(coeff, alpha, beta)] *)
Definition spherical_harmonic_signal (coeff : list F) (alpha beta : Angles)
  : option (result signal) :=
  loop (S (length coeff)) coeff alpha beta 0 0 Zero.

(** The degrees [ls] one after the other, the coefficients of degree [l]
    read at [l * l]. *)
Fixpoint expansion (coeff : list F) (alpha beta : Angles) (ls : list nat) (s : signal)
  : result signal :=
  match ls with
  | [] => Ok s
  | l :: ls' =>
      s' <- degree coeff alpha beta l (l * l) s ;;
      expansion coeff alpha beta ls' s'
  end.

(** The term of degree [l] at position [p] of a sum over degrees and
    orders: the coefficients of the degree against the rows of [y l],
    which have [n] positions each. *)
Definition term (coeff : list F) (y : nat -> Tensor F) (n l p : nat) : F :=
  fsum (map (fun k => fmul (nth (l * l + k) coeff fzero)
                           (nth (k * n + p) (data (y l)) fzero))
            (seq 0 (2 * l + 1))).

End Signal.
End Plot.
(** ** Small modules and inputs *)

Section Runs.
Import SE3GroupNorm.
Open Scope R_scope.

Definition ramp (n : nat) : list R := map INR (seq 1 n).

Definition input_of (s : list nat) : Tensor R := {| size := s; data := ramp (prod s) |}.

(** A module of one scalar block and one block of dimension 2, as
    [__init__] builds it. *)
Definition small_gn (aff : bool) : SE3GroupNorm.t R :=
  {| Rs := [(1, 1); (1, 2)]%Z; eps := 1 / 100000; affine := aff;
     weight := if aff then Some [1; 1] else None;
     bias := if aff then Some [0] else None |}.

(** Two inputs of two samples and three channels that agree on the
    first sample. *)
Definition two_samples : Tensor R :=
  {| size := [2; 3; 1; 1; 1]%nat; data := [1; 2; 3; 4; 5; 6] |}.
Definition two_samples' : Tensor R :=
  {| size := [2; 3; 1; 1; 1]%nat; data := [1; 2; 3; 7; 8; 9] |}.

(** A tensor of reals read in the reals with [None]. *)
Definition defined (t : Tensor R) : Tensor (option R) :=
  {| size := size t; data := map Some (data t) |}.

End Runs.


(** Harmonics that are constant: degree [l] gives [2 * l + 1] rows of
    two positions, every entry the number [l + 1]. *)
Definition flat_harmonics (l : nat) : Tensor R :=
  {| size := [2 * l + 1; 2]; data := repeat (INR (l + 1)) ((2 * l + 1) * 2) |}.


(** * Runs on small inputs *)

Unset Implicit Arguments.

Lemma Rpow_neg_half_eq (x : R) : Rpow_neg_half x = Rpower x (- (1 / 2)).
Proof. unfold Rpow_neg_half. apply (proj2_sig (Rpow_neg_half_sig x)). Qed.

Example small_gn_init (aff : bool) :
  SE3GroupNorm.init [(1, 1); (1, 2)]%Z (1 / 100000)%R aff = Ok (small_gn aff).
Proof. destruct aff; reflexivity. Qed.

Section SmallRun.
Context {F : Type} `{Scalar F}.
Import SE3GroupNorm.

(** One sample, one position, a scalar block and a block of dimension 2:
    the first channel is centred and scaled, the other two only scaled,
    by one factor for both. *)
Example forward_small_run (e x1 x2 x3 : F) :
  let c := fsub x1 (mean [x1]) in
  let n1 := fpow_neg_half (fadd (mean [fsum [fmul c c]]) e) in
  let n2 := fpow_neg_half (fadd (mean [fsum [fmul x2 x2; fmul x3 x3]]) e) in
  forward {| Rs := [(1, 1); (1, 2)]%Z; eps := e; affine := false;
             weight := None; bias := None |}
          {| size := [1; 3; 1; 1; 1]; data := [x1; x2; x3] |}
  = Ok {| size := [1; 3; 1; 1; 1]; data := [fmul c n1; fmul x2 n2; fmul x3 n2] |}.
Proof. reflexivity. Qed.

(** The same on an affine module: weights scale per channel, the bias is
    added to the scalar block only. *)
Example forward_small_run_affine (e x1 x2 x3 w1 w2 b1 : F) :
  let c := fsub x1 (mean [x1]) in
  let n1 := fpow_neg_half (fadd (mean [fsum [fmul c c]]) e) in
  let n2 := fpow_neg_half (fadd (mean [fsum [fmul x2 x2; fmul x3 x3]]) e) in
  forward {| Rs := [(1, 1); (1, 2)]%Z; eps := e; affine := true;
             weight := Some [w1; w2]; bias := Some [b1] |}
          {| size := [1; 3; 1; 1; 1]; data := [x1; x2; x3] |}
  = Ok {| size := [1; 3; 1; 1; 1];
          data := [fadd (fmul c (fmul n1 w1)) b1;
                   fmul x2 (fmul n2 w2); fmul x3 (fmul n2 w2)] |}.
Proof. reflexivity. Qed.

End SmallRun.
(** * Facts about runs of a flat list *)

Section Lists.
Context {A : Type}.

Lemma flat_map_ext_in (B : Type) (f g : B -> list A) (l : list B) :
  (forall x, In x l -> f x = g x) -> flat_map f l = flat_map g l.
Proof.
  induction l as [|x l IH]; intros E; simpl; [reflexivity|].
  rewrite (E x (or_introl eq_refl)), IH; [reflexivity|].
  intros y Hy. apply E. now right.
Qed.

Lemma flat_map_ext_seq (f g : nat -> list A) (k : nat) :
  (forall i, i < k -> f i = g i) -> flat_map f (seq 0 k) = flat_map g (seq 0 k).
Proof.
  intros E. apply flat_map_ext_in. intros i Hi. apply E. apply in_seq in Hi. lia.
Qed.

Lemma map_ext_seq (B : Type) (f g : nat -> B) (k : nat) :
  (forall i, i < k -> f i = g i) -> map f (seq 0 k) = map g (seq 0 k).
Proof.
  intros E. apply map_ext_in. intros i Hi. apply E. apply in_seq in Hi. lia.
Qed.

Lemma flat_map_map_l (B C : Type) (f : C -> list A) (g : B -> C) (l : list B) :
  flat_map f (map g l) = flat_map (fun x => f (g x)) l.
Proof. induction l as [|x l IH]; simpl; [reflexivity | now rewrite IH]. Qed.

Lemma map_flat_map_r (B C : Type) (g : A -> C) (f : B -> list A) (l : list B) :
  map g (flat_map f l) = flat_map (fun x => map g (f x)) l.
Proof.
  induction l as [|x l IH]; simpl; [reflexivity|]. now rewrite map_app, IH.
Qed.

Lemma flat_map_singleton (B : Type) (f : B -> A) (l : list B) :
  flat_map (fun x => [f x]) l = map f l.
Proof. induction l as [|x l IH]; simpl; [reflexivity | now rewrite IH]. Qed.

Lemma flat_map_seq_S (f : nat -> list A) (k : nat) :
  flat_map f (seq 0 (S k)) = f 0 ++ flat_map (fun i => f (S i)) (seq 0 k).
Proof.
  cbn [seq flat_map]. f_equal. rewrite <- seq_shift. apply flat_map_map_l.
Qed.

Lemma length_flat_map_seq (f : nat -> list A) (k n : nat) :
  (forall i, i < k -> length (f i) = n) -> length (flat_map f (seq 0 k)) = k * n.
Proof.
  revert f. induction k as [|k IH]; intros f E; [reflexivity|].
  rewrite flat_map_seq_S, length_app, E by lia.
  rewrite IH; [lia|]. intros i Hi. apply E. lia.
Qed.

End Lists.

Section Rows.
Context {F : Type}.
Implicit Types (l : list F) (n b k : nat).

Lemma row_0 n l : row n 0 l = firstn n l.
Proof. reflexivity. Qed.

Lemma row_S n b l : row n (S b) l = row n b (skipn n l).
Proof.
  unfold row. rewrite skipn_skipn. do 2 f_equal. simpl. lia.
Qed.

Lemma length_row n b l :
  (S b) * n <= length l -> length (row n b l) = n.
Proof.
  intros L. unfold row. rewrite length_firstn, length_skipn. simpl in L. lia.
Qed.

Lemma length_row_le n b l : length (row n b l) <= n.
Proof. unfold row. rewrite length_firstn. lia. Qed.

Lemma row_nil n b : row n b (@nil F) = [].
Proof. unfold row. now rewrite skipn_nil, firstn_nil. Qed.

Lemma row_app_l n l l' : length l = n -> row n 0 (l ++ l') = l.
Proof.
  intros <-. rewrite row_0, firstn_app, Nat.sub_diag, firstn_all. simpl.
  apply app_nil_r.
Qed.

Lemma skipn_app_l n l l' : length l = n -> skipn n (l ++ l') = l'.
Proof.
  intros <-. rewrite skipn_app, Nat.sub_diag, skipn_all. reflexivity.
Qed.

(** The [b]-th run of a list built run by run. *)
Lemma row_flat_map (f : nat -> list F) k n b :
  (forall i, i < k -> length (f i) = n) -> b < k ->
  row n b (flat_map f (seq 0 k)) = f b.
Proof.
  revert f b. induction k as [|k IH]; intros f b E Hb; [lia|].
  rewrite flat_map_seq_S. destruct b as [|b].
  - apply row_app_l, E. lia.
  - rewrite row_S, skipn_app_l by (apply E; lia).
    apply (IH (fun i => f (S i))); [|lia]. intros i Hi. apply E. lia.
Qed.

(** A list is the sequence of its runs. *)
Lemma flat_map_row n k l :
  length l = k * n -> flat_map (fun b => row n b l) (seq 0 k) = l.
Proof.
  revert l. induction k as [|k IH]; intros l L.
  - destruct l; [reflexivity | discriminate].
  - rewrite flat_map_seq_S, row_0.
    rewrite (flat_map_ext_seq _ (fun i => row n i (skipn n l))) by (intros; apply row_S).
    rewrite IH by (rewrite length_skipn; simpl in L; lia).
    apply firstn_skipn.
Qed.

Lemma rows_flat_map (f : nat -> list F) k n :
  (forall i, i < k -> length (f i) = n) ->
  rows k n (flat_map f (seq 0 k)) = map f (seq 0 k).
Proof.
  intros E. unfold rows. apply map_ext_seq. intros b Hb. now apply row_flat_map.
Qed.

(** A run of a run. *)
Lemma row_row n m b i l :
  i < m -> row n i (row (m * n) b l) = row n (b * m + i) l.
Proof.
  intros Hi. unfold row.
  rewrite skipn_firstn_comm, firstn_firstn, skipn_skipn.
  replace (Nat.min n (m * n - i * n)) with n by nia.
  do 2 f_equal. lia.
Qed.

Lemma seq_mul k m :
  seq 0 (k * m) = flat_map (fun b => map (fun i => b * m + i) (seq 0 m)) (seq 0 k).
Proof.
  induction k as [|k IH]; [reflexivity|].
  rewrite seq_S, flat_map_app, <- IH. cbn [flat_map]. rewrite app_nil_r.
  replace (S k * m) with (k * m + m) by lia.
  rewrite seq_app. f_equal. simpl.
  clear IH. generalize (k * m) as a. intros a.
  rewrite <- (Nat.add_0_r a) at 1.
  generalize 0 as s. induction m as [|m IHm]; intros s; [reflexivity|].
  simpl. f_equal. rewrite <- IHm. f_equal. lia.
Qed.

Lemma rows_mul k m n l :
  rows (k * m) n l = flat_map (fun b => rows m n (row (m * n) b l)) (seq 0 k).
Proof.
  unfold rows. rewrite seq_mul, map_flat_map_r.
  apply flat_map_ext_seq. intros b Hb. rewrite map_map.
  apply map_ext_seq. intros i Hi. symmetry. now apply row_row.
Qed.

Lemma row_1 (d : F) i l : i < length l -> row 1 i l = [nth i l d].
Proof.
  revert l. induction i as [|i IH]; intros l Hi.
  - destruct l; [simpl in Hi; lia | reflexivity].
  - rewrite row_S. destruct l as [|x l]; [simpl in Hi; lia|].
    simpl in Hi. cbn [skipn nth]. apply IH. lia.
Qed.

End Rows.


Section Entries.
Context {F : Type}.
Implicit Types (l : list F) (n b k : nat).

Lemma nth_row n b k l (d : F) : k < n -> nth k (row n b l) d = nth (b * n + k) l d.
Proof.
  intros Hk. unfold row. rewrite nth_firstn.
  destruct (Nat.ltb_spec k n); [|lia]. apply nth_skipn.
Qed.

Lemma nth_flat_map_seq (f : nat -> list F) k n b i (d : F) :
  (forall j, j < k -> length (f j) = n) -> b < k -> i < n ->
  nth (b * n + i) (flat_map f (seq 0 k)) d = nth i (f b) d.
Proof.
  intros E Hb Hi. rewrite <- (nth_row n b i _ d Hi). now rewrite (row_flat_map f k n b E Hb).
Qed.

(** A list is the list of its entries. *)
Lemma list_entries l (d : F) : l = map (fun i => nth i l d) (seq 0 (length l)).
Proof.
  apply (nth_ext _ _ d d); [now rewrite length_map, length_seq|].
  intros i Hi. rewrite (nth_indep _ d (nth 0 l d)) at 1 by assumption.
  rewrite (nth_indep (map _ _) d (nth 0 l d)) by (now rewrite length_map, length_seq).
  change (nth 0 l d) with ((fun i => nth i l d) 0) at 2.
  rewrite map_nth, seq_nth by assumption. simpl.
  apply nth_indep. assumption.
Qed.

Lemma row_entries n b l (d : F) :
  S b * n <= length l -> row n b l = map (fun i => nth (b * n + i) l d) (seq 0 n).
Proof.
  intros L. rewrite (list_entries (row n b l) d), (length_row _ _ _ L).
  apply map_ext_seq. intros i Hi. now apply nth_row.
Qed.

Lemma flat_map_flat_map (B C : Type) (f : C -> list F) (g : B -> list C) (l : list B) :
  flat_map f (flat_map g l) = flat_map (fun x => flat_map f (g x)) l.
Proof.
  induction l as [|x l IH]; simpl; [reflexivity|]. now rewrite flat_map_app, IH.
Qed.

Lemma nth_map_in (G : Type) (f : G -> F) (l : list G) i (d : F) (e : G) :
  i < length l -> nth i (map f l) d = f (nth i l e).
Proof.
  intros Hi. rewrite (nth_indep _ d (f e)) by (now rewrite length_map). apply map_nth.
Qed.

Lemma nth_map_seq (f : nat -> F) k i (d : F) : i < k -> nth i (map f (seq 0 k)) d = f i.
Proof.
  intros Hi. rewrite (nth_map_in _ f (seq 0 k) i d 0) by (now rewrite length_seq).
  now rewrite seq_nth.
Qed.

Lemma row_map_seq (f : nat -> F) k b : b < k -> row 1 b (map f (seq 0 k)) = [f b].
Proof.
  intros Hb. rewrite <- flat_map_singleton.
  apply (row_flat_map (fun i => [f i])); [reflexivity | assumption].
Qed.

Lemma row_beyond n b l : length l <= b * n -> row n b l = [].
Proof. intros L. unfold row. now rewrite skipn_all2, firstn_nil. Qed.

Lemma row_all n l : length l = n -> row n 0 l = l.
Proof. intros <-. rewrite row_0. apply firstn_all. Qed.

End Entries.
(** * Facts about the tensor operations *)

Section ViewFacts.
Context {F : Type}.
Implicit Types (t : Tensor F) (s pre post : list nat).

Lemma prod_app s s' : prod (s ++ s') = prod s * prod s'.
Proof.
  induction s as [|a s IH]; simpl; [lia|]. rewrite IH. lia.
Qed.

Lemma shape_no_invalid s : existsb (fun x => x <? -1)%Z (map Z.of_nat s) = false.
Proof.
  induction s as [|a s IH]; simpl; [reflexivity|]. rewrite IH.
  destruct (Z.ltb_spec (Z.of_nat a) (-1)); [lia | reflexivity].
Qed.

Lemma shape_no_infer s : count_occ Z.eq_dec (map Z.of_nat s) (-1)%Z = 0.
Proof.
  induction s as [|a s IH]; simpl; [reflexivity|].
  destruct (Z.eq_dec (Z.of_nat a) (-1)); [lia | assumption].
Qed.

Lemma shape_known s :
  filter (fun x => negb (x =? -1)%Z) (map Z.of_nat s) = map Z.of_nat s.
Proof.
  induction s as [|a s IH]; simpl; [reflexivity|]. rewrite IH.
  destruct (Z.eqb_spec (Z.of_nat a) (-1)); [lia | reflexivity].
Qed.

Lemma shape_prod s : fold_right Z.mul 1%Z (map Z.of_nat s) = Z.of_nat (prod s).
Proof.
  induction s as [|a s IH]; simpl; [reflexivity|]. rewrite IH. lia.
Qed.

(** A shape with one [-1]: the entry is the quotient. *)
Lemma infer_size_infer pre post q :
  0 < prod pre * prod post ->
  infer_size (map Z.of_nat pre ++ (-1)%Z :: map Z.of_nat post)
             (Z.of_nat (prod pre * prod post * q))
  = Ok (pre ++ q :: post).
Proof.
  intros P. unfold infer_size.
  rewrite existsb_app, shape_no_invalid. cbn [existsb].
  rewrite shape_no_invalid. change (-1 <? -1)%Z with false. cbn [orb].
  rewrite count_occ_app, shape_no_infer. cbn [count_occ].
  destruct (Z.eq_dec (-1) (-1)) as [_|N]; [|congruence].
  rewrite shape_no_infer. cbn [Nat.add Nat.ltb Nat.leb].
  rewrite filter_app, shape_known. cbn [filter].
  change (-1 =? -1)%Z with true. cbn [negb].
  rewrite shape_known, <- map_app, shape_prod, prod_app.
  set (p := prod pre * prod post) in *.
  assert (E : (Z.of_nat (p * q) mod Z.of_nat p = 0)%Z).
  { rewrite Nat2Z.inj_mul, Z.mul_comm. apply Z_mod_mult. }
  rewrite E, Z.eqb_refl.
  destruct (Z.ltb_spec 0 (Z.of_nat p)) as [_|N]; [|lia].
  destruct (Z.eqb_spec (Z.of_nat p) 0) as [N|_]; [lia|].
  rewrite orb_true_r. f_equal.
  rewrite map_app. cbn [map]. change (-1 =? -1)%Z with true.
  rewrite !map_map. f_equal; [|f_equal].
  - rewrite <- (map_id pre) at 2. apply map_ext. intros a.
    destruct (Z.eqb_spec (Z.of_nat a) (-1)); lia.
  - rewrite Nat2Z.inj_mul, Z.mul_comm, Z_div_mult by lia. lia.
  - rewrite <- (map_id post) at 2. apply map_ext. intros a.
    destruct (Z.eqb_spec (Z.of_nat a) (-1)); lia.
Qed.

(** A shape without [-1] must hold exactly the elements there are. *)
Lemma infer_size_exact s : infer_size (map Z.of_nat s) (Z.of_nat (prod s)) = Ok s.
Proof.
  unfold infer_size.
  rewrite shape_no_invalid, shape_no_infer, shape_known, shape_prod, Z.eqb_refl.
  cbn [Nat.ltb Nat.leb orb]. f_equal.
  rewrite map_map. rewrite <- (map_id s) at 2. apply map_ext. intros a. lia.
Qed.

Lemma view_infer t pre post q :
  0 < prod pre * prod post ->
  numel t = prod pre * prod post * q ->
  view t (map Z.of_nat pre ++ (-1)%Z :: map Z.of_nat post)
  = Ok {| size := pre ++ q :: post; data := data t |}.
Proof.
  intros P N. unfold view. rewrite N, infer_size_infer by assumption. reflexivity.
Qed.

Lemma view_exact t s :
  numel t = prod s ->
  view t (map Z.of_nat s) = Ok {| size := s; data := data t |}.
Proof.
  intros N. unfold view. rewrite N, infer_size_exact. reflexivity.
Qed.

(** [view(B, m, d, -1)] succeeds only on positive [B], [m] and [d]. *)
Lemma view_block_inv t (B m d : Z) t' :
  view t [B; m; d; -1]%Z = Ok t' -> (0 < B /\ 0 < m /\ 0 < d)%Z.
Proof.
  unfold view, infer_size. cbn [existsb count_occ filter fold_right].
  destruct (Z.ltb_spec B (-1)); [discriminate|].
  destruct (Z.ltb_spec m (-1)); [discriminate|].
  destruct (Z.ltb_spec d (-1)); [discriminate|].
  change (-1 <? -1)%Z with false. cbn [orb].
  destruct (Z.eq_dec B (-1)) as [EB|NB], (Z.eq_dec m (-1)) as [Em|Nm],
    (Z.eq_dec d (-1)) as [Ed|Nd], (Z.eq_dec (-1) (-1)) as [_|N];
    try congruence; cbn [Nat.ltb Nat.leb bind]; try discriminate.
  destruct (Z.eqb_spec B (-1)); [lia|].
  destruct (Z.eqb_spec m (-1)); [lia|].
  destruct (Z.eqb_spec d (-1)); [lia|].
  change (-1 =? -1)%Z with true. cbn [negb].
  cbn [fold_right].
  destruct (Z.eqb_spec (B * (m * (d * 1))) 0) as [|N0].
  - destruct (_ || _); cbn [bind]; discriminate.
  - intros _. nia.
Qed.

End ViewFacts.

Section BroadcastFacts.
Context {F : Type}.
Variable op : F -> F -> F.
Implicit Types (x y : list F) (r s : list nat).

Lemma broadcast_data_same a r1 r2 x y :
  broadcast_data op (a :: r1) (a :: r2) x y
  = flat_map (fun i => broadcast_data op r1 r2 (row (prod r1) i x) (row (prod r2) i y))
             (seq 0 a).
Proof.
  cbn [broadcast_data]. destruct (Nat.eqb_spec a 1) as [->|]; reflexivity.
Qed.

Lemma broadcast_data_r1 a r1 r2 x y :
  broadcast_data op (a :: r1) (1 :: r2) x y
  = flat_map (fun i => broadcast_data op r1 r2 (row (prod r1) i x) (row (prod r2) 0 y))
             (seq 0 a).
Proof.
  cbn [broadcast_data Nat.eqb]. destruct (Nat.eqb_spec a 1) as [->|]; reflexivity.
Qed.

Lemma broadcast_data_l1 b r1 r2 x y :
  broadcast_data op (1 :: r1) (b :: r2) x y
  = flat_map (fun i => broadcast_data op r1 r2 (row (prod r1) 0 x) (row (prod r2) i y))
             (seq 0 b).
Proof.
  cbn [broadcast_data Nat.eqb]. destruct (Nat.eqb_spec b 1) as [->|]; reflexivity.
Qed.

Lemma prod_ones k : prod (repeat 1 k) = 1.
Proof. induction k as [|k IH]; simpl; [reflexivity | rewrite IH; reflexivity]. Qed.

(** A one-element operand on the right is combined with every entry. *)
Lemma broadcast_data_scalar_r s x c :
  length x = prod s ->
  broadcast_data op s (repeat 1 (length s)) x [c] = map (fun v => op v c) x.
Proof.
  revert x. induction s as [|a s IH]; intros x L.
  - destruct x as [|v [|]]; try discriminate. reflexivity.
  - cbn [length repeat]. rewrite broadcast_data_r1, prod_ones.
    change (row 1 0 [c]) with [c]. cbn [prod fold_right] in L. fold (prod s) in L.
    rewrite (flat_map_ext_seq _ (fun i => map (fun v => op v c) (row (prod s) i x))).
    + rewrite <- map_flat_map_r, flat_map_row; [reflexivity | assumption].
    + intros i Hi. apply IH, length_row. nia.
Qed.

(** A one-element operand on the left likewise. *)
Lemma broadcast_data_scalar_l s c y :
  length y = prod s ->
  broadcast_data op (repeat 1 (length s)) s [c] y = map (fun v => op c v) y.
Proof.
  revert y. induction s as [|a s IH]; intros y L.
  - destruct y as [|v [|]]; try discriminate. reflexivity.
  - cbn [length repeat]. rewrite broadcast_data_l1, prod_ones.
    change (row 1 0 [c]) with [c]. cbn [prod fold_right] in L. fold (prod s) in L.
    rewrite (flat_map_ext_seq _ (fun i => map (fun v => op c v) (row (prod s) i y))).
    + rewrite <- map_flat_map_r, flat_map_row; [reflexivity | assumption].
    + intros i Hi. apply IH, length_row. nia.
Qed.

Lemma broadcast_size_same a r1 r2 r :
  broadcast_size r1 r2 = Some r -> broadcast_size (a :: r1) (a :: r2) = Some (a :: r).
Proof. intros E. cbn [broadcast_size]. now rewrite E, Nat.eqb_refl. Qed.

Lemma broadcast_size_r1 a r1 r2 r :
  broadcast_size r1 r2 = Some r -> broadcast_size (a :: r1) (1 :: r2) = Some (a :: r).
Proof.
  intros E. cbn [broadcast_size]. rewrite E.
  destruct (Nat.eqb_spec a 1) as [->|]; reflexivity.
Qed.

Lemma broadcast_size_l1 b r1 r2 r :
  broadcast_size r1 r2 = Some r -> broadcast_size (1 :: r1) (b :: r2) = Some (b :: r).
Proof.
  intros E. cbn [broadcast_size]. rewrite E. cbn [Nat.eqb].
  destruct b as [|[|b]]; reflexivity.
Qed.

Lemma broadcast_size_ones_r s : broadcast_size s (repeat 1 (length s)) = Some s.
Proof.
  induction s as [|a s IH]; [reflexivity|]. now apply broadcast_size_r1.
Qed.

Lemma broadcast_size_ones_l s : broadcast_size (repeat 1 (length s)) s = Some s.
Proof.
  induction s as [|a s IH]; [reflexivity|]. now apply broadcast_size_l1.
Qed.

End BroadcastFacts.

Section OpFacts.
Context {F : Type} `{Scalar F}.
Implicit Types (xs : nat -> list F) (Bn mn dn S : nat).

Lemma prod3 a b c : prod [a; b; c] = a * (b * c).
Proof. simpl. lia. Qed.

(** [field op v] where [v] holds one scalar per batch sample. *)
Lemma binop_sample op Bn mn dn S xs (c : nat -> F) :
  (forall b, b < Bn -> length (xs b) = mn * (dn * S)) ->
  binop op {| size := [Bn; mn; dn; S]; data := flat_map xs (seq 0 Bn) |}
           {| size := [Bn; 1; 1; 1]; data := map c (seq 0 Bn) |}
  = Ok {| size := [Bn; mn; dn; S];
          data := flat_map (fun b => map (fun v => op v (c b)) (xs b)) (seq 0 Bn) |}.
Proof.
  intros L. unfold binop. cbn [size data length Nat.max Nat.sub align repeat app].
  rewrite (broadcast_size_same Bn _ _ _ (broadcast_size_ones_r [mn; dn; S])
           : broadcast_size [Bn; mn; dn; S] [Bn; 1; 1; 1] = _).
  f_equal. f_equal. rewrite broadcast_data_same.
  apply flat_map_ext_seq. intros b Hb.
  rewrite prod3, (row_flat_map xs Bn _ b L Hb).
  change (prod [1; 1; 1]) with 1. rewrite row_map_seq by assumption.
  apply (broadcast_data_scalar_r op [mn; dn; S]).
  rewrite prod3. now apply L.
Qed.

(** [field op v] where [v] holds one scalar per batch sample and channel. *)
Lemma binop_channel op Bn mn dn S xs (c : nat -> nat -> F) :
  (forall b, b < Bn -> length (xs b) = mn * (dn * S)) ->
  binop op {| size := [Bn; mn; dn; S]; data := flat_map xs (seq 0 Bn) |}
           {| size := [Bn; mn; 1; 1];
              data := flat_map (fun b => map (c b) (seq 0 mn)) (seq 0 Bn) |}
  = Ok {| size := [Bn; mn; dn; S];
          data := flat_map (fun b =>
                    flat_map (fun i => map (fun v => op v (c b i)) (row (dn * S) i (xs b)))
                             (seq 0 mn)) (seq 0 Bn) |}.
Proof.
  intros L. unfold binop. cbn [size data length Nat.max Nat.sub align repeat app].
  rewrite (broadcast_size_same Bn _ _ _
             (broadcast_size_same mn _ _ _ (broadcast_size_ones_r [dn; S]))
           : broadcast_size [Bn; mn; dn; S] [Bn; mn; 1; 1] = _).
  f_equal. f_equal. rewrite broadcast_data_same.
  apply flat_map_ext_seq. intros b Hb.
  rewrite prod3, (row_flat_map xs Bn _ b L Hb).
  rewrite (row_flat_map (fun b => map (c b) (seq 0 mn)) Bn (prod [mn; 1; 1]) b)
    by first [assumption | intros; rewrite length_map, length_seq; simpl; lia].
  rewrite broadcast_data_same. apply flat_map_ext_seq. intros i Hi.
  change (prod [1; 1]) with 1. rewrite row_map_seq by assumption.
  replace (prod [dn; S]) with (dn * S) by (simpl; lia).
  apply (broadcast_data_scalar_r op [dn; S]).
  rewrite length_row; [simpl; lia|]. rewrite L by assumption. nia.
Qed.

(** [field op v] where [v] holds one scalar per channel. *)
Lemma binop_param op Bn mn dn S xs (c : nat -> F) :
  (forall b, b < Bn -> length (xs b) = mn * (dn * S)) ->
  binop op {| size := [Bn; mn; dn; S]; data := flat_map xs (seq 0 Bn) |}
           {| size := [1; mn; 1; 1]; data := map c (seq 0 mn) |}
  = Ok {| size := [Bn; mn; dn; S];
          data := flat_map (fun b =>
                    flat_map (fun i => map (fun v => op v (c i)) (row (dn * S) i (xs b)))
                             (seq 0 mn)) (seq 0 Bn) |}.
Proof.
  intros L. unfold binop. cbn [size data length Nat.max Nat.sub align repeat app].
  rewrite (broadcast_size_r1 Bn _ _ _
             (broadcast_size_same mn _ _ _ (broadcast_size_ones_r [dn; S]))
           : broadcast_size [Bn; mn; dn; S] [1; mn; 1; 1] = _).
  f_equal. f_equal. rewrite broadcast_data_r1.
  apply flat_map_ext_seq. intros b Hb.
  rewrite prod3, (row_flat_map xs Bn _ b L Hb).
  rewrite row_all by (rewrite length_map, length_seq; simpl; lia).
  rewrite broadcast_data_same. apply flat_map_ext_seq. intros i Hi.
  change (prod [1; 1]) with 1. rewrite row_map_seq by assumption.
  replace (prod [dn; S]) with (dn * S) by (simpl; lia).
  apply (broadcast_data_scalar_r op [dn; S]).
  rewrite length_row; [simpl; lia|]. rewrite L by assumption. nia.
Qed.

(** [norm op w]: one scalar per batch sample with one per channel. *)
Lemma binop_outer op Bn mn (n w : nat -> F) :
  binop op {| size := [Bn; 1; 1; 1]; data := map n (seq 0 Bn) |}
           {| size := [1; mn; 1; 1]; data := map w (seq 0 mn) |}
  = Ok {| size := [Bn; mn; 1; 1];
          data := flat_map (fun b => map (fun i => op (n b) (w i)) (seq 0 mn)) (seq 0 Bn) |}.
Proof.
  unfold binop. cbn [size data length Nat.max Nat.sub align repeat app].
  rewrite (broadcast_size_r1 Bn _ _ _ (broadcast_size_ones_l [mn; 1; 1])
           : broadcast_size [Bn; 1; 1; 1] [1; mn; 1; 1] = _).
  f_equal. f_equal. rewrite broadcast_data_r1.
  apply flat_map_ext_seq. intros b Hb.
  change (prod [1; 1; 1]) with 1. rewrite row_map_seq by assumption.
  rewrite row_all by (rewrite length_map, length_seq; simpl; lia).
  rewrite <- (map_map w (fun v => op (n b) v)).
  apply (broadcast_data_scalar_l op [mn; 1; 1]).
  rewrite length_map, length_seq. simpl. lia.
Qed.

(** [t.mean(-1)] of a two-dimensional tensor given row by row. *)
Lemma mean_last_rows Bn N xs :
  (forall b, b < Bn -> length (xs b) = N) ->
  mean_last {| size := [Bn; N]; data := flat_map xs (seq 0 Bn) |}
  = {| size := [Bn]; data := map (fun b => mean (xs b)) (seq 0 Bn) |}.
Proof.
  intros L. unfold mean_last. cbn [size data removelast last prod fold_right].
  rewrite Nat.mul_1_r, rows_flat_map by assumption. now rewrite map_map.
Qed.

Lemma length_zip_with (f : F -> F -> F) (l1 l2 : list F) :
  length (zip_with f l1 l2) = Nat.min (length l1) (length l2).
Proof.
  revert l2. induction l1 as [|x l1 IH]; intros [|y l2]; simpl; auto.
Qed.

Lemma zip_with_maps (f : F -> F -> F) (g h : nat -> F) (l : list nat) :
  zip_with f (map g l) (map h l) = map (fun s => f (g s) (h s)) l.
Proof. induction l as [|a l IH]; simpl; [reflexivity | now rewrite IH]. Qed.

(** Summing [n] runs position by position gives, at each position, the
    sum of the entries there, first run first. *)
Lemma colsum_entries n p (l : list F) :
  n * p <= length l ->
  colsum n p l
  = map (fun s => fsum (map (fun j => nth (j * p + s) l fzero) (seq 0 n))) (seq 0 p).
Proof.
  unfold colsum, rows. induction n as [|n IH]; intros L.
  - simpl. apply (nth_ext _ _ fzero fzero).
    + now rewrite repeat_length, length_map, length_seq.
    + intros i Hi. rewrite repeat_length in Hi.
      rewrite nth_repeat_lt, nth_map_seq by assumption. reflexivity.
  - rewrite seq_S, map_app, fold_left_app, IH by lia. cbn [map fold_left Nat.add].
    rewrite (row_entries p n l fzero) by lia. rewrite zip_with_maps.
    apply map_ext_seq. intros s Hs.
    unfold fsum. now rewrite map_app, fold_left_app.
Qed.

Lemma length_colsum n p (l : list F) : n * p <= length l -> length (colsum n p l) = p.
Proof. intros L. now rewrite colsum_entries, length_map, length_seq. Qed.

(** [torch.sum(field, dim=2)] sample by sample. *)
Lemma sum_dim_rows Bn mn dn S xs :
  (forall b, b < Bn -> length (xs b) = mn * (dn * S)) ->
  sum_dim {| size := [Bn; mn; dn; S]; data := flat_map xs (seq 0 Bn) |} 2
  = Ok {| size := [Bn; mn; S];
          data := flat_map (fun b => flat_map (colsum dn S) (rows mn (dn * S) (xs b)))
                           (seq 0 Bn) |}.
Proof.
  intros L. unfold sum_dim. cbn [size data nth_error firstn skipn app prod fold_right].
  rewrite !Nat.mul_1_r. f_equal. f_equal.
  rewrite rows_mul, flat_map_flat_map.
  apply flat_map_ext_seq. intros b Hb. now rewrite (row_flat_map xs Bn _ b L Hb).
Qed.

End OpFacts.

(** * The loop body, sample by sample *)

Section BlockFacts.
Context {F : Type} `{Scalar F}.
Implicit Types (t : Tensor F) (xs : nat -> list F) (Bn mn dn S : nat).

Lemma view_rows t Bn q :
  0 < Bn -> numel t = Bn * q ->
  view t [Z.of_nat Bn; -1]%Z = Ok {| size := [Bn; q]; data := data t |}.
Proof.
  intros P N. apply (view_infer t [Bn] [] q); simpl; lia.
Qed.

Lemma view_column t :
  view t [-1; 1; 1; 1]%Z = Ok {| size := [numel t; 1; 1; 1]; data := data t |}.
Proof. apply (view_infer t [] [1; 1; 1] (numel t)); simpl; lia. Qed.

Lemma view_channels t :
  view t [1; -1; 1; 1]%Z = Ok {| size := [1; numel t; 1; 1]; data := data t |}.
Proof. apply (view_infer t [1] [1; 1] (numel t)); simpl; lia. Qed.

Lemma view_field t Bn mn dn q :
  0 < Bn -> 0 < mn -> 0 < dn -> numel t = Bn * (mn * (dn * q)) ->
  view t [Z.of_nat Bn; Z.of_nat mn; Z.of_nat dn; -1]%Z
  = Ok {| size := [Bn; mn; dn; q]; data := data t |}.
Proof.
  intros PB Pm Pd N. apply (view_infer t [Bn; mn; dn] [] q); simpl; nia.
Qed.

Lemma view_back t Bn n sp :
  numel t = Bn * (n * prod sp) ->
  view t (Z.of_nat Bn :: Z.of_nat n :: map Z.of_nat sp)
  = Ok {| size := Bn :: n :: sp; data := data t |}.
Proof. intros N. apply (view_exact t (Bn :: n :: sp)). exact N. Qed.

Lemma slice_index_in (len i : nat) :
  i <= len -> slice_index (Z.of_nat len) (Z.of_nat i) = i.
Proof.
  intros L. unfold slice_index.
  destruct (Z.ltb_spec (Z.of_nat i) 0); lia.
Qed.

(** The channels [ixn, ixn + n) of every batch sample. *)
Lemma slice1_block t Bn C sp ixn n :
  size t = Bn :: C :: sp -> ixn + n <= C ->
  slice1 t (Z.of_nat ixn) (Z.of_nat ixn + Z.of_nat n)
  = Ok {| size := Bn :: n :: sp;
          data := flat_map (fun b => firstn (n * prod sp)
                                       (skipn (ixn * prod sp) (row (C * prod sp) b (data t))))
                           (seq 0 Bn) |}.
Proof.
  intros E L. unfold slice1. rewrite E. unfold slice_len, slice_start.
  rewrite <- Nat2Z.inj_add, !slice_index_in by lia.
  replace (ixn + n - ixn) with n by lia.
  unfold rows. now rewrite flat_map_map_l.
Qed.

Lemma length_block_rows t Bn C sp ixn n b :
  size t = Bn :: C :: sp -> wf t -> ixn + n <= C -> b < Bn ->
  length (firstn (n * prod sp) (skipn (ixn * prod sp) (row (C * prod sp) b (data t))))
  = n * prod sp.
Proof.
  intros E W L Hb. unfold wf, numel in W. rewrite E in W. cbn [prod fold_right] in W.
  fold (prod sp) in W.
  rewrite length_firstn, length_skipn, length_row by nia. nia.
Qed.

(** Lines 42-44. *)
Lemma center_rows Bn mn dn S xs :
  0 < Bn ->
  (forall b, b < Bn -> length (xs b) = mn * (dn * S)) ->
  SE3GroupNorm.center (Z.of_nat Bn) (Z.of_nat dn)
    {| size := [Bn; mn; dn; S]; data := flat_map xs (seq 0 Bn) |}
  = Ok {| size := [Bn; mn; dn; S];
          data := flat_map (fun b => PerSample.centred dn (xs b)) (seq 0 Bn) |}.
Proof.
  intros PB L. unfold SE3GroupNorm.center, PerSample.centred.
  destruct (Nat.eqb_spec dn 1) as [->|N].
  - change (Z.of_nat 1 =? 1)%Z with true. cbv iota.
    rewrite (view_rows _ Bn (mn * (1 * S))) by (assumption || (unfold numel; simpl; lia)).
    cbn [bind data]. rewrite (mean_last_rows Bn _ xs L).
    rewrite view_column. cbn [bind data numel size prod fold_right].
    rewrite Nat.mul_1_r. unfold sub. apply binop_sample. assumption.
  - destruct (Z.eqb_spec (Z.of_nat dn) 1) as [E|_]; [lia|]. reflexivity.
Qed.

(** The tensor reading of the sum of squares against the entry-wise one. *)
Lemma sum_squares_rows mn dn S (x : list F) :
  length x = mn * (dn * S) ->
  flat_map (colsum dn S) (rows mn (dn * S) (map (fun v => fmul v v) x))
  = PerSample.sum_squares mn dn S x.
Proof.
  intros L. unfold rows, PerSample.sum_squares. rewrite flat_map_map_l.
  apply flat_map_ext_seq. intros i Hi.
  assert (Lr : Datatypes.S i * (dn * S) <= length (map (fun v => fmul v v) x))
    by (rewrite length_map; nia).
  rewrite colsum_entries by (rewrite (length_row _ _ _ Lr); lia).
  apply map_ext_seq. intros s Hs. f_equal.
  apply map_ext_seq. intros j Hj.
  rewrite nth_row by nia.
  rewrite (nth_map_in _ (fun v => fmul v v) x _ fzero fzero) by nia.
  unfold PerSample.entry.
  replace (i * (dn * S) + (j * S + s)) with ((i * dn + j) * S + s) by lia.
  reflexivity.
Qed.

Lemma length_colsum_rows mn dn S (l : list F) :
  length l = mn * (dn * S) ->
  length (flat_map (colsum dn S) (rows mn (dn * S) l)) = mn * S.
Proof.
  intros L. unfold rows. rewrite flat_map_map_l.
  apply length_flat_map_seq. intros i Hi.
  apply length_colsum. rewrite length_row; [lia | nia].
Qed.

(** Lines 46-47. *)
Lemma norm_stat_rows Bn mn dn S xs :
  0 < Bn ->
  (forall b, b < Bn -> length (xs b) = mn * (dn * S)) ->
  SE3GroupNorm.norm_stat (Z.of_nat Bn)
    {| size := [Bn; mn; dn; S]; data := flat_map xs (seq 0 Bn) |}
  = Ok {| size := [Bn];
          data := map (fun b => mean (PerSample.sum_squares mn dn S (xs b))) (seq 0 Bn) |}.
Proof.
  intros PB L. unfold SE3GroupNorm.norm_stat.
  unfold pow2, tmap. cbn [size data]. rewrite map_flat_map_r.
  rewrite sum_dim_rows by (intros; rewrite length_map; auto).
  cbn [bind]. rewrite (view_rows _ Bn (mn * S)) by (assumption || (unfold numel; simpl; lia)).
  cbn [bind data].
  rewrite mean_last_rows
    by (intros; apply length_colsum_rows; rewrite length_map; auto).
  f_equal. f_equal. apply map_ext_seq. intros b Hb.
  now rewrite sum_squares_rows by auto.
Qed.

(** Lines 46-48. *)
Lemma field_norm_rows self Bn mn dn S xs :
  0 < Bn ->
  (forall b, b < Bn -> length (xs b) = mn * (dn * S)) ->
  SE3GroupNorm.field_norm self (Z.of_nat Bn)
    {| size := [Bn; mn; dn; S]; data := flat_map xs (seq 0 Bn) |}
  = Ok {| size := [Bn; 1; 1; 1];
          data := map (fun b => PerSample.norm_factor mn dn S (SE3GroupNorm.eps self) (xs b))
                      (seq 0 Bn) |}.
Proof.
  intros PB L. unfold SE3GroupNorm.field_norm.
  rewrite (norm_stat_rows Bn mn dn S xs PB L). cbn [bind].
  unfold pow_neg_half, add_scalar, tmap. cbn [size data].
  rewrite view_column. unfold numel. cbn [size data prod fold_right].
  rewrite Nat.mul_1_r, !map_map. reflexivity.
Qed.

End BlockFacts.

Section BlockSpec.
Context {F : Type} `{Scalar F}.
Implicit Types (t : Tensor F) (xs : nat -> list F) (Bn mn dn S : nat).

Lemma slice0_entries (v : list F) o n :
  o + n <= length v ->
  slice0 v (Z.of_nat o) (Z.of_nat o + Z.of_nat n)
  = map (fun i => nth (o + i) v fzero) (seq 0 n).
Proof.
  intros L. unfold slice0, slice_len, slice_start.
  rewrite <- Nat2Z.inj_add, !slice_index_in by lia.
  replace (o + n - o) with n by lia.
  rewrite (list_entries (firstn n (skipn o v)) fzero).
  rewrite length_firstn, length_skipn. replace (Nat.min n (length v - o)) with n by lia.
  apply map_ext_seq. intros i Hi. rewrite nth_firstn.
  destruct (Nat.ltb_spec i n); [|lia]. apply nth_skipn.
Qed.

Lemma length_centred dn (x : list F) : length (PerSample.centred dn x) = length x.
Proof. unfold PerSample.centred. destruct (dn =? 1); [apply length_map | reflexivity]. Qed.

Lemma length_per_channel mn dn S op (c : nat -> F) (x : list F) :
  length x = mn * (dn * S) ->
  length (PerSample.per_channel mn dn S op c x) = mn * (dn * S).
Proof.
  intros L. unfold PerSample.per_channel. apply length_flat_map_seq.
  intros i Hi. rewrite length_map. apply length_row. nia.
Qed.

Lemma per_channel_const mn dn S op (c : F) (x : list F) :
  length x = mn * (dn * S) ->
  PerSample.per_channel mn dn S op (fun _ => c) x = map (fun v => op v c) x.
Proof.
  intros L. unfold PerSample.per_channel.
  now rewrite <- map_flat_map_r, flat_map_row.
Qed.

Lemma length_per_sample_block mn dn S eps0 aff (w b : nat -> F) (x : list F) :
  length x = mn * (dn * S) ->
  length (PerSample.block mn dn S eps0 aff w b x) = mn * (dn * S).
Proof.
  intros L. unfold PerSample.block.
  assert (Ly : forall c, length (PerSample.per_channel mn dn S fmul c (PerSample.centred dn x))
                         = mn * (dn * S))
    by (intros; apply length_per_channel; now rewrite length_centred).
  destruct (aff && (dn =? 1)); [apply length_per_channel|]; apply Ly.
Qed.

(** Lines 50-53 on an affine module. *)
Lemma apply_weight_affine self Bn mn (n : nat -> F) (w : list F) iwn :
  SE3GroupNorm.affine self = true ->
  SE3GroupNorm.weight self = Some w ->
  iwn + mn <= length w ->
  SE3GroupNorm.apply_weight self (Z.of_nat mn) (Z.of_nat iwn)
    {| size := [Bn; 1; 1; 1]; data := map n (seq 0 Bn) |}
  = Ok ({| size := [Bn; mn; 1; 1];
           data := flat_map (fun b => map (fun i => fmul (n b) (nth (iwn + i) w fzero))
                                          (seq 0 mn)) (seq 0 Bn) |},
        (Z.of_nat iwn + Z.of_nat mn)%Z).
Proof.
  intros A W L. unfold SE3GroupNorm.apply_weight. rewrite A, W. cbn [SE3GroupNorm.param bind].
  rewrite slice0_entries by assumption.
  rewrite view_channels. unfold tensor1, numel. cbn [size data prod fold_right bind].
  rewrite length_map, length_seq, Nat.mul_1_r.
  unfold mul. now rewrite binop_outer.
Qed.

(** Lines 57-60 on an affine module and a block of dimension 1. *)
Lemma apply_bias_affine self Bn mn S xs (b0 : list F) ibn :
  SE3GroupNorm.affine self = true ->
  SE3GroupNorm.bias self = Some b0 ->
  ibn + mn <= length b0 ->
  (forall b, b < Bn -> length (xs b) = mn * (1 * S)) ->
  SE3GroupNorm.apply_bias self (Z.of_nat mn) 1 (Z.of_nat ibn)
    {| size := [Bn; mn; 1; S]; data := flat_map xs (seq 0 Bn) |}
  = Ok ({| size := [Bn; mn; 1; S];
           data := flat_map (fun b =>
                     PerSample.per_channel mn 1 S fadd (fun i => nth (ibn + i) b0 fzero) (xs b))
                     (seq 0 Bn) |},
        (Z.of_nat ibn + Z.of_nat mn)%Z).
Proof.
  intros A W L Lx. unfold SE3GroupNorm.apply_bias. rewrite A, W.
  cbn [SE3GroupNorm.param bind andb Z.eqb Pos.eqb].
  rewrite slice0_entries by assumption.
  rewrite view_channels. unfold tensor1, numel. cbn [size data prod fold_right bind].
  rewrite length_map, length_seq, Nat.mul_1_r.
  unfold add. now rewrite binop_param.
Qed.

End BlockSpec.

Section BlockRun.
Context {F : Type} `{Scalar F}.
Import SE3GroupNorm.

(** One turn of the loop on a block that lies within the channels and
    within the parameters: what it appends, sample by sample. *)
Lemma block_spec (self : SE3GroupNorm.t F) (t : Tensor F) st Bn C sp mn dn ixn iwn ibn :
  size t = Bn :: C :: sp -> wf t ->
  0 < Bn -> 0 < mn -> 0 < dn ->
  ix st = Z.of_nat ixn -> ixn + mn * dn <= C ->
  (affine self = true ->
     iw st = Z.of_nat iwn /\ exists w, weight self = Some w /\ iwn + mn <= length w) ->
  (affine self = true -> dn = 1 ->
     ib st = Z.of_nat ibn /\ exists b0, bias self = Some b0 /\ ibn + mn <= length b0) ->
  block self t st (Z.of_nat mn, Z.of_nat dn)
  = Ok {| fields := fields st ++
            [{| size := Bn :: mn * dn :: sp;
                data := flat_map (fun b =>
                  PerSample.block mn dn (prod sp) (eps self) (affine self)
                    (PerSample.sub_vector (weight self) iwn)
                    (PerSample.sub_vector (bias self) ibn)
                    (firstn (mn * dn * prod sp)
                            (skipn (ixn * prod sp) (row (C * prod sp) b (data t)))))
                  (seq 0 Bn) |}];
          ix := ix st + Z.of_nat mn * Z.of_nat dn;
          iw := if affine self then iw st + Z.of_nat mn else iw st;
          ib := if affine self && (dn =? 1) then ib st + Z.of_nat mn else ib st |}.
Proof.
  intros E W PB Pm Pd Hix Lix Hw Hb.
  unfold block. rewrite Hix, <- Nat2Z.inj_mul.
  rewrite (slice1_block t Bn C sp ixn (mn * dn) E Lix). cbn [bind].
  unfold size_at. rewrite E. cbn [nth_error bind skipn].
  set (xs := fun b => firstn (mn * dn * prod sp)
                        (skipn (ixn * prod sp) (row (C * prod sp) b (data t)))).
  assert (Lx : forall b, b < Bn -> length (xs b) = mn * (dn * prod sp)).
  { intros b Hlt. unfold xs. rewrite (length_block_rows t Bn C sp ixn (mn * dn) b); auto. lia. }
  rewrite (view_field _ Bn mn dn (prod sp))
    by (assumption || (unfold numel; cbn [size prod fold_right]; fold (prod sp); lia)).
  cbn [bind data].
  rewrite (center_rows Bn mn dn (prod sp) xs PB Lx). cbn [bind].
  assert (Lc : forall b, b < Bn -> length (PerSample.centred dn (xs b)) = mn * (dn * prod sp))
    by (intros; rewrite length_centred; auto).
  rewrite (field_norm_rows self Bn mn dn (prod sp) _ PB Lc). cbn [bind].
  unfold PerSample.block.
  destruct (affine self) eqn:A.
  - destruct (Hw eq_refl) as [Hiw [w [Ew Lw]]]. rewrite Hiw.
    rewrite (apply_weight_affine self Bn mn _ w iwn A Ew Lw). cbn [bind].
    unfold mul. rewrite binop_channel by assumption. cbn [bind].
    unfold PerSample.sub_vector at 1 2. rewrite Ew.
    destruct (Nat.eqb_spec dn 1) as [->|N].
    + destruct (Hb eq_refl eq_refl) as [Hib [b0 [Eb Lb]]]. rewrite Hib.
      change (Z.of_nat 1) with 1%Z.
      rewrite (apply_bias_affine self Bn mn (prod sp) _ b0 ibn A Eb Lb)
        by (intros; apply (length_per_channel mn 1 (prod sp)); now rewrite length_centred; auto).
      cbn [bind andb].
      rewrite (view_back _ Bn (mn * 1) sp)
        by (unfold numel; cbn [size prod fold_right]; fold (prod sp); lia).
      cbn [bind data]. unfold PerSample.sub_vector. rewrite Eb. reflexivity.
    + unfold apply_bias. rewrite A.
      destruct (Z.eqb_spec (Z.of_nat dn) 1) as [E1|_]; [lia|]. cbn [andb bind].
      rewrite (view_back _ Bn (mn * dn) sp)
        by (unfold numel; cbn [size prod fold_right]; fold (prod sp); lia).
      reflexivity.
  - unfold apply_weight, apply_bias. rewrite A. cbn [bind andb].
    unfold mul. rewrite binop_sample by assumption. cbn [bind].
    rewrite (view_back _ Bn (mn * dn) sp)
      by (unfold numel; cbn [size prod fold_right]; fold (prod sp); lia).
    cbn [bind data]. do 5 f_equal.
    apply flat_map_ext_seq. intros b Hlt. symmetry.
    apply per_channel_const. auto.
Qed.

End BlockRun.

(** * The loop and the whole forward pass *)

Section Totals.

Lemma zsum_from (l : list Z) (a : Z) : fold_left Z.add l a = (a + zsum l)%Z.
Proof.
  unfold zsum. revert a. induction l as [|x l IH]; intros a; simpl; [lia|].
  rewrite (IH (a + x)%Z), (IH x). lia.
Qed.

Lemma zsum_cons (x : Z) (l : list Z) : zsum (x :: l) = (x + zsum l)%Z.
Proof. unfold zsum at 1. simpl. apply zsum_from. Qed.

Lemma zsum_app (l l' : list Z) : zsum (l ++ l') = (zsum l + zsum l')%Z.
Proof.
  induction l as [|x l IH]; [reflexivity|]. simpl. rewrite !zsum_cons, IH. lia.
Qed.

Import SE3GroupNorm.

Lemma channels_cons m d l : channels ((m, d) :: l) = (m * d + channels l)%Z.
Proof. unfold channels. simpl. apply zsum_cons. Qed.

Lemma multiplicities_cons m d l : multiplicities ((m, d) :: l) = (m + multiplicities l)%Z.
Proof. unfold multiplicities. simpl. apply zsum_cons. Qed.

Lemma scalar_multiplicities_cons m d l :
  scalar_multiplicities ((m, d) :: l)
  = ((if (d =? 1)%Z then m else 0) + scalar_multiplicities l)%Z.
Proof.
  unfold scalar_multiplicities. simpl. destruct (d =? 1)%Z; [apply zsum_cons | reflexivity].
Qed.

Lemma channels_nonneg l : positive_blocks l -> (0 <= channels l)%Z.
Proof.
  induction 1 as [|[m d] l [Pm Pd] _ IH]; [reflexivity|].
  rewrite channels_cons. simpl in *. nia.
Qed.

Lemma multiplicities_nonneg l : positive_blocks l -> (0 <= multiplicities l)%Z.
Proof.
  induction 1 as [|[m d] l [Pm Pd] _ IH]; [reflexivity|].
  rewrite multiplicities_cons. simpl in *. lia.
Qed.

Lemma scalar_multiplicities_nonneg l :
  positive_blocks l -> (0 <= scalar_multiplicities l)%Z.
Proof.
  induction 1 as [|[m d] l [Pm Pd] _ IH]; [reflexivity|].
  rewrite scalar_multiplicities_cons. simpl in *. destruct (d =? 1)%Z; lia.
Qed.

End Totals.

Section LoopRun.
Context {F : Type} `{Scalar F}.
Import SE3GroupNorm.

(** The parameters cover what the blocks [l] take from offsets [iwn] and
    [ibn] on. *)
Lemma loop_spec (self : SE3GroupNorm.t F) (t : Tensor F) Bn C sp (l : list (Z * Z)) :
  size t = Bn :: C :: sp -> wf t -> 0 < Bn ->
  forall st ixn iwn ibn,
  positive_blocks l ->
  ix st = Z.of_nat ixn -> (Z.of_nat ixn + channels l <= Z.of_nat C)%Z ->
  (affine self = true ->
     iw st = Z.of_nat iwn /\ ib st = Z.of_nat ibn /\
     exists w b0, weight self = Some w /\ bias self = Some b0 /\
       (Z.of_nat iwn + multiplicities l <= Z.of_nat (length w))%Z /\
       (Z.of_nat ibn + scalar_multiplicities l <= Z.of_nat (length b0))%Z) ->
  exists fs,
    loop self t st l
    = Ok {| fields := fields st ++ fs;
            ix := ix st + channels l;
            iw := if affine self then iw st + multiplicities l else iw st;
            ib := if affine self then ib st + scalar_multiplicities l else ib st |}
    /\ length fs = length l
    /\ Forall (fun f => exists n, size f = Bn :: n :: sp) fs
    /\ Z.of_nat (list_sum (map (fun f => nth 1 (size f) 0) fs)) = channels l
    /\ forall b, b < Bn ->
         flat_map (fun f => row (nth 1 (size f) 0 * prod sp) b (data f)) fs
         = PerSample.blocks self (prod sp) (row (C * prod sp) b (data t)) ixn iwn ibn l.
Proof.
  intros E W PB. induction l as [|[m d] l IH]; intros st ixn iwn ibn P Hix Lix Hp.
  - exists []. cbn [loop]. rewrite app_nil_r. unfold channels, multiplicities,
      scalar_multiplicities. cbn [map filter zsum fold_left].
    rewrite !Z.add_0_r. destruct st, (affine self); cbn; repeat split; auto.
  - inversion P as [|x l' [Pm Pd] P' EQ]; subst x l'. cbn [fst snd] in Pm, Pd.
    pose proof (channels_nonneg l P') as Cl.
    pose proof (multiplicities_nonneg l P') as Ml.
    pose proof (scalar_multiplicities_nonneg l P') as Sl.
    rewrite channels_cons in Lix.
    assert (Em : m = Z.of_nat (Z.to_nat m)) by lia.
    assert (Ed : d = Z.of_nat (Z.to_nat d)) by lia.
    revert Em Ed. generalize (Z.to_nat m) as mn, (Z.to_nat d) as dn.
    intros mn dn -> ->.
    assert (E1 : (Z.of_nat dn =? 1)%Z = (dn =? 1)).
    { destruct (Nat.eqb_spec dn 1), (Z.eqb_spec (Z.of_nat dn) 1); lia. }
    cbn [loop].
    rewrite (block_spec self t st Bn C sp mn dn ixn iwn ibn E W PB); try lia.
    2:{ intros A. destruct (Hp A) as [Hiw [_ [w [b0 [Ew [_ [Lw _]]]]]]].
        split; [assumption|]. exists w. split; [assumption|].
        rewrite multiplicities_cons in Lw. lia. }
    2:{ intros A D1. destruct (Hp A) as [_ [Hib [w [b0 [_ [Eb [_ Lb]]]]]]].
        split; [assumption|]. exists b0. split; [assumption|].
        rewrite scalar_multiplicities_cons in Lb.
        destruct (Z.eqb_spec (Z.of_nat dn) 1); lia. }
    cbn [bind].
    match goal with |- context [loop self t ?s l] => set (st' := s) end.
    destruct (IH st' (ixn + mn * dn)
                (if affine self then iwn + mn else iwn)
                (if affine self && (dn =? 1) then ibn + mn else ibn) P')
      as [fs [Run [Len [Sz [Sum Rows]]]]].
    + unfold st'. cbn [ix]. rewrite Hix. lia.
    + nia.
    + intros A. destruct (Hp A) as [Hiw [Hib [w [b0 [Ew [Eb [Lw Lb]]]]]]].
      unfold st'. cbn [iw ib]. rewrite A, Hiw, Hib.
      rewrite multiplicities_cons in Lw. rewrite scalar_multiplicities_cons in Lb.
      rewrite E1 in Lb. cbn [andb].
      split; [lia|]. split; [destruct (dn =? 1); lia|].
      exists w, b0. repeat split; auto; destruct (dn =? 1); lia.
    + eexists (_ :: fs). rewrite Run. unfold st'. cbn [fields ix iw ib].
      rewrite <- app_assoc. cbn [app].
      rewrite channels_cons, multiplicities_cons, scalar_multiplicities_cons, E1.
      split; [|split; [|split; [|split]]].
      * f_equal. f_equal; try lia; destruct (affine self), (dn =? 1); cbn [andb]; lia.
      * cbn [length]. now rewrite Len.
      * constructor; [|assumption]. eexists. reflexivity.
      * cbn [map size nth].
        match goal with
        | |- Z.of_nat (list_sum (?a :: ?r)) = _ =>
            change (list_sum (a :: r)) with (a + list_sum r)
        end.
        rewrite Nat2Z.inj_add, Sum. nia.
      * intros b Hb. cbn [flat_map size nth data PerSample.blocks].
        rewrite !Nat2Z.id, (Rows b Hb). f_equal.
        rewrite (row_flat_map _ Bn (mn * dn * prod sp) b); [reflexivity| |assumption].
        intros i Hi. rewrite length_per_sample_block; [lia|].
        rewrite (length_block_rows t Bn C sp ixn (mn * dn) i); auto; nia.
Qed.

End LoopRun.

Ltac bind_inv H :=
  match type of H with
  | bind ?c _ = Ok _ =>
      let E := fresh "Run" in
      destruct c eqn:E; [cbn [bind] in H | discriminate H]
  end.

Section ForwardFacts.
Context {F : Type} `{Scalar F}.
Import SE3GroupNorm.

Lemma apply_weight_iw (self : SE3GroupNorm.t F) m i n n' i' :
  apply_weight self m i n = Ok (n', i') ->
  i' = if affine self then (i + m)%Z else i.
Proof.
  unfold apply_weight. destruct (affine self); intros R.
  - repeat bind_inv R. now inversion R.
  - now inversion R.
Qed.

Lemma apply_bias_ib (self : SE3GroupNorm.t F) m d i f f' i' :
  apply_bias self m d i f = Ok (f', i') ->
  i' = if affine self && (d =? 1)%Z then (i + m)%Z else i.
Proof.
  unfold apply_bias. destruct (affine self && (d =? 1)%Z); intros R.
  - repeat bind_inv R. now inversion R.
  - now inversion R.
Qed.

(** A turn of the loop that does not raise. *)
Lemma block_inv (self : SE3GroupNorm.t F) t st m d st' :
  block self t st (m, d) = Ok st' ->
  exists Bn C sp,
    size t = Bn :: C :: sp /\ 0 < Bn /\ (0 < m)%Z /\ (0 < d)%Z /\
    (exists out, fields st' = fields st ++ [out]) /\
    ix st' = (ix st + m * d)%Z /\
    iw st' = (if affine self then iw st + m else iw st)%Z /\
    ib st' = (if affine self && (d =? 1)%Z then ib st + m else ib st)%Z.
Proof.
  unfold block. intros R. bind_inv R.
  unfold slice1 in Run. destruct (size t) as [|Bn [|C sp]] eqn:E; try discriminate.
  unfold size_at in R. rewrite E in R. cbn [nth_error bind] in R.
  repeat (bind_inv R; try match goal with p : (_ * _)%type |- _ => destruct p end).
  inversion R; subst st'; clear R. cbn [fields ix iw ib].
  match goal with V : view _ [_; m; d; _] = Ok _ |- _ =>
    apply view_block_inv in V; destruct V as [PB [Pm Pd]] end.
  match goal with W : apply_weight _ _ _ _ = Ok _ |- _ => apply apply_weight_iw in W end.
  match goal with W : apply_bias _ _ _ _ _ = Ok _ |- _ => apply apply_bias_ib in W end.
  exists Bn, C, sp. repeat split; auto; try lia. eexists; reflexivity.
Qed.

Lemma loop_inv (self : SE3GroupNorm.t F) t l :
  forall st st',
  loop self t st l = Ok st' ->
  positive_blocks l /\
  (l <> [] -> exists Bn C sp, size t = Bn :: C :: sp /\ 0 < Bn) /\
  length (fields st') = length (fields st) + length l /\
  ix st' = (ix st + channels l)%Z /\
  iw st' = (if affine self then iw st + multiplicities l else iw st)%Z /\
  ib st' = (if affine self then ib st + scalar_multiplicities l else ib st)%Z.
Proof.
  induction l as [|[m d] l IH]; intros st st' R.
  - cbn [loop] in R. inversion R; subst st'.
    unfold channels, multiplicities, scalar_multiplicities.
    cbn [map filter zsum fold_left length]. rewrite !Z.add_0_r.
    repeat split; try constructor; try congruence; try lia; now destruct (affine self).
  - cbn [loop] in R. bind_inv R.
    apply block_inv in Run.
    destruct Run as [Bn [C [sp [E [PB [Pm [Pd [[out Fs] [Ix [Iw Ib]]]]]]]]]].
    destruct (IH _ _ R) as [P [_ [Len [Ix' [Iw' Ib']]]]].
    rewrite channels_cons, multiplicities_cons, scalar_multiplicities_cons.
    split; [constructor; [split|]; assumption|].
    split; [intros _; now exists Bn, C, sp|].
    split; [rewrite Len, Fs, length_app; simpl; lia|].
    rewrite Ix', Iw', Ib', Ix, Iw, Ib.
    repeat split; try lia; destruct (affine self), (d =? 1)%Z; cbn [andb]; lia.
Qed.

End ForwardFacts.

Section ForwardRun.
Context {F : Type} `{Scalar F}.
Import SE3GroupNorm.

Lemma same_but_dim1_sizes (f g : Tensor F) Bn n n' sp :
  size f = Bn :: n :: sp -> size g = Bn :: n' :: sp -> same_but_dim1 f g = true.
Proof.
  intros Ef Eg. unfold same_but_dim1. rewrite Ef, Eg, Nat.eqb_refl.
  destruct (list_eq_dec Nat.eq_dec sp sp); [reflexivity | congruence].
Qed.

(** The concatenation of fields that agree outside the channel axis. *)
Lemma cat1_fields (fs : list (Tensor F)) Bn sp :
  fs <> [] ->
  Forall (fun f => exists n, size f = Bn :: n :: sp) fs ->
  cat1 fs
  = Ok {| size := Bn :: list_sum (map (fun f => nth 1 (size f) 0) fs) :: sp;
          data := flat_map (fun b =>
                    flat_map (fun f => row (nth 1 (size f) 0 * prod sp) b (data f)) fs)
                    (seq 0 Bn) |}.
Proof.
  intros N Sz. destruct fs as [|f0 fs]; [congruence|]. unfold cat1.
  pose proof (Forall_inv Sz) as [n0 E0]. rewrite E0.
  replace (forallb (same_but_dim1 f0) (f0 :: fs)) with true; [reflexivity|].
  symmetry. apply forallb_forall. intros g Hg.
  rewrite Forall_forall in Sz. destruct (Sz g Hg) as [n Eg].
  eapply same_but_dim1_sizes; eassumption.
Qed.

(** When everything fits, the forward pass returns, and what it returns
    is the per-sample reading applied to each batch sample. *)
Lemma forward_run (self : SE3GroupNorm.t F) t Bn C sp :
  fits self t Bn C sp -> wf t ->
  forward self t
  = Ok {| size := Bn :: C :: sp;
          data := flat_map (fun b =>
                    PerSample.forward self (prod sp) (row (C * prod sp) b (data t)))
                    (seq 0 Bn) |}.
Proof.
  intros [E [PB [P [N [Ch Hp]]]]] W. unfold forward.
  destruct (loop_spec self t Bn C sp (Rs self) E W PB loop_start 0 0 0 P)
    as [fs [Run [Len [Sz [Sum Rows]]]]].
  - reflexivity.
  - rewrite Ch. simpl. lia.
  - intros A. destruct (Hp A) as [w [b0 [Ew [Eb [Lw Lb]]]]].
    repeat split. exists w, b0. rewrite Lw, Lb. repeat split; auto; simpl; lia.
  - rewrite Run. cbn [bind fields app ix iw ib loop_start].
    assert (Pass : checks self t
              {| fields := fs;
                 ix := 0 + channels (Rs self);
                 iw := if affine self then 0 + multiplicities (Rs self) else 0;
                 ib := if affine self then 0 + scalar_multiplicities (Rs self) else 0 |}
            = Ok tt).
    { unfold checks, size_at. rewrite E. cbn [nth_error bind ix iw ib].
      rewrite Ch, Z.add_0_l, Z.eqb_refl. cbn [assert bind].
      destruct (affine self) eqn:A; [|reflexivity].
      destruct (Hp eq_refl) as [w [b0 [Ew [Eb [Lw Lb]]]]].
      rewrite Ew, Eb, Lw, Lb, !Z.add_0_l. cbn [param_size bind].
      now rewrite !Z.eqb_refl. }
    rewrite Pass. cbn [bind fields].
    rewrite (cat1_fields fs Bn sp).
    + f_equal. f_equal.
      * f_equal. f_equal. apply Nat2Z.inj. congruence.
      * apply flat_map_ext_seq. intros b Hb. now rewrite (Rows b Hb).
    + intros ->. destruct (Rs self); [congruence | discriminate].
    + assumption.
Qed.

Lemma checks_inv (self : SE3GroupNorm.t F) t st :
  checks self t st = Ok tt ->
  exists C, nth_error (size t) 1 = Some C /\ ix st = Z.of_nat C /\
    (affine self = true ->
       exists w b0, weight self = Some w /\ bias self = Some b0 /\
         iw st = Z.of_nat (length w) /\ ib st = Z.of_nat (length b0)).
Proof.
  unfold checks, size_at. intros R.
  destruct (nth_error (size t) 1) as [C|]; [|discriminate]. cbn [bind] in R.
  destruct (Z.eqb_spec (ix st) (Z.of_nat C)) as [Ix|]; [|discriminate].
  cbn [assert bind] in R. exists C. repeat split; auto.
  intros A. rewrite A in R.
  destruct (weight self) as [w|]; [|discriminate]. cbn [param_size bind] in R.
  destruct (Z.eqb_spec (iw st) (Z.of_nat (length w))) as [Iw|]; [|discriminate].
  cbn [assert bind] in R.
  destruct (bias self) as [b0|]; [|discriminate]. cbn [param_size bind] in R.
  destruct (Z.eqb_spec (ib st) (Z.of_nat (length b0))) as [Ib|]; [|discriminate].
  exists w, b0. auto.
Qed.

(** A forward pass that returns was given a module and an input that fit. *)
Lemma forward_inv (self : SE3GroupNorm.t F) t y :
  forward self t = Ok y -> exists Bn C sp, fits self t Bn C sp.
Proof.
  unfold forward. intros R. bind_inv R. bind_inv R.
  match goal with u : unit |- _ => destruct u end. apply checks_inv in Run0. destruct Run0 as [C [EC [Ix Hp]]].
  destruct (loop_inv self t (Rs self) _ _ Run) as [P [NE [_ [Ix' [Iw Ib]]]]].
  cbn [ix iw ib loop_start] in Ix', Iw, Ib.
  destruct (Rs self) as [|md l] eqn:ERs.
  - cbn [loop] in Run. inversion Run; subst a. discriminate R.
  - destruct NE as [Bn [C' [sp [E PB]]]]; [discriminate|].
    rewrite E in EC. cbn [nth_error] in EC. inversion EC; subst C'.
    exists Bn, C, sp. unfold fits. rewrite ERs.
    repeat split; auto; try discriminate; try apply P; try lia.
    intros A. destruct (Hp A) as [w [b0 [Ew [Eb [Lw Lb]]]]].
    exists w, b0. rewrite A in Iw, Ib. repeat split; auto; lia.
Qed.

(** The forward pass refines the per-sample reading: whenever it returns,
    the result has the size of the input and holds, for each batch
    sample, what the per-sample reading makes of that sample. *)
Lemma forward_refines (self : SE3GroupNorm.t F) t y :
  wf t -> forward self t = Ok y ->
  exists Bn C sp,
    fits self t Bn C sp /\
    y = {| size := Bn :: C :: sp;
           data := flat_map (fun b =>
                     PerSample.forward self (prod sp) (row (C * prod sp) b (data t)))
                     (seq 0 Bn) |}.
Proof.
  intros W R. destruct (forward_inv self t y R) as [Bn [C [sp Fit]]].
  exists Bn, C, sp. split; [assumption|].
  rewrite (forward_run self t Bn C sp Fit W) in R. now inversion R.
Qed.

End ForwardRun.

Lemma fits_small_gn (aff : bool) (t : Tensor R) :
  size t = [2; 3; 1; 1; 1] -> fits (small_gn aff) t 2 3 [1; 1; 1].
Proof.
  intros E. unfold fits. cbn [small_gn SE3GroupNorm.Rs SE3GroupNorm.affine
                              SE3GroupNorm.weight SE3GroupNorm.bias].
  repeat split; auto; try discriminate.
  - repeat constructor.
  - intros ->. exists [1; 1]%R, [0]%R. repeat split.
Qed.


(** * Entry by entry *)

Section EntryFacts.
Context {F : Type} `{Scalar F}.
Import SE3GroupNorm.

Lemma per_channel_entry mn dn S op (c : nat -> F) (x : list F) i k :
  length x = mn * (dn * S) -> i < mn -> k < dn * S ->
  nth (i * (dn * S) + k) (PerSample.per_channel mn dn S op c x) fzero
  = op (nth (i * (dn * S) + k) x fzero) (c i).
Proof.
  intros L Hi Hk. unfold PerSample.per_channel.
  rewrite (nth_flat_map_seq _ mn (dn * S) i k fzero); auto.
  - rewrite (nth_map_in _ (fun v => op v (c i)) _ k fzero fzero)
      by (rewrite length_row; nia).
    now rewrite nth_row.
  - intros j Hj. rewrite length_map. apply length_row. nia.
Qed.

(** An entry of a block after steps 2 to 6. *)
Lemma per_sample_block_entry mn dn S eps0 (aff : bool) (w b0 : nat -> F) (x : list F) i k :
  length x = mn * (dn * S) -> i < mn -> k < dn * S ->
  let e := nth (i * (dn * S) + k) x fzero in
  let n := PerSample.norm_factor mn dn S eps0 (PerSample.centred dn x) in
  let scale := if aff then fmul n (w i) else n in
  nth (i * (dn * S) + k) (PerSample.block mn dn S eps0 aff w b0 x) fzero
  = if dn =? 1
    then if aff then fadd (fmul (fsub e (mean x)) scale) (b0 i)
         else fmul (fsub e (mean x)) scale
    else fmul e scale.
Proof.
  intros L Hi Hk e n scale. unfold PerSample.block. fold n.
  assert (Lc : length (PerSample.centred dn x) = mn * (dn * S))
    by now rewrite length_centred.
  assert (Ec : nth (i * (dn * S) + k) (PerSample.centred dn x) fzero
               = if dn =? 1 then fsub e (mean x) else e).
  { unfold PerSample.centred. destruct (dn =? 1); [|reflexivity].
    apply (nth_map_in F (fun v : F => fsub v (mean x)) x _ fzero fzero). nia. }
  destruct aff, (dn =? 1) eqn:D; cbn [andb];
    rewrite ?per_channel_entry; rewrite ?per_channel_entry, ?Ec;
    auto using length_per_channel.
Qed.

Lemma blocks_app (self : SE3GroupNorm.t F) S (x : list F) l1 l2 :
  positive_blocks l1 ->
  forall ixn iwn ibn,
  PerSample.blocks self S x ixn iwn ibn (l1 ++ l2)
  = PerSample.blocks self S x ixn iwn ibn l1
    ++ PerSample.blocks self S x
         (ixn + Z.to_nat (channels l1))
         (if affine self then iwn + Z.to_nat (multiplicities l1) else iwn)
         (if affine self then ibn + Z.to_nat (scalar_multiplicities l1) else ibn)
         l2.
Proof.
  induction 1 as [|[m d] l [Pm Pd] P IH]; intros ixn iwn ibn.
  - cbn [app PerSample.blocks]. unfold channels, multiplicities, scalar_multiplicities.
    cbn. rewrite !Nat.add_0_r. now destruct (affine self).
  - cbn [fst snd] in Pm, Pd.
    pose proof (channels_nonneg l P). pose proof (multiplicities_nonneg l P).
    pose proof (scalar_multiplicities_nonneg l P).
    cbn [app PerSample.blocks]. rewrite IH, <- app_assoc. f_equal. f_equal.
    rewrite channels_cons, multiplicities_cons, scalar_multiplicities_cons.
    assert (E1 : (d =? 1)%Z = (Z.to_nat d =? 1)).
    { destruct (Z.eqb_spec d 1), (Nat.eqb_spec (Z.to_nat d) 1); lia. }
    rewrite E1.
    f_equal; [nia | |]; destruct (affine self), (Z.to_nat d =? 1); cbn [andb]; lia.
Qed.

Lemma length_per_sample_blocks (self : SE3GroupNorm.t F) S (x : list F) l :
  positive_blocks l ->
  forall ixn iwn ibn,
  ixn * S + Z.to_nat (channels l) * S <= length x ->
  length (PerSample.blocks self S x ixn iwn ibn l) = Z.to_nat (channels l) * S.
Proof.
  induction 1 as [|[m d] l [Pm Pd] P IH]; intros ixn iwn ibn L; [reflexivity|].
  cbn [fst snd] in Pm, Pd. pose proof (channels_nonneg l P) as Cl.
  rewrite channels_cons in *. cbn [PerSample.blocks].
  assert (Ew : Z.to_nat (m * d + channels l)
               = Z.to_nat m * Z.to_nat d + Z.to_nat (channels l)) by nia.
  rewrite Ew in *.
  rewrite length_app, length_per_sample_block, IH; try nia.
  rewrite length_firstn, length_skipn. nia.
Qed.

End EntryFacts.

Section ForwardEntries.
Context {F : Type} `{Scalar F}.
Import SE3GroupNorm.

Lemma positive_blocks_app l1 md l2 :
  positive_blocks (l1 ++ md :: l2) ->
  positive_blocks l1 /\ (0 < fst md /\ 0 < snd md)%Z /\ positive_blocks l2.
Proof.
  unfold positive_blocks. intros P. apply Forall_app in P. destruct P as [P1 P2].
  inversion P2; subst. auto.
Qed.

Lemma channels_app l1 l2 : channels (l1 ++ l2) = (channels l1 + channels l2)%Z.
Proof. unfold channels. now rewrite map_app, zsum_app. Qed.

(** An entry of the result of a forward pass, in the block [(m, d)] that
    follows the blocks [pre]: it is the entry of the per-sample reading
    of that block, and the entry of the input at the same place is the
    entry of the block's sample. *)
Lemma forward_entry (self : SE3GroupNorm.t F) t y pre m d post :
  wf t -> forward self t = Ok y ->
  Rs self = pre ++ (m, d) :: post ->
  exists Bn C sp,
    fits self t Bn C sp /\ size y = size t /\
    let mn := Z.to_nat m in
    let dn := Z.to_nat d in
    let S := prod sp in
    let c0 := Z.to_nat (channels pre) in
    let w := PerSample.sub_vector (weight self)
               (if affine self then 0 + Z.to_nat (multiplicities pre) else 0) in
    let b0 := PerSample.sub_vector (bias self)
               (if affine self then 0 + Z.to_nat (scalar_multiplicities pre) else 0) in
    (0 < mn /\ 0 < dn) /\
    forall b, b < Bn ->
      let x := firstn (mn * dn * S) (skipn (c0 * S) (sample t b)) in
      length x = mn * (dn * S) /\
      forall i j s, i < mn -> j < dn -> s < S ->
        channel_entry y b (c0 + i * dn + j) s
        = nth (i * (dn * S) + (j * S + s))
              (PerSample.block mn dn S (eps self) (affine self) w b0 x) fzero
        /\ channel_entry t b (c0 + i * dn + j) s = nth (i * (dn * S) + (j * S + s)) x fzero.
Proof.
  intros W R ERs.
  destruct (forward_refines self t y W R) as [Bn [C [sp [Fit Ey]]]].
  exists Bn, C, sp. split; [assumption|].
  destruct Fit as [E [PB [P [_ [Ch _]]]]].
  split; [subst y; now rewrite E|].
  rewrite ERs in P, Ch. apply positive_blocks_app in P.
  destruct P as [Ppre [[Pm Pd] Ppost]]. cbn [fst snd] in Pm, Pd.
  pose proof (channels_nonneg pre Ppre) as Cpre.
  pose proof (channels_nonneg post Ppost) as Cpost.
  rewrite channels_app, channels_cons in Ch.
  intros mn dn S c0 w b0. split; [unfold mn, dn; lia|].
  assert (Ew : c0 + mn * dn <= C) by (unfold c0, mn, dn; nia).
  assert (Pmn : 0 < mn) by (unfold mn; lia).
  assert (Pdn : 0 < dn) by (unfold dn; lia).
  intros b Hb x.
  assert (Wt := W). unfold wf, numel in Wt. rewrite E in Wt.
  cbn [prod fold_right] in Wt. fold (prod sp) in Wt. fold S in Wt.
  assert (Lrow : length (row (C * S) b (data t)) = C * S) by (apply length_row; nia).
  assert (Es : sample t b = row (C * S) b (data t)).
  { unfold sample. rewrite E. cbn [tl prod fold_right]. reflexivity. }
  assert (Lx : length x = mn * (dn * S)).
  { unfold x. rewrite Es, length_firstn, length_skipn, Lrow. nia. }
  split; [assumption|]. intros i j s Hi Hj Hs.
  assert (Hk : j * S + s < dn * S) by nia.
  split.
  - subst y. unfold channel_entry. cbn [size data nth skipn]. fold S.
    replace ((b * C + (c0 + i * dn + j)) * S + s)
      with (b * (C * S) + (c0 * S + (i * (dn * S) + (j * S + s)))) by lia.
    rewrite (nth_flat_map_seq _ Bn (C * S)); auto.
    + unfold PerSample.forward. rewrite ERs.
      rewrite (blocks_app self S _ pre ((m, d) :: post) Ppre 0 0 0).
      assert (Lpre : length (PerSample.blocks self S (row (C * S) b (data t)) 0 0 0 pre)
                     = c0 * S)
        by (apply length_per_sample_blocks; [assumption | rewrite Lrow; fold c0; nia]).
      rewrite <- Lpre at 1. rewrite app_nth2_plus. cbn [PerSample.blocks]. fold mn dn c0.
      rewrite app_nth1.
      * unfold x. rewrite Es. reflexivity.
      * rewrite length_per_sample_block; [nia|].
        rewrite length_firstn, length_skipn, Lrow. nia.
    + intros k Hklt. unfold PerSample.forward.
      rewrite length_per_sample_blocks.
      * rewrite ERs, channels_app, channels_cons, Ch, Nat2Z.id. reflexivity.
      * rewrite ERs. unfold positive_blocks. apply Forall_app. split; [assumption|].
        constructor; [now split | assumption].
      * rewrite ERs, channels_app, channels_cons, Ch, Nat2Z.id, length_row; nia.
    + nia.
  - unfold channel_entry, x. rewrite Es, E. cbn [nth skipn]. fold S.
    rewrite nth_firstn.
    destruct (Nat.ltb_spec (i * (dn * S) + (j * S + s)) (mn * dn * S)); [|nia].
    rewrite nth_skipn, nth_row by nia. f_equal. lia.
Qed.

End ForwardEntries.

(** * Construction *)

Section InitFacts.
Context {F : Type} `{Scalar F}.
Import SE3GroupNorm.

Lemma init_inv Rs0 (eps0 : F) aff self :
  init Rs0 eps0 aff = Ok self ->
  Rs self = kept Rs0 /\ eps self = eps0 /\ affine self = aff /\
  (aff = true ->
     (0 <= multiplicities Rs0)%Z /\ (0 <= scalar_multiplicities Rs0)%Z /\
     weight self = Some (repeat fone (Z.to_nat (multiplicities Rs0))) /\
     bias self = Some (repeat fzero (Z.to_nat (scalar_multiplicities Rs0)))) /\
  (aff = false -> weight self = None /\ bias self = None).
Proof.
  unfold init, ones, zeros, full. destruct aff.
  - destruct (Z.ltb_spec (multiplicities Rs0) 0); [discriminate|].
    destruct (Z.ltb_spec (scalar_multiplicities Rs0) 0); [discriminate|].
    cbn [bind]. intros R. inversion R; subst self; cbn.
    repeat split; auto; discriminate.
  - intros R. inversion R; subst self; cbn. repeat split; auto; discriminate.
Qed.

Lemma init_affine Rs0 (eps0 : F) :
  (0 <= multiplicities Rs0)%Z -> (0 <= scalar_multiplicities Rs0)%Z ->
  init Rs0 eps0 true
  = Ok {| Rs := kept Rs0; eps := eps0; affine := true;
          weight := Some (repeat fone (Z.to_nat (multiplicities Rs0)));
          bias := Some (repeat fzero (Z.to_nat (scalar_multiplicities Rs0))) |}.
Proof.
  intros Pm Ps. unfold init, ones, zeros, full.
  destruct (Z.ltb_spec (multiplicities Rs0) 0); [lia|].
  destruct (Z.ltb_spec (scalar_multiplicities Rs0) 0); [lia|]. reflexivity.
Qed.

Lemma in_kept Rs0 m d : In (m, d) (kept Rs0) <-> In (m, d) Rs0 /\ (0 < m * d)%Z.
Proof.
  unfold kept. rewrite filter_In. cbn [fst snd].
  destruct (Z.ltb_spec 0 (m * d)); intuition (try lia; try discriminate).
Qed.

(** Blocks without a negative entry: those kept are positive. *)
Lemma kept_positive Rs0 :
  Forall (fun md => 0 <= fst md /\ 0 <= snd md)%Z Rs0 -> positive_blocks (kept Rs0).
Proof.
  intros N. unfold positive_blocks. apply Forall_forall. intros [m d] Hin.
  apply in_kept in Hin. destruct Hin as [Hin P].
  rewrite Forall_forall in N. specialize (N _ Hin). cbn [fst snd] in *. nia.
Qed.

Lemma kept_scalar_multiplicities Rs0 :
  Forall (fun md => 0 <= fst md /\ 0 <= snd md)%Z Rs0 ->
  scalar_multiplicities (kept Rs0) = scalar_multiplicities Rs0.
Proof.
  induction 1 as [|[m d] l [Pm Pd] _ IH]; [reflexivity|].
  unfold kept in *. cbn [filter fst snd] in *.
  rewrite scalar_multiplicities_cons.
  destruct (Z.ltb_spec 0 (m * d)).
  - now rewrite scalar_multiplicities_cons, IH.
  - rewrite IH. destruct (Z.eqb_spec d 1); lia.
Qed.

Lemma kept_multiplicities Rs0 :
  Forall (fun md => 0 <= fst md /\ 0 <= snd md)%Z Rs0 ->
  Forall (fun md => snd md = 0 -> fst md = 0)%Z Rs0 ->
  multiplicities (kept Rs0) = multiplicities Rs0.
Proof.
  induction 1 as [|[m d] l [Pm Pd] _ IH]; intros Z0; [reflexivity|].
  inversion Z0 as [|x l' Zmd Zl]; subst x l'.
  unfold kept in *. cbn [filter fst snd] in *.
  rewrite multiplicities_cons.
  destruct (Z.ltb_spec 0 (m * d)).
  - now rewrite multiplicities_cons, IH.
  - rewrite IH by assumption. nia.
Qed.

Lemma multiplicities_nonneg_entries Rs0 :
  Forall (fun md => 0 <= fst md /\ 0 <= snd md)%Z Rs0 ->
  (0 <= multiplicities Rs0)%Z /\ (0 <= scalar_multiplicities Rs0)%Z.
Proof.
  induction 1 as [|[m d] l [Pm Pd] _ [IHm IHs]]; [split; reflexivity|].
  rewrite multiplicities_cons, scalar_multiplicities_cons. cbn [fst snd] in *.
  destruct (d =? 1)%Z; lia.
Qed.

End InitFacts.

(** * Construction and the wrapper *)

Section Construction.
Context {F : Type} `{Scalar F}.
Import SE3GroupNorm.

(** C1.  The weight vector of an affine module is allocated from the list
    given to the constructor, not from the blocks kept: a dropped block
    still counts.  For [Rs = [(2, 1), (3, 0)]] the module keeps the one
    block [(2, 1)], whose multiplicities sum to 2, yet holds 5 weights;
    the closing assertion of [forward] on the weights then fails on an
    input with the two channels the kept block spans, and no input at
    all makes [forward] return. *)
Theorem C1_dropped_block_counts_in_weight (eps0 x1 x2 : F) :
  exists self w,
    init [(2, 1); (3, 0)]%Z eps0 true = Ok self /\
    Rs self = [(2, 1)]%Z /\
    multiplicities (Rs self) = 2%Z /\
    weight self = Some w /\ length w = 5 /\
    forward self {| size := [1; 2; 1; 1; 1]; data := [x1; x2] |} = Raise AssertionError /\
    forall t y, forward self t <> Ok y.
Proof.
  eexists. eexists. split; [reflexivity|]. cbn [Rs weight].
  repeat split.
  intros t y R. apply forward_inv in R.
  destruct R as [Bn [C [sp [_ [_ [_ [_ [_ Hp]]]]]]]].
  destruct (Hp eq_refl) as [w [b0 [Ew [_ [Lw _]]]]].
  cbn in Ew. inversion Ew; subst w. discriminate Lw.
Qed.

(** C6.  A module constructed with [affine = false] has neither weight
    nor bias, and its forward pass is the same whatever is put in their
    place. *)
Theorem C6_not_affine_ignores_parameters (Rs0 : list (Z * Z)) (eps0 : F) :
  exists self,
    init Rs0 eps0 false = Ok self /\
    weight self = None /\ bias self = None /\
    forall w b0 t,
      forward {| Rs := Rs self; eps := eps self; affine := false;
                 weight := w; bias := b0 |} t
      = forward self t.
Proof.
  eexists. split; [reflexivity|]. cbn [Rs eps weight bias].
  split; [reflexivity|]. split; [reflexivity|].
  intros w b0 t. unfold forward. cbn [Rs].
  set (A := {| Rs := kept Rs0; eps := eps0; affine := false; weight := w; bias := b0 |}).
  set (N := {| Rs := kept Rs0; eps := eps0; affine := false; weight := None; bias := None |}).
  assert (L : forall l st, loop A t st l = loop N t st l).
  { induction l as [|[m d] l IH]; intros st; [reflexivity|].
    cbn [loop]. replace (block A t st (m, d)) with (block N t st (m, d)) by reflexivity.
    destruct (block N t st (m, d)); [apply IH | reflexivity]. }
  rewrite L. reflexivity.
Qed.

(** C7.  The constructor stores exactly the pairs of the given list whose
    product is positive, in their order, and that stored list is what
    every forward pass runs over: one field per stored pair. *)
Theorem C7_init_keeps_positive_products (Rs0 : list (Z * Z)) (eps0 : F) (aff : bool) self :
  init Rs0 eps0 aff = Ok self ->
  Rs self = filter (fun md => 0 <? fst md * snd md)%Z Rs0 /\
  (forall m d, In (m, d) (Rs self) <-> In (m, d) Rs0 /\ (0 < m * d)%Z) /\
  (forall t,
     forward self t
     = (st <- loop self t loop_start (filter (fun md => 0 <? fst md * snd md)%Z Rs0) ;;
        _ <- checks self t st ;;
        cat1 (fields st))) /\
  (forall t st,
     loop self t loop_start (Rs self) = Ok st ->
     length (fields st) = length (filter (fun md => 0 <? fst md * snd md)%Z Rs0)).
Proof.
  intros I. destruct (init_inv _ _ _ _ I) as [E _]. fold (kept Rs0).
  split; [assumption|]. split; [|split].
  - intros m d. rewrite E. apply in_kept.
  - intros t. unfold forward. now rewrite E.
  - intros t st R. apply loop_inv in R. destruct R as [_ [_ [Len _]]].
    rewrite Len, E. reflexivity.
Qed.

End Construction.

Section Wrapper.
Context {F : Type} `{Scalar F}.
Variables (Conv Kwargs : Type).
Variable SE3Convolution : list (Z * Z) -> list (Z * Z) -> Z -> Kwargs -> result Conv.
Variable conv_call : Conv -> Tensor F -> result (Tensor F).

(** C9.  The wrapper's forward pass is the convolution applied to the
    group-normalised input, and without an explicit list the group
    normalisation is built, affine, on [(m, 2 * l + 1)] for each
    [(m, l)] of the input list.  So whenever the wrapper returns, the
    convolution was called on a tensor of the size of the input. *)
Theorem C9_wrapper_normalises_then_convolves
        (Rs_in Rs_out : list (Z * Z)) (size0 : Z) (eps0 : F) (kwargs : Kwargs) :
  (forall self input,
     SE3GNConvolution.forward conv_call self input
     = match SE3GroupNorm.forward (SE3GNConvolution.gn self) input with
       | Ok y => conv_call (SE3GNConvolution.conv self) y
       | Raise e => Raise e
       end) /\
  SE3GNConvolution.init SE3Convolution Rs_in Rs_out size0 eps0 None kwargs
  = match SE3GroupNorm.init (map (fun ml => (fst ml, 2 * snd ml + 1)%Z) Rs_in) eps0 true with
    | Ok g =>
        match SE3Convolution Rs_in Rs_out size0 kwargs with
        | Ok c => Ok {| SE3GNConvolution.gn := g; SE3GNConvolution.conv := c |}
        | Raise e => Raise e
        end
    | Raise e => Raise e
    end /\
  (forall self input out,
     wf input ->
     SE3GNConvolution.forward conv_call self input = Ok out ->
     exists y,
       SE3GroupNorm.forward (SE3GNConvolution.gn self) input = Ok y /\
       size y = size input /\
       conv_call (SE3GNConvolution.conv self) y = Ok out).
Proof.
  split; [reflexivity|]. split; [reflexivity|].
  intros self input out W R. unfold SE3GNConvolution.forward in R. bind_inv R.
  exists a. split; [reflexivity|]. split; [|assumption].
  destruct (forward_refines _ _ _ W Run) as [Bn [C [sp [[E _] Ey]]]].
  subst a. now rewrite E.
Qed.

End Wrapper.

Lemma C7_witness :
  exists self,
    SE3GroupNorm.init (F := R) [(2, 1); (0, 3); (3, 0); (1, 5)]%Z (1 / 100000)%R true = Ok self /\
    SE3GroupNorm.Rs self = [(2, 1); (1, 5)]%Z.
Proof.
  eexists. split; [reflexivity|].
  exact (proj1 (C7_init_keeps_positive_products
                  [(2, 1); (0, 3); (3, 0); (1, 5)]%Z (1 / 100000)%R true _ eq_refl)).
Defined.

Lemma C9_witness :
  exists y,
    SE3GroupNorm.forward (small_gn true) two_samples = Ok y /\
    size y = [2; 3; 1; 1; 1] /\
    SE3GNConvolution.forward (fun (_ : unit) y => Ok y)
      {| SE3GNConvolution.gn := small_gn true; SE3GNConvolution.conv := tt |} two_samples
    = Ok y.
Proof.
  pose proof (forward_run (small_gn true) two_samples 2 3 [1; 1; 1]
                (fits_small_gn true two_samples eq_refl) eq_refl) as R.
  match type of R with
  | _ = Ok ?y0 =>
      assert (W : SE3GNConvolution.forward (fun (_ : unit) y => Ok y)
                    {| SE3GNConvolution.gn := small_gn true; SE3GNConvolution.conv := tt |}
                    two_samples = Ok y0)
        by (unfold SE3GNConvolution.forward;
            cbn [SE3GNConvolution.gn SE3GNConvolution.conv]; rewrite R; reflexivity)
  end.
  destruct (proj2 (proj2 (C9_wrapper_normalises_then_convolves
                            unit unit (fun _ _ _ _ => Ok tt) (fun _ y => Ok y)
                            [] [] 3%Z (1 / 100000)%R tt))
              _ two_samples _ eq_refl W)
    as [y [Ry [Sy Cy]]].
  exists y. split; [exact Ry|]. split; [exact Sy|].
  cbn in Cy. rewrite Cy. exact W.
Defined.

Section Shape.
Context {F : Type} `{Scalar F}.
Import SE3GroupNorm.

Lemma fits_init (Rs0 : list (Z * Z)) (eps0 : F) (aff : bool) t Bn C sp :
  Forall (fun md => 0 <= fst md /\ 0 <= snd md)%Z Rs0 ->
  (aff = true -> Forall (fun md => snd md = 0 -> fst md = 0)%Z Rs0) ->
  kept Rs0 <> [] ->
  size t = Bn :: C :: sp -> 0 < Bn -> Z.of_nat C = channels (kept Rs0) ->
  exists self, init Rs0 eps0 aff = Ok self /\ fits self t Bn C sp.
Proof.
  intros N Z0 K E PB Ch.
  destruct (multiplicities_nonneg_entries Rs0 N) as [Pm Ps].
  destruct aff.
  - rewrite init_affine by assumption. eexists. split; [reflexivity|].
    unfold fits. cbn [Rs affine weight bias].
    repeat split; auto using kept_positive.
    intros _. do 2 eexists. split; [reflexivity|]. split; [reflexivity|].
    rewrite !repeat_length, !Z2Nat.id by assumption.
    split; [apply kept_multiplicities; auto | now apply kept_scalar_multiplicities].
  - eexists. split; [reflexivity|].
    unfold fits. cbn [Rs affine weight bias].
    repeat split; auto using kept_positive. discriminate.
Qed.

(** C2 (amended).  When no entry of [Rs] is negative, at least one block
    is kept, the batch is not empty, the channels of the input are those
    the kept blocks span and, for an affine module, every entry of
    dimension 0 has multiplicity 0, the module is constructed and its
    forward pass returns a tensor of the shape of the input. *)
Theorem C2_forward_keeps_the_shape
        (Rs0 : list (Z * Z)) (eps0 : F) (aff : bool) (t : Tensor F) (B C X Y Z : nat) :
  Forall (fun md => 0 <= fst md /\ 0 <= snd md)%Z Rs0 ->
  (aff = true -> Forall (fun md => snd md = 0 -> fst md = 0)%Z Rs0) ->
  kept Rs0 <> [] ->
  wf t -> size t = [B; C; X; Y; Z] -> 0 < B ->
  Z.of_nat C = channels (kept Rs0) ->
  exists self y,
    init Rs0 eps0 aff = Ok self /\ forward self t = Ok y /\ size y = [B; C; X; Y; Z].
Proof.
  intros N Z0 K W E PB Ch.
  destruct (fits_init Rs0 eps0 aff t B C [X; Y; Z] N Z0 K E PB Ch) as [self [I Fit]].
  exists self. eexists. split; [assumption|].
  split; [apply (forward_run self t B C [X; Y; Z] Fit W) | reflexivity].
Qed.

(** C10.  The forward pass treats batch samples independently: on two
    inputs of one size that agree on sample [b], it returns on both or
    on neither, and the two results agree on sample [b]. *)
Theorem C10_batch_samples_independent
        (self : SE3GroupNorm.t F) (t t' y : Tensor F) (b : nat) :
  wf t -> wf t' -> size t' = size t ->
  sample t' b = sample t b ->
  forward self t = Ok y ->
  exists y', forward self t' = Ok y' /\ sample y' b = sample y b.
Proof.
  intros W W' Es Eb R.
  destruct (forward_refines self t y W R) as [Bn [C [sp [Fit Ey]]]].
  assert (Fit' : fits self t' Bn C sp).
  { unfold fits in *. rewrite Es. exact Fit. }
  eexists. split; [apply (forward_run self t' Bn C sp Fit' W')|].
  destruct Fit as [E [PB [P [_ [Ch _]]]]].
  subst y. unfold sample in *. cbn [size data tl] in *.
  rewrite Es, E in Eb. cbn [tl prod fold_right] in *. fold (prod sp) in *.
  assert (Lx : forall (u : Tensor F), size u = Bn :: C :: sp -> wf u ->
               forall i, i < Bn ->
               length (PerSample.forward self (prod sp) (row (C * prod sp) i (data u)))
               = C * prod sp).
  { intros u Eu Wu i Hi. unfold PerSample.forward.
    unfold wf, numel in Wu. rewrite Eu in Wu. cbn [prod fold_right] in Wu.
    fold (prod sp) in Wu.
    rewrite length_per_sample_blocks; rewrite ?Ch, ?Nat2Z.id; auto.
    rewrite length_row; nia. }
  pose proof (Lx t E W) as Lt. pose proof (Lx t' (eq_trans Es E) W') as Lt'.
  destruct (Nat.lt_ge_cases b Bn) as [Hb|Hb].
  - rewrite (row_flat_map _ Bn (C * prod sp) b Lt' Hb).
    rewrite (row_flat_map _ Bn (C * prod sp) b Lt Hb).
    now rewrite Eb.
  - rewrite !row_beyond; [reflexivity| |].
    + rewrite (length_flat_map_seq _ Bn (C * prod sp) Lt). nia.
    + rewrite (length_flat_map_seq _ Bn (C * prod sp) Lt'). nia.
Qed.

End Shape.

Lemma wf_input_of (s : list nat) : wf (input_of s).
Proof. unfold wf, input_of, ramp, numel. cbn [data size]. now rewrite length_map, length_seq. Qed.

Lemma C2_witness :
  exists self y,
    SE3GroupNorm.init (F := R) [(3, 1); (4, 3); (1, 5)]%Z (1 / 100000)%R true = Ok self /\
    SE3GroupNorm.forward self (input_of [16; 20; 10; 10; 10]) = Ok y /\
    size y = [16; 20; 10; 10; 10].
Proof.
  apply (C2_forward_keeps_the_shape [(3, 1); (4, 3); (1, 5)]%Z (1 / 100000)%R true
           (input_of [16; 20; 10; 10; 10]) 16 20 10 10 10).
  - repeat constructor; simpl; lia.
  - intros _. repeat constructor; simpl; lia.
  - discriminate.
  - apply wf_input_of.
  - reflexivity.
  - lia.
  - reflexivity.
Defined.

(** C2 as stated fails on an empty batch: with the list of the test and
    the twenty channels it spans, [view(0, 3, 1, -1)] of the first block
    raises, because the size to infer is ambiguous on zero elements. *)
Lemma C2_empty_batch_raises :
  exists self,
    SE3GroupNorm.init (F := R) [(3, 1); (4, 3); (1, 5)]%Z (1 / 100000)%R true = Ok self /\
    wf (input_of [0; 20; 10; 10; 10]) /\
    SE3GroupNorm.channels (SE3GroupNorm.Rs self) = 20%Z /\
    SE3GroupNorm.forward self (input_of [0; 20; 10; 10; 10]) = Raise RuntimeError.
Proof.
  eexists. split; [reflexivity|]. split; [apply wf_input_of|]. split; reflexivity.
Qed.

(** Nor does the forward pass return when no block is kept: there is
    nothing for [torch.cat] to concatenate. *)
Example forward_without_blocks_raises :
  exists self,
    SE3GroupNorm.init (F := R) [(0, 3)]%Z (1 / 100000)%R true = Ok self /\
    SE3GroupNorm.forward self (input_of [1; 0; 2; 2; 2]) = Raise RuntimeError.
Proof. eexists. split; reflexivity. Qed.

Lemma C10_witness :
  exists y y',
    SE3GroupNorm.forward (small_gn true) two_samples = Ok y /\
    SE3GroupNorm.forward (small_gn true) two_samples' = Ok y' /\
    sample y' 0 = sample y 0.
Proof.
  pose proof (forward_run (small_gn true) two_samples 2 3 [1; 1; 1]
                (fits_small_gn true two_samples eq_refl) eq_refl) as R.
  destruct (C10_batch_samples_independent (small_gn true) two_samples two_samples' _ 0
              eq_refl eq_refl eq_refl eq_refl R) as [y' [R' E]].
  eexists. exists y'. split; [exact R|]. split; [exact R' | exact E].
Defined.

(** * Which exception *)

Section Exceptions.
Context {F : Type} `{Scalar F}.
Import SE3GroupNorm.

Lemma bind_not_assert (A B : Type) (c : result A) (k : A -> result B) :
  c <> Raise AssertionError ->
  (forall a, k a <> Raise AssertionError) ->
  bind c k <> Raise AssertionError.
Proof.
  intros Nc Nk. destruct c as [a|e]; cbn [bind]; [apply Nk|].
  intros E. apply Nc. inversion E. reflexivity.
Qed.

Lemma view_not_assert (t : Tensor F) shape : view t shape <> Raise AssertionError.
Proof.
  unfold view, infer_size.
  repeat match goal with |- context [if ?c then _ else _] => destruct c end;
    cbn [bind]; discriminate.
Qed.

Lemma binop_not_assert op (t u : Tensor F) : binop op t u <> Raise AssertionError.
Proof. unfold binop. destruct (broadcast_size _ _); discriminate. Qed.

Lemma slice1_not_assert (t : Tensor F) a b : slice1 t a b <> Raise AssertionError.
Proof. unfold slice1. destruct (size t) as [|? [|? ?]]; discriminate. Qed.

Lemma size_at_not_assert (t : Tensor F) i : size_at t i <> Raise AssertionError.
Proof. unfold size_at. destruct (nth_error _ _); discriminate. Qed.

Lemma sum_dim_not_assert (t : Tensor F) k : sum_dim t k <> Raise AssertionError.
Proof. unfold sum_dim. destruct (nth_error _ _); discriminate. Qed.

Lemma param_not_assert (p : option (list F)) : param p <> Raise AssertionError.
Proof. destruct p; discriminate. Qed.

Lemma cat1_not_assert (ts : list (Tensor F)) : cat1 ts <> Raise AssertionError.
Proof.
  unfold cat1. destruct ts as [|t0 ts]; [discriminate|].
  destruct (size t0) as [|? [|? ?]]; try discriminate.
  destruct (forallb _ _); discriminate.
Qed.

Create HintDb no_assert.
#[local] Hint Resolve view_not_assert binop_not_assert slice1_not_assert size_at_not_assert
     sum_dim_not_assert param_not_assert cat1_not_assert : no_assert.

Ltac no_assert :=
  repeat first
    [ solve [auto with no_assert]
    | discriminate
    | apply bind_not_assert; [|intros]
    | match goal with |- (match ?p with (_, _) => _ end) <> _ => destruct p end
    | match goal with |- (if ?c then _ else _) <> _ => destruct c end ].

(** No tensor operation of the loop raises an assertion error. *)
Lemma block_not_assert (self : SE3GroupNorm.t F) t st md :
  block self t st md <> Raise AssertionError.
Proof.
  destruct md as [m d].
  unfold block, center, field_norm, norm_stat, apply_weight, apply_bias, mul, add, sub.
  no_assert.
Qed.

Lemma loop_not_assert (self : SE3GroupNorm.t F) t l :
  forall st, loop self t st l <> Raise AssertionError.
Proof.
  induction l as [|md l IH]; intros st; cbn [loop]; [discriminate|].
  apply bind_not_assert; [apply block_not_assert | apply IH].
Qed.

(** The closing assertions, on the totals of a loop that went through. *)
Lemma checks_totals (self : SE3GroupNorm.t F) t C st :
  consistent self -> nth_error (size t) 1 = Some C ->
  loop self t loop_start (Rs self) = Ok st ->
  (totals_differ self C -> checks self t st = Raise AssertionError) /\
  (~ totals_differ self C -> checks self t st = Ok tt).
Proof.
  intros Co E R.
  destruct (loop_inv self t (Rs self) _ _ R) as [_ [_ [_ [Ix [Iw Ib]]]]].
  cbn [ix iw ib loop_start] in Ix, Iw, Ib.
  unfold checks, size_at, totals_differ. rewrite E, Ix, Iw, Ib. cbn [bind].
  rewrite Z.add_0_l.
  destruct (Z.eqb_spec (channels (Rs self)) (Z.of_nat C)) as [EC|NC]; cbn [assert bind].
  2:{ split; [reflexivity | intros N; exfalso; apply N; now left]. }
  destruct (affine self) eqn:A.
  2:{ split; [intros [N|[N _]]; [contradiction | discriminate] | reflexivity]. }
  destruct (Co A) as [[w Ew] [b0 Eb]]. rewrite Ew, Eb.
  cbn [param_size param_len bind]. rewrite !Z.add_0_l.
  destruct (Z.eqb_spec (multiplicities (Rs self)) (Z.of_nat (length w))) as [EW|NW];
    cbn [assert bind].
  2:{ split; [reflexivity | intros N; exfalso; apply N; right; split; auto]. }
  destruct (Z.eqb_spec (scalar_multiplicities (Rs self)) (Z.of_nat (length b0)))
    as [EB|NB]; cbn [assert bind].
  2:{ split; [reflexivity | intros N; exfalso; apply N; right; split; auto]. }
  split; [|reflexivity].
  intros [N|[_ [N|N]]]; contradiction.
Qed.

Lemma totals_differ_dec (self : SE3GroupNorm.t F) C :
  totals_differ self C \/ ~ totals_differ self C.
Proof.
  unfold totals_differ.
  destruct (Z.eq_dec (channels (Rs self)) (Z.of_nat C));
    destruct (affine self);
    destruct (Z.eq_dec (multiplicities (Rs self)) (param_len (weight self)));
    destruct (Z.eq_dec (scalar_multiplicities (Rs self)) (param_len (bias self)));
    intuition congruence.
Qed.

(** C5 (amended).  On a module that has its parameters when it is affine,
    the forward pass fails with an assertion error exactly when the loop
    over the blocks goes through without raising and then one of the
    three totals differs; and whenever a total differs the forward pass
    returns no tensor (the error is the assertion error, or the one a
    tensor operation raised inside the loop). *)
Theorem C5_assertions_after_the_loop (self : SE3GroupNorm.t F) (t : Tensor F) (C : nat) :
  consistent self -> nth_error (size t) 1 = Some C ->
  (forward self t = Raise AssertionError <->
     (exists st, loop self t loop_start (Rs self) = Ok st) /\ totals_differ self C) /\
  (totals_differ self C -> forall y, forward self t <> Ok y).
Proof.
  intros Co E. split; [split|].
  - unfold forward. intros R.
    destruct (loop self t loop_start (Rs self)) as [st|e] eqn:L; cbn [bind] in R.
    + split; [now exists st|].
      destruct (checks_totals self t C st Co E L) as [_ No].
      destruct (totals_differ_dec self C) as [D|D]; [assumption|].
      rewrite (No D) in R. cbn [bind] in R. now apply cat1_not_assert in R.
    + exfalso. apply (loop_not_assert self t (Rs self) loop_start). congruence.
  - intros [[st L] D]. unfold forward. rewrite L. cbn [bind].
    destruct (checks_totals self t C st Co E L) as [Yes _]. now rewrite (Yes D).
  - intros D y R. apply forward_inv in R.
    destruct R as [Bn [C' [sp [Es [_ [_ [_ [Ch Hp]]]]]]]].
    rewrite Es in E. cbn [nth_error] in E. inversion E; subst C'.
    destruct D as [N|[A [N|N]]]; [contradiction| |];
      destruct (Hp A) as [w [b0 [Ew [Eb [Lw Lb]]]]];
      rewrite ?Ew, ?Eb in N; cbn [param_len] in N; contradiction.
Qed.

End Exceptions.

(** C5 as stated fails when the blocks span more channels than the input
    has: [Rs = [(2, 1)]] on one channel.  The slice holds one element,
    [view(1, 2, 1, -1)] raises inside the loop, and the assertions are
    never reached. *)
Lemma C5_wide_block_raises_in_the_loop :
  exists self,
    SE3GroupNorm.init (F := R) [(2, 1)]%Z (1 / 100000)%R false = Ok self /\
    consistent self /\
    totals_differ self 1 /\
    SE3GroupNorm.forward self {| size := [1; 1; 1; 1; 1]; data := [1%R] |}
    = Raise RuntimeError.
Proof.
  eexists. split; [reflexivity|]. split; [discriminate|].
  split; [left; discriminate | reflexivity].
Qed.

Lemma C5_witness :
  SE3GroupNorm.forward (small_gn true) {| size := [1; 4; 1; 1; 1]; data := [1; 2; 3; 4]%R |}
  = Raise AssertionError.
Proof.
  apply (C5_assertions_after_the_loop (small_gn true)
           {| size := [1; 4; 1; 1; 1]; data := [1; 2; 3; 4]%R |} 4).
  - intros _. split; eexists; reflexivity.
  - reflexivity.
  - split; [eexists; lazy; reflexivity | left; discriminate].
Defined.

(** * What a block becomes *)

Section Scaling.
Context {F : Type} `{Scalar F}.
Import SE3GroupNorm.

(** C3.  In the result of a forward pass, an entry of a block of
    dimension 1 is the input entry minus the mean of the block over the
    channels and positions of its batch sample, times the scale of the
    sample, which is taken from the centred block (times the weight of
    the channel and plus its bias on an affine module); an entry of a
    block of any other dimension is the input entry times the scale of
    the sample, taken from the block as it is (times the weight of the
    channel on an affine module), nothing subtracted and nothing
    added. *)
Theorem C3_only_scalar_blocks_are_centred
        (self : SE3GroupNorm.t F) (t y : Tensor F) (pre post : list (Z * Z)) (m d : Z) :
  wf t -> forward self t = Ok y ->
  Rs self = pre ++ (m, d) :: post ->
  let mn := Z.to_nat m in
  let dn := Z.to_nat d in
  let S := prod (skipn 2 (size t)) in
  let c0 := Z.to_nat (channels pre) in
  let w := PerSample.sub_vector (weight self) (Z.to_nat (multiplicities pre)) in
  let b0 := PerSample.sub_vector (bias self) (Z.to_nat (scalar_multiplicities pre)) in
  forall b i j s,
    b < nth 0 (size t) 0 -> i < mn -> j < dn -> s < S ->
    let x := firstn (mn * dn * S) (skipn (c0 * S) (sample t b)) in
    let e := channel_entry t b (c0 + i * dn + j) s in
    let out := channel_entry y b (c0 + i * dn + j) s in
    (d = 1%Z ->
       let centred := map (fun v => fsub v (mean x)) x in
       let n := fpow_neg_half
                  (fadd (mean (PerSample.sum_squares mn 1 S centred)) (eps self)) in
       out = if affine self
             then fadd (fmul (fsub e (mean x)) (fmul n (w i))) (b0 i)
             else fmul (fsub e (mean x)) n) /\
    (d <> 1%Z ->
       let n := fpow_neg_half
                  (fadd (mean (PerSample.sum_squares mn dn S x)) (eps self)) in
       out = if affine self then fmul e (fmul n (w i)) else fmul e n).
Proof.
  intros W R ERs mn dn S c0 w b0.
  destruct (forward_entry self t y pre m d post W R ERs)
    as [Bn [C [sp [Fit [Esz [[Pm Pd] Hall]]]]]].
  destruct Fit as [E _].
  assert (ES : S = prod sp) by (unfold S; now rewrite E).
  intros b i j s Hb Hi Hj Hs x e out.
  rewrite E in Hb. cbn [nth] in Hb.
  destruct (Hall b Hb) as [Lx Hent]. rewrite <- ES in *.
  destruct (Hent i j s Hi Hj Hs) as [Ey Et].
  fold mn dn c0 in Ey, Et, Lx. fold x in Ey, Et, Lx.
  pose proof (per_sample_block_entry mn dn S (eps self) (affine self)
                (PerSample.sub_vector (weight self)
                   (if affine self then 0 + Z.to_nat (multiplicities pre) else 0))
                (PerSample.sub_vector (bias self)
                   (if affine self then 0 + Z.to_nat (scalar_multiplicities pre) else 0))
                x i (j * S + s) Lx Hi ltac:(nia)) as B.
  cbv zeta in B. rewrite <- Ey, <- Et in B. fold e out in B.
  unfold PerSample.norm_factor, PerSample.centred in B.
  split.
  - intros D. assert (D1 : dn = 1) by (unfold dn; rewrite D; reflexivity).
    cbv zeta. rewrite D1 in B. cbn [Nat.eqb] in B. rewrite B.
    destruct (affine self); reflexivity.
  - intros D. cbv zeta.
    destruct (Nat.eqb_spec dn 1) as [D1|_]; [unfold dn in D1; lia|].
    rewrite B. destruct (affine self); reflexivity.
Qed.

End Scaling.

Lemma C3_witness :
  exists y scale,
    SE3GroupNorm.forward (small_gn true) two_samples = Ok y /\
    channel_entry y 1 2 0 = (channel_entry two_samples 1 2 0 * scale)%R.
Proof.
  pose proof (forward_run (small_gn true) two_samples 2 3 [1; 1; 1]
                (fits_small_gn true two_samples eq_refl) eq_refl) as R.
  pose proof (proj2 (C3_only_scalar_blocks_are_centred (small_gn true) two_samples _
                       [(1, 1)]%Z [] 1 2 eq_refl R eq_refl 1 0 1 0
                       Nat.lt_1_2 Nat.lt_0_1 Nat.lt_1_2 Nat.lt_0_1)) as E.
  cbv zeta in E. specialize (E ltac:(discriminate)).
  eexists. eexists. split; [exact R|]. exact E.
Defined.

(** * The base of the power, over the reals with [None] *)

Section Positivity.
Import SE3GroupNorm.
Open Scope R_scope.

Implicit Types (l : list R).

Lemma fold_add_nonneg l acc :
  0 <= acc -> Forall (Rle 0) l -> 0 <= fold_left Rplus l acc.
Proof.
  intros Z0 A. revert acc Z0.
  induction A as [|x l Px _ IH]; intros acc Z0; cbn [fold_left]; [assumption|].
  apply IH. lra.
Qed.

Lemma fsum_nonneg l : Forall (Rle 0) l -> 0 <= fsum l.
Proof. apply fold_add_nonneg. cbn. lra. Qed.

Lemma mean_nonneg l : (0 < length l)%nat -> Forall (Rle 0) l -> 0 <= mean l.
Proof.
  intros N A. unfold mean. cbn [fdiv fof_nat Scalar_R]. unfold Rdiv.
  apply Rmult_le_pos; [now apply fsum_nonneg|].
  left. apply Rinv_0_lt_compat. now apply lt_0_INR.
Qed.

Lemma sum_squares_nonneg mn dn S (r : list R) : Forall (Rle 0) (PerSample.sum_squares mn dn S r).
Proof.
  unfold PerSample.sum_squares. rewrite Forall_flat_map. apply Forall_forall.
  intros i _. rewrite Forall_map. apply Forall_forall. intros s _.
  apply fsum_nonneg. rewrite Forall_map. apply Forall_forall. intros j _.
  change (0 <= PerSample.entry dn S r i j s * PerSample.entry dn S r i j s). nra.
Qed.

Lemma length_sum_squares (F : Type) `{Scalar F} mn dn S (x : list F) :
  length (PerSample.sum_squares mn dn S x) = (mn * S)%nat.
Proof.
  unfold PerSample.sum_squares. apply length_flat_map_seq.
  intros i _. now rewrite length_map, length_seq.
Qed.




(** ... and is not a real when there is nothing: zero divided by zero. *)
Lemma mean_nothing : mean (F := option R) [] = None.
Proof.
  unfold mean. cbn [fsum fold_left length fdiv fof_nat fzero Scalar_Rnan Rnan_div INR].
  destruct (Req_dec_T 0 0) as [_|N]; [reflexivity | contradiction].
Qed.






End Positivity.



(** A block that starts at the last channel of the input has an empty
    slice: with [Rs = [(1, 1); (1, 1)]] on an input of one channel, the
    second block is viewed as [1, 1, 1, 0] and the base of its power is
    not a real number either, before the view back of line 62 raises. *)
Remark empty_slice_base_is_not_positive :
  exists slice field0 field stat,
    slice1 (defined {| size := [1; 1; 1; 1; 1]; data := [5]%R |}) 1 (1 + 1 * 1) = Ok slice /\
    view slice [1; 1; 1; -1]%Z = Ok field0 /\
    SE3GroupNorm.center 1 1 field0 = Ok field /\
    SE3GroupNorm.norm_stat 1 field = Ok stat /\
    data (add_scalar stat (Some (1 / 100000)%R)) = [None].
Proof.
  pose proof (center_rows (F := option R) 1 1 1 0 (fun _ => []) Nat.lt_0_1
                (fun _ _ => eq_refl)) as Hc.
  pose proof (norm_stat_rows (F := option R) 1 1 1 0
                (fun b => PerSample.centred 1 []) Nat.lt_0_1 (fun _ _ => eq_refl)) as Hs.
  eexists. eexists. eexists. eexists.
  split; [reflexivity|]. split; [reflexivity|]. split; [exact Hc|]. split; [exact Hs|].
  cbn [add_scalar tmap data map seq PerSample.centred Nat.eqb].
  change (PerSample.sum_squares (F := option R) 1 1 0 []) with (@nil (option R)).
  now rewrite mean_nothing.
Qed.

(** * More on the forward pass *)

Section ForwardBlocks.
Context {F : Type} `{Scalar F}.
Import SE3GroupNorm.

Lemma sample_rows (t : Tensor F) Bn C sp b :
  size t = Bn :: C :: sp -> sample t b = row (C * prod sp) b (data t).
Proof. intros E. unfold sample. rewrite E. reflexivity. Qed.

Lemma length_per_sample_forward (self : SE3GroupNorm.t F) t Bn C sp b :
  fits self t Bn C sp -> wf t -> b < Bn ->
  length (PerSample.forward self (prod sp) (row (C * prod sp) b (data t))) = C * prod sp.
Proof.
  intros [E [PB [P [_ [Ch _]]]]] W Hb. unfold PerSample.forward.
  unfold wf, numel in W. rewrite E in W. cbn [prod fold_right] in W. fold (prod sp) in W.
  rewrite length_per_sample_blocks; rewrite ?Ch, ?Nat2Z.id; auto.
  rewrite length_row; nia.
Qed.

(** The sample of the result is the per-sample reading of the sample of
    the input. *)
Lemma forward_sample (self : SE3GroupNorm.t F) t y Bn C sp b :
  fits self t Bn C sp -> wf t -> forward self t = Ok y -> b < Bn ->
  sample y b = PerSample.forward self (prod sp) (sample t b).
Proof.
  intros Fit W R Hb. rewrite (forward_run self t Bn C sp Fit W) in R.
  inversion R; subst y; clear R.
  destruct Fit as [E Rest]. rewrite (sample_rows t Bn C sp b E).
  unfold sample. cbn [size data tl prod fold_right]. fold (prod sp).
  rewrite (row_flat_map _ Bn (C * prod sp) b); [reflexivity| |assumption].
  intros i Hi. apply (length_per_sample_forward self t Bn C sp i); auto.
  split; assumption.
Qed.

(** The block [(m, d)] of the result, for one sample, is the per-sample
    reading of that block of the input. *)
Lemma forward_block (self : SE3GroupNorm.t F) t y pre m d post b :
  wf t -> forward self t = Ok y ->
  Rs self = pre ++ (m, d) :: post ->
  b < nth 0 (size t) 0 ->
  let mn := Z.to_nat m in
  let dn := Z.to_nat d in
  let c0 := Z.to_nat (channels pre) in
  channels_of y b c0 (mn * dn)
  = PerSample.block mn dn (prod (skipn 2 (size t))) (eps self) (affine self)
      (PerSample.sub_vector (weight self)
         (if affine self then 0 + Z.to_nat (multiplicities pre) else 0))
      (PerSample.sub_vector (bias self)
         (if affine self then 0 + Z.to_nat (scalar_multiplicities pre) else 0))
      (channels_of t b c0 (mn * dn)).
Proof.
  intros W R ERs Hb mn dn c0.
  destruct (forward_refines self t y W R) as [Bn [C [sp [Fit Ey]]]].
  pose proof Fit as [E [PB [P [_ [Ch _]]]]].
  rewrite E in Hb. cbn [nth] in Hb.
  unfold channels_of. rewrite (forward_sample self t y Bn C sp b Fit W R Hb).
  assert (Ey' : size y = Bn :: C :: sp) by (subst y; reflexivity).
  rewrite Ey', E. cbn [skipn].
  rewrite ERs in P, Ch. apply positive_blocks_app in P.
  destruct P as [Ppre [[Pm Pd] Ppost]]. cbn [fst snd] in Pm, Pd.
  pose proof (channels_nonneg pre Ppre) as Cpre.
  pose proof (channels_nonneg post Ppost) as Cpost.
  rewrite channels_app, channels_cons in Ch.
  assert (Ls : length (sample t b) = C * prod sp).
  { rewrite (sample_rows t Bn C sp b E). apply length_row.
    unfold wf, numel in W. rewrite E in W. cbn [prod fold_right] in W.
    fold (prod sp) in W. nia. }
  unfold PerSample.forward. rewrite ERs.
  rewrite (blocks_app self (prod sp) _ pre ((m, d) :: post) Ppre 0 0 0).
  rewrite skipn_app_l
    by (apply length_per_sample_blocks; [assumption | rewrite Ls; fold c0; nia]).
  cbn [PerSample.blocks]. fold mn dn c0. cbn [Nat.add].
  rewrite firstn_app.
  assert (Lb : forall w' b', length (PerSample.block mn dn (prod sp) (eps self) (affine self)
                  w' b' (firstn (mn * dn * prod sp) (skipn (c0 * prod sp) (sample t b))))
               = mn * dn * prod sp).
  { intros w' b'. rewrite length_per_sample_block; [lia|].
    rewrite length_firstn, length_skipn, Ls. unfold mn, dn, c0. nia. }
  rewrite Lb, Nat.sub_diag. cbn [firstn]. rewrite app_nil_r.
  apply firstn_all2. rewrite Lb. lia.
Qed.

End ForwardBlocks.
(** * The scale of a block *)

Section BlockScale.
Context {F : Type} `{Scalar F}.
Import SE3GroupNorm.

(** C4.  In the result of a forward pass, the scale of a block is one
    scalar per batch sample: the mean, over the channels and positions of
    the block, of the sums of squares across the dimension axis of the
    block (centred when its dimension is 1), plus epsilon, to the power
    -0.5.  Without the affine transform the block of the result is, for
    that sample, the (centred) input block with every entry multiplied by
    that one scalar; with it, the scalar is first multiplied by the
    weight of the channel (and the bias of the channel is added to a
    block of dimension 1). *)
Theorem C4_one_scale_per_sample
        (self : SE3GroupNorm.t F) (t y : Tensor F) (pre post : list (Z * Z)) (m d : Z)
        (b : nat) :
  wf t -> forward self t = Ok y ->
  Rs self = pre ++ (m, d) :: post ->
  b < nth 0 (size t) 0 ->
  let mn := Z.to_nat m in
  let dn := Z.to_nat d in
  let S := prod (skipn 2 (size t)) in
  let c0 := Z.to_nat (channels pre) in
  let w := PerSample.sub_vector (weight self) (Z.to_nat (multiplicities pre)) in
  let b0 := PerSample.sub_vector (bias self) (Z.to_nat (scalar_multiplicities pre)) in
  let x := firstn (mn * dn * S) (skipn (c0 * S) (sample t b)) in
  let xc := if (d =? 1)%Z then map (fun v => fsub v (mean x)) x else x in
  let n := fpow_neg_half (fadd (mean (PerSample.sum_squares mn dn S xc)) (eps self)) in
  let out := firstn (mn * dn * S) (skipn (c0 * S) (sample y b)) in
  (affine self = false -> out = map (fun v => fmul v n) xc) /\
  (affine self = true ->
     forall i k, i < mn -> k < dn * S ->
       nth (i * (dn * S) + k) out fzero
       = let scaled := fmul (nth (i * (dn * S) + k) xc fzero) (fmul n (w i)) in
         if (d =? 1)%Z then fadd scaled (b0 i) else scaled).
Proof.
  intros W R ERs Hb mn dn S c0 w b0 x xc n out.
  pose proof (forward_block self t y pre m d post b W R ERs Hb) as B. cbv zeta in B.
  destruct (forward_entry self t y pre m d post W R ERs)
    as [Bn [C [sp [Fit [Esz [[Pm Pd] Hall]]]]]].
  destruct Fit as [E _].
  assert (Hb' : b < Bn) by (rewrite E in Hb; exact Hb).
  destruct (Hall b Hb') as [Lx _].
  assert (ES : prod sp = S) by (unfold S; now rewrite E).
  rewrite ES in Lx. fold mn dn c0 in Lx. fold x in Lx.
  unfold channels_of in B. rewrite Esz in B. fold mn dn S c0 in B. fold x out in B.
  assert (E1 : (dn =? 1) = (d =? 1)%Z).
  { unfold dn. destruct (Z.eqb_spec d 1), (Nat.eqb_spec (Z.to_nat d) 1); lia. }
  assert (Ec : PerSample.centred dn x = xc).
  { unfold PerSample.centred, xc. now rewrite E1. }
  assert (En : PerSample.norm_factor mn dn S (eps self) (PerSample.centred dn x) = n).
  { unfold PerSample.norm_factor. now rewrite Ec. }
  assert (Lc : length xc = mn * (dn * S)) by (rewrite <- Ec; now rewrite length_centred).
  split.
  - intros A. rewrite B, A. unfold PerSample.block. cbn [andb].
    rewrite En, Ec. now apply per_channel_const.
  - intros A i k Hi Hk. cbv zeta. rewrite B, A.
    unfold PerSample.block. cbn [andb]. rewrite En, Ec, E1. cbn [Nat.add].
    fold w b0.
    destruct (d =? 1)%Z.
    + rewrite per_channel_entry by (auto using length_per_channel).
      now rewrite per_channel_entry.
    + now rewrite per_channel_entry.
Qed.

End BlockScale.

Lemma C4_witness :
  exists y n,
    SE3GroupNorm.forward (small_gn false) two_samples = Ok y /\
    firstn 2 (skipn 1 (sample y 0)) = map (fun v => (v * n)%R) [2; 3]%R.
Proof.
  pose proof (forward_run (small_gn false) two_samples 2 3 [1; 1; 1]
                (fits_small_gn false two_samples eq_refl) eq_refl) as R.
  pose proof (proj1 (C4_one_scale_per_sample (small_gn false) two_samples _
                       [(1, 1)]%Z [] 1 2 0 eq_refl R eq_refl Nat.lt_0_2)) as E.
  cbv zeta in E. specialize (E eq_refl).
  eexists. eexists. split; [exact R|]. exact E.
Defined.

Section ForwardOutcome.
Context {F : Type} `{Scalar F}.
Import SE3GroupNorm.

(** X1.  On a well-formed input the forward pass returns a tensor exactly
    when module and input fit: the input has a batch axis that is not
    empty and a channel axis, every stored block has positive
    multiplicity and dimension, there is at least one, the blocks span
    exactly the channels of the input, and an affine module holds exactly
    the weights and biases the blocks take. *)
Theorem X1_forward_returns_iff_fits (self : SE3GroupNorm.t F) (t : Tensor F) :
  wf t ->
  (exists y, forward self t = Ok y) <-> (exists Bn C sp, fits self t Bn C sp).
Proof.
  intros W. split.
  - intros [y R]. exact (forward_inv self t y R).
  - intros [Bn [C [sp Fit]]]. eexists. exact (forward_run self t Bn C sp Fit W).
Qed.

(** X2.  Whatever the forward pass returns has the size of the input and
    holds as many entries as that size says. *)
Theorem X2_forward_result_is_well_formed (self : SE3GroupNorm.t F) (t y : Tensor F) :
  wf t -> forward self t = Ok y -> size y = size t /\ wf y.
Proof.
  intros W R. destruct (forward_refines self t y W R) as [Bn [C [sp [Fit Ey]]]].
  pose proof Fit as [E _]. subst y. split; [now rewrite E|].
  unfold wf, numel. cbn [size data prod fold_right]. fold (prod sp).
  apply length_flat_map_seq. intros b Hb.
  now apply (length_per_sample_forward self t Bn C sp b).
Qed.

Lemma channels_of_beyond (u : Tensor F) B rest b c0 n :
  wf u -> size u = B :: rest -> B <= b -> channels_of u b c0 n = [].
Proof.
  intros W E Hb. unfold channels_of, sample. rewrite row_beyond.
  - now rewrite skipn_nil, firstn_nil.
  - unfold wf, numel in W. rewrite W, E. cbn [tl prod fold_right]. fold (prod rest). nia.
Qed.

(** X3.  Blocks are normalised independently of one another: on two
    inputs of one size that agree, for batch sample [b], on the channels
    of one block, the results agree on those channels of that sample. *)
Theorem X3_blocks_are_independent
        (self : SE3GroupNorm.t F) (t t' y : Tensor F) (pre post : list (Z * Z)) (m d : Z)
        (b : nat) :
  wf t -> wf t' -> size t' = size t ->
  forward self t = Ok y ->
  Rs self = pre ++ (m, d) :: post ->
  let c0 := Z.to_nat (channels pre) in
  let n := Z.to_nat m * Z.to_nat d in
  channels_of t' b c0 n = channels_of t b c0 n ->
  exists y', forward self t' = Ok y' /\ channels_of y' b c0 n = channels_of y b c0 n.
Proof.
  intros W W' Es R ERs c0 n Eb.
  destruct (forward_inv self t y R) as [Bn [C [sp Fit]]].
  assert (Fit' : fits self t' Bn C sp) by (unfold fits in *; rewrite Es; exact Fit).
  pose proof (forward_run self t' Bn C sp Fit' W') as R'.
  eexists. split; [exact R'|].
  destruct (Nat.lt_ge_cases b (nth 0 (size t) 0)) as [Hb|Hb].
  - pose proof (forward_block self t' _ pre m d post b W' R' ERs) as B'.
    pose proof (forward_block self t y pre m d post b W R ERs Hb) as B0.
    rewrite Es in B'. specialize (B' Hb). cbv zeta in B', B0.
    fold c0 n in B', B0. rewrite B', B0. now rewrite Eb.
  - pose proof Fit as [Ef _]. rewrite Ef in Hb. cbn [nth] in Hb.
    rewrite (forward_run self t Bn C sp Fit W) in R. inversion R; subst y; clear R.
    rewrite !(channels_of_beyond _ Bn (C :: sp) b c0 n); auto;
      unfold wf, numel; cbn [size data prod fold_right]; fold (prod sp);
      apply length_flat_map_seq; intros i Hi.
    + now apply (length_per_sample_forward self t Bn C sp i).
    + now apply (length_per_sample_forward self t' Bn C sp i).
Qed.

(** X7.  Too few blocks for the channels of the input: when the stored
    blocks are positive and span fewer channels than the input has, on a
    batch that is not empty and with parameters that suffice, the loop
    goes through and the first closing assertion fails. *)
Theorem X7_unclaimed_channels_fail_the_assertion
        (self : SE3GroupNorm.t F) (t : Tensor F) (Bn C : nat) (sp : list nat) :
  size t = Bn :: C :: sp -> wf t -> 0 < Bn ->
  positive_blocks (Rs self) ->
  (channels (Rs self) < Z.of_nat C)%Z ->
  (affine self = true ->
     exists w b0, weight self = Some w /\ bias self = Some b0 /\
       (multiplicities (Rs self) <= Z.of_nat (length w))%Z /\
       (scalar_multiplicities (Rs self) <= Z.of_nat (length b0))%Z) ->
  forward self t = Raise AssertionError.
Proof.
  intros E W PB P Ch Hp. unfold forward.
  destruct (loop_spec self t Bn C sp (Rs self) E W PB loop_start 0 0 0 P)
    as [fs [Run _]].
  - reflexivity.
  - cbn. lia.
  - intros A. destruct (Hp A) as [w [b0 [Ew [Eb [Lw Lb]]]]].
    repeat split. exists w, b0. repeat split; auto; cbn; lia.
  - rewrite Run. cbn [bind]. unfold checks, size_at. rewrite E.
    cbn [nth_error bind ix loop_start]. rewrite Z.add_0_l.
    destruct (Z.eqb_spec (channels (Rs self)) (Z.of_nat C)); [lia | reflexivity].
Qed.

(** X8.  An empty batch: whatever the module, as soon as it stores a
    block, the forward pass on an input whose batch axis is empty raises
    a runtime error, at the first [view(0, m, d, -1)]. *)
Theorem X8_empty_batch_raises
        (self : SE3GroupNorm.t F) (t : Tensor F) (C : nat) (sp : list nat) :
  size t = 0 :: C :: sp -> Rs self <> [] ->
  forward self t = Raise RuntimeError.
Proof.
  intros E N. unfold forward. destruct (Rs self) as [|[m d] l]; [congruence|].
  cbn [loop]. unfold block at 1. unfold slice1. rewrite E. cbn [bind].
  unfold size_at. rewrite E. cbn [nth_error bind].
  unfold view at 1, infer_size, numel. cbn [size prod fold_right Nat.mul Z.of_nat].
  cbn [existsb count_occ filter].
  destruct (0 <? -1)%Z eqn:Z0; [discriminate|]. cbn [orb].
  destruct ((m <? -1)%Z || ((d <? -1)%Z || ((-1 <? -1)%Z || false))); [reflexivity|].
  destruct (Z.eq_dec 0 (-1)) as [|_]; [discriminate|].
  change (negb (0 =? -1)%Z) with true. change (negb (-1 =? -1)%Z) with false.
  cbv iota.
  destruct (Z.eq_dec m (-1)) as [->|Nm], (Z.eq_dec d (-1)) as [->|Nd],
    (Z.eq_dec (-1) (-1)) as [_|N1]; try congruence;
    cbn [Nat.ltb Nat.leb bind]; reflexivity.
Qed.

(** X9.  An input without a channel axis (fewer than two axes) makes the
    forward pass raise an index error, whatever the module. *)
Theorem X9_missing_channel_axis_raises (self : SE3GroupNorm.t F) (t : Tensor F) :
  length (size t) < 2 -> forward self t = Raise IndexError.
Proof.
  intros L. unfold forward.
  assert (E : size t = [] \/ exists B, size t = [B]).
  { destruct (size t) as [|B [|c r]]; cbn in L; [now left | right; now exists B | lia]. }
  destruct (Rs self) as [|[m d] l].
  - cbn [loop bind]. unfold checks, size_at.
    destruct E as [->|[B ->]]; reflexivity.
  - cbn [loop]. unfold block at 1. unfold slice1.
    destruct E as [->|[B ->]]; reflexivity.
Qed.

End ForwardOutcome.
(** ** The outcome of the forward pass, on small inputs *)

Section ForwardOutcomeRuns.
Import SE3GroupNorm.
Open Scope R_scope.

Lemma X1_witness :
  wf two_samples /\
  ((exists y, forward (small_gn true) two_samples = Ok y) <->
   (exists Bn C sp, fits (small_gn true) two_samples Bn C sp)).
Proof.
  split; [reflexivity|].
  exact (X1_forward_returns_iff_fits (small_gn true) two_samples eq_refl).
Defined.

Lemma X2_witness :
  exists y,
    forward (small_gn true) two_samples = Ok y /\
    size y = [2; 3; 1; 1; 1]%nat /\ wf y.
Proof.
  pose proof (forward_run (small_gn true) two_samples 2 3 [1; 1; 1]%nat
                (fits_small_gn true two_samples eq_refl) eq_refl) as R.
  eexists. split; [exact R|].
  exact (X2_forward_result_is_well_formed (small_gn true) two_samples _ eq_refl R).
Defined.

Lemma X3_witness :
  let t' := {| size := [2; 3; 1; 1; 1]%nat; data := [9; 2; 3; 4; 5; 6] |} in
  channels_of t' 0 1 2 = channels_of two_samples 0 1 2 /\
  exists y y',
    forward (small_gn true) two_samples = Ok y /\
    forward (small_gn true) t' = Ok y' /\
    channels_of y' 0 1 2 = channels_of y 0 1 2.
Proof.
  intros t'. split; [reflexivity|].
  pose proof (forward_run (small_gn true) two_samples 2 3 [1; 1; 1]%nat
                (fits_small_gn true two_samples eq_refl) eq_refl) as R.
  destruct (X3_blocks_are_independent (small_gn true) two_samples t' _
              [(1, 1)%Z] [] 1%Z 2%Z 0%nat eq_refl eq_refl eq_refl R eq_refl eq_refl)
    as [y' [R' E]].
  eexists. exists y'. split; [exact R|]. split; [exact R' | exact E].
Defined.

Lemma X7_witness :
  forward (small_gn true) (input_of [1; 4; 1; 1; 1]%nat) = Raise AssertionError.
Proof.
  apply (X7_unclaimed_channels_fail_the_assertion
           (small_gn true) (input_of [1; 4; 1; 1; 1]%nat) 1 4 [1; 1; 1]%nat).
  - reflexivity.
  - apply wf_input_of.
  - apply Nat.lt_0_1.
  - repeat constructor.
  - reflexivity.
  - intros _. exists [1; 1], [0]. repeat split; cbn; lia.
Defined.

Lemma X8_witness :
  forward (small_gn true) (input_of [0; 3; 1; 1; 1]%nat) = Raise RuntimeError.
Proof.
  apply (X8_empty_batch_raises (small_gn true) (input_of [0; 3; 1; 1; 1]%nat) 3 [1; 1; 1]%nat).
  - reflexivity.
  - discriminate.
Defined.

Lemma X9_witness :
  forward (small_gn false) (input_of [5]%nat) = Raise IndexError.
Proof.
  apply (X9_missing_channel_axis_raises (small_gn false) (input_of [5]%nat)).
  apply Nat.lt_succ_diag_r.
Defined.

End ForwardOutcomeRuns.
(** * A freshly constructed affine module *)

Section FreshAffine.
Context {F : Type} `{Scalar F}.
Import SE3GroupNorm.

(** Multiplying by one and adding zero change nothing: so it is in the
    reals, and in floating point up to the sign of a zero. *)
Hypothesis fmul_one : forall x : F, fmul x fone = x.
Hypothesis fadd_zero : forall x : F, fadd x fzero = x.

Lemma sub_vector_repeat (c : F) nw o i :
  o + i < nw -> PerSample.sub_vector (Some (repeat c nw)) o i = c.
Proof. intros L. unfold PerSample.sub_vector. now apply nth_repeat_lt. Qed.

(** With weights one and biases zero the affine steps change nothing. *)
Lemma block_fresh mn dn S (e : F) nw nb iw ib (w' b' : nat -> F) (x : list F) :
  length x = mn * (dn * S) ->
  iw + mn <= nw -> (dn = 1 -> ib + mn <= nb) ->
  PerSample.block mn dn S e true
    (PerSample.sub_vector (Some (repeat fone nw)) iw)
    (PerSample.sub_vector (Some (repeat fzero nb)) ib) x
  = PerSample.block mn dn S e false w' b' x.
Proof.
  intros L Lw Lb. unfold PerSample.block. cbn [andb].
  set (xc := PerSample.centred dn x).
  set (n := PerSample.norm_factor mn dn S e xc).
  assert (Lxc : length xc = mn * (dn * S)) by (unfold xc; now rewrite length_centred).
  assert (E : PerSample.per_channel mn dn S fmul
                (fun i => fmul n (PerSample.sub_vector (Some (repeat fone nw)) iw i)) xc
              = PerSample.per_channel mn dn S fmul (fun _ => n) xc).
  { unfold PerSample.per_channel. apply flat_map_ext_seq. intros i Hi.
    apply map_ext. intros v. rewrite sub_vector_repeat by lia. now rewrite fmul_one. }
  rewrite E. destruct (Nat.eqb_spec dn 1) as [D|D]; [|reflexivity].
  set (y := PerSample.per_channel mn dn S fmul (fun _ => n) xc).
  assert (Ly : length y = mn * (dn * S)) by (now apply length_per_channel).
  unfold PerSample.per_channel at 1.
  rewrite (flat_map_ext_seq _ (fun i => row (dn * S) i y)).
  - now apply flat_map_row.
  - intros i Hi. rewrite <- (map_id (row (dn * S) i y)) at 2.
    apply map_ext. intros v. rewrite sub_vector_repeat by (specialize (Lb D); lia).
    apply fadd_zero.
Qed.

Lemma blocks_fresh (sa sn : SE3GroupNorm.t F) S nw nb (x : list F) (l : list (Z * Z)) :
  affine sa = true -> affine sn = false -> eps sa = eps sn ->
  weight sa = Some (repeat fone nw) -> bias sa = Some (repeat fzero nb) ->
  positive_blocks l ->
  forall ix iw ib iw' ib',
    iw + Z.to_nat (multiplicities l) <= nw ->
    ib + Z.to_nat (scalar_multiplicities l) <= nb ->
    (ix + Z.to_nat (channels l)) * S <= length x ->
    PerSample.blocks sa S x ix iw ib l = PerSample.blocks sn S x ix iw' ib' l.
Proof.
  intros Aa An Ee Ew Eb P.
  induction P as [|[m d] l [Pm Pd] P IH]; intros ix iw ib iw' ib' Lw Lb Lx; [reflexivity|].
  cbn [fst snd] in Pm, Pd.
  pose proof (multiplicities_nonneg l P) as Nm.
  pose proof (scalar_multiplicities_nonneg l P) as Ns.
  pose proof (channels_nonneg l P) as Nc.
  rewrite multiplicities_cons in Lw. rewrite scalar_multiplicities_cons in Lb.
  rewrite channels_cons in Lx. cbn [fst snd] in Lw, Lb, Lx.
  cbn [PerSample.blocks]. rewrite Aa, An, Ee, Ew, Eb. cbn [andb].
  set (mn := Z.to_nat m) in *. set (dn := Z.to_nat d) in *.
  assert (Ed : (dn =? 1) = (d =? 1)%Z).
  { unfold dn. destruct (Z.eqb_spec d 1) as [->|D]; [reflexivity|].
    apply Nat.eqb_neq. lia. }
  assert (Em : Z.to_nat (m * d + channels l) = mn * dn + Z.to_nat (channels l))
    by (unfold mn, dn; nia).
  rewrite Em in Lx.
  f_equal.
  - apply block_fresh.
    + rewrite length_firstn, length_skipn. nia.
    + unfold mn. lia.
    + intros D. rewrite D in Ed. rewrite <- Ed in Lb. cbn [Nat.eqb] in Lb. unfold mn. lia.
  - apply IH.
    + unfold mn. lia.
    + rewrite Ed. destruct (d =? 1)%Z; unfold mn; lia.
    + nia.
Qed.

(** X4.  A module as [__init__] builds it with [affine=True], whose
    weights are all one and biases all zero, computes what the module
    built with [affine=False] computes: whenever its forward pass returns
    a tensor, the other returns the same tensor. *)
Theorem X4_fresh_affine_module_is_plain
        (Rs0 : list (Z * Z)) (e : F) (sa sn : SE3GroupNorm.t F) (t y : Tensor F) :
  init Rs0 e true = Ok sa -> init Rs0 e false = Ok sn ->
  wf t -> forward sa t = Ok y -> forward sn t = Ok y.
Proof.
  intros Ia In W R.
  destruct (init_inv Rs0 e true sa Ia) as [Ra [Ea [Aa [Pa _]]]].
  destruct (Pa eq_refl) as [Nm [Ns [Ew Eb]]].
  destruct (init_inv Rs0 e false sn In) as [Rn [En [An _]]].
  destruct (forward_refines sa t y W R) as [Bn [C [sp [Fit Ey]]]].
  pose proof Fit as [E [PB [P [N [Ch Hp]]]]].
  destruct (Hp Aa) as [w [b0 [Ew' [Eb' [Lw Lb]]]]].
  rewrite Ew in Ew'. rewrite Eb in Eb'. inversion Ew'; subst w. inversion Eb'; subst b0.
  rewrite repeat_length in Lw, Lb.
  assert (Fitn : fits sn t Bn C sp).
  { unfold fits. rewrite Rn, <- Ra. repeat split; auto. rewrite An. discriminate. }
  rewrite (forward_run sn t Bn C sp Fitn W). subst y. do 2 f_equal.
  apply flat_map_ext_seq. intros b Hb. unfold PerSample.forward.
  rewrite Rn, <- Ra. symmetry.
  apply (blocks_fresh sa sn (prod sp) _ _ _ (Rs sa) Aa An (eq_trans Ea (eq_sym En)) Ew Eb P).
  - lia.
  - lia.
  - rewrite Ch, Nat2Z.id. cbn [Nat.add]. rewrite length_row; [lia|].
    unfold wf, numel in W. rewrite E in W. cbn [prod fold_right] in W.
    fold (prod sp) in W. nia.
Qed.

End FreshAffine.
(** * What normalising achieves, in the reals *)

Section Normalised.
Import SE3GroupNorm.
Open Scope R_scope.

Lemma fold_add_R (l : list R) (a : R) : fold_left Rplus l a = a + fsum l.
Proof.
  unfold fsum. cbn [fadd fzero Scalar_R]. revert a.
  induction l as [|x l IH]; intros a; cbn [fold_left]; [lra|].
  rewrite (IH (a + x)), (IH (0 + x)). lra.
Qed.

Lemma fsum_cons_R (x : R) (l : list R) : fsum (x :: l) = x + fsum l.
Proof. unfold fsum at 1. cbn [fold_left fadd fzero Scalar_R]. rewrite fold_add_R. lra. Qed.

Lemma fsum_scale (k : R) (l : list R) : fsum (map (fun v => v * k) l) = fsum l * k.
Proof.
  induction l as [|x l IH]; [cbn; lra|].
  cbn [map]. rewrite !fsum_cons_R, IH. lra.
Qed.


Lemma mean_scale (k : R) (l : list R) : mean (map (fun v => v * k) l) = mean l * k.
Proof.
  unfold mean. rewrite fsum_scale, length_map. cbn [fdiv fof_nat Scalar_R].
  unfold Rdiv. ring.
Qed.


Lemma nth_scale (k : R) (l : list R) (i : nat) :
  nth i (map (fun v => v * k) l) 0 = nth i l 0 * k.
Proof.
  rewrite <- (Rmult_0_l k) at 1. apply (map_nth (fun v => v * k)).
Qed.

(** Scaling a block by [k] scales its sums of squares by [k * k]. *)
Lemma sum_squares_scale mn dn S (k : R) (x : list R) :
  PerSample.sum_squares mn dn S (map (fun v => v * k) x)
  = map (fun q => q * (k * k)) (PerSample.sum_squares mn dn S x).
Proof.
  unfold PerSample.sum_squares. rewrite map_flat_map_r.
  apply flat_map_ext_seq. intros i _. rewrite map_map. apply map_ext. intros s.
  rewrite <- fsum_scale, map_map. f_equal. apply map_ext. intros j.
  unfold PerSample.entry. cbn [fmul fzero Scalar_R]. rewrite nth_scale. ring.
Qed.

Lemma Rpow_neg_half_sqr (x : R) : 0 < x -> Rpow_neg_half x * Rpow_neg_half x = / x.
Proof.
  intros P. rewrite Rpow_neg_half_eq, <- Rpower_plus.
  replace (- (1 / 2) + - (1 / 2)) with (Ropp 1) by lra.
  now rewrite Rpower_Ropp, Rpower_1.
Qed.

(** The part of a sample a block takes has the length of the block. *)
Lemma length_channels_of_block (self : SE3GroupNorm.t R) t y pre m d post b :
  wf t -> forward self t = Ok y ->
  Rs self = pre ++ (m, d) :: post ->
  (b < nth 0 (size t) 0)%nat ->
  (0 < Z.to_nat m)%nat /\ (0 < Z.to_nat d)%nat /\
  length (channels_of t b (Z.to_nat (channels pre)) (Z.to_nat m * Z.to_nat d))
  = (Z.to_nat m * (Z.to_nat d * prod (skipn 2 (size t))))%nat.
Proof.
  intros W R ERs Hb.
  destruct (forward_inv self t y R) as [Bn [C [sp [E [PB [P [_ [Ch _]]]]]]]].
  rewrite E in Hb. cbn [nth] in Hb.
  rewrite ERs in P, Ch. apply positive_blocks_app in P.
  destruct P as [Ppre [[Pm Pd] Ppost]]. cbn [fst snd] in Pm, Pd.
  pose proof (channels_nonneg pre Ppre) as Cpre.
  pose proof (channels_nonneg post Ppost) as Cpost.
  rewrite channels_app, channels_cons in Ch. cbn [fst snd] in Ch.
  split; [lia|]. split; [lia|].
  unfold channels_of. rewrite E. cbn [skipn].
  rewrite (sample_rows t Bn C sp b E), length_firstn, length_skipn, length_row.
  - nia.
  - unfold wf, numel in W. rewrite E in W. cbn [prod fold_right] in W.
    fold (prod sp) in W. nia.
Qed.


(** X6.  Without the affine transform, a normalised block has, per batch
    sample, the statistic [q / (q + eps)], where [q] is the statistic of
    the (centred) input block: the mean over channels and positions of
    the sums of squares across the dimension axis.  It lies in [0, 1) and
    is close to one when [eps] is small against [q].  In exact
    arithmetic, for a positive [eps] and at least one spatial
    position. *)
Theorem X6_normalised_block_statistic
        (self : SE3GroupNorm.t R) (t y : Tensor R) (pre post : list (Z * Z)) (m d : Z)
        (b : nat) :
  0 < eps self ->
  wf t -> forward self t = Ok y ->
  affine self = false ->
  Rs self = pre ++ (m, d) :: post ->
  (b < nth 0 (size t) 0)%nat ->
  (0 < prod (skipn 2 (size t)))%nat ->
  let mn := Z.to_nat m in
  let dn := Z.to_nat d in
  let S := prod (skipn 2 (size t)) in
  let c0 := Z.to_nat (channels pre) in
  let q := mean (PerSample.sum_squares mn dn S
                   (PerSample.centred dn (channels_of t b c0 (mn * dn)))) in
  let q' := mean (PerSample.sum_squares mn dn S (channels_of y b c0 (mn * dn))) in
  q' = q / (q + eps self) /\ 0 <= q' < 1.
Proof.
  intros Pe W R A ERs Hb PS mn dn S c0 q q'.
  pose proof (forward_block self t y pre m d post b W R ERs Hb) as B.
  destruct (length_channels_of_block self t y pre m d post b W R ERs Hb) as [Pm [Pd L]].
  cbv zeta in B. fold mn dn S c0 in B, L, Pm, Pd.
  assert (Nq : 0 <= q).
  { apply mean_nonneg; [|apply sum_squares_nonneg]. rewrite length_sum_squares.
    unfold S. nia. }
  assert (E : q' = q / (q + eps self)).
  { unfold q'. rewrite B, A. unfold PerSample.block. cbn [andb].
    rewrite per_channel_const by (now rewrite length_centred).
    cbn [fmul Scalar_R]. rewrite sum_squares_scale, mean_scale.
    unfold PerSample.norm_factor. fold q. cbn [fadd Scalar_R].
    rewrite Rpow_neg_half_sqr by lra. reflexivity. }
  split; [exact E|]. rewrite E. split.
  - apply Rmult_le_pos; [assumption|]. left. apply Rinv_0_lt_compat. lra.
  - apply (Rmult_lt_reg_r (q + eps self)); [lra|].
    unfold Rdiv. rewrite Rmult_assoc, Rinv_l by lra. lra.
Qed.

End Normalised.
(** * The wrapper on its default list of blocks *)

Section WrapperDefault.
Context {F : Type} `{Scalar F}.
Import SE3GroupNorm.
Variables (Conv Kwargs : Type).
Variable SE3Convolution : list (Z * Z) -> list (Z * Z) -> Z -> Kwargs -> result Conv.
Variable conv_call : Conv -> Tensor F -> result (Tensor F).

(** Dropping the blocks of product zero does not change the channels a
    list without negative entries spans. *)
Lemma kept_channels Rs0 :
  Forall (fun md => 0 <= fst md /\ 0 <= snd md)%Z Rs0 ->
  channels (kept Rs0) = channels Rs0.
Proof.
  induction 1 as [|[m d] l [Pm Pd] _ IH]; [reflexivity|].
  unfold kept in *. cbn [filter fst snd] in *. rewrite channels_cons. cbn [fst snd].
  destruct (Z.ltb_spec 0 (m * d)).
  - rewrite channels_cons, IH. reflexivity.
  - rewrite IH. nia.
Qed.

(** X10.  The wrapper built without an explicit list for the group
    normalisation, on input blocks [(m, l)] without negative entries of
    which one has a positive multiplicity: every block gets the
    dimension [2 * l + 1 > 0], the weights allocated are those the
    forward pass takes, and on every input whose channels are the sum of
    [m * (2 * l + 1)], with a batch that is not empty, the group
    normalisation returns a tensor of the size of the input, which is
    what the convolution is called on. *)
Theorem X10_wrapper_default_list_normalises
        (Rs_in Rs_out : list (Z * Z)) (size0 : Z) (eps0 : F) (kwargs : Kwargs) (c : Conv)
        (t : Tensor F) (Bn C : nat) (sp : list nat) :
  Forall (fun ml => 0 <= fst ml /\ 0 <= snd ml)%Z Rs_in ->
  Exists (fun ml => 0 < fst ml)%Z Rs_in ->
  SE3Convolution Rs_in Rs_out size0 kwargs = Ok c ->
  wf t -> size t = Bn :: C :: sp -> 0 < Bn ->
  Z.of_nat C = zsum (map (fun ml => fst ml * (2 * snd ml + 1))%Z Rs_in) ->
  exists self y,
    SE3GNConvolution.init SE3Convolution Rs_in Rs_out size0 eps0 None kwargs = Ok self /\
    SE3GNConvolution.conv self = c /\
    forward (SE3GNConvolution.gn self) t = Ok y /\
    size y = size t /\
    SE3GNConvolution.forward conv_call self t = conv_call c y.
Proof.
  intros N P Ec W E PB Ch.
  set (l := SE3GNConvolution.default_Rs_gn Rs_in).
  assert (Nl : Forall (fun md => 0 <= fst md /\ 0 <= snd md)%Z l).
  { unfold l, SE3GNConvolution.default_Rs_gn. rewrite Forall_map.
    apply (Forall_impl _ (P := fun ml => (0 <= fst ml /\ 0 <= snd ml)%Z)); [|exact N].
    intros [m0 l0]. cbn [fst snd]. lia. }
  assert (Zl : Forall (fun md => snd md = 0 -> fst md = 0)%Z l).
  { unfold l, SE3GNConvolution.default_Rs_gn. rewrite Forall_map.
    apply (Forall_impl _ (P := fun ml => (0 <= fst ml /\ 0 <= snd ml)%Z)); [|exact N].
    intros [m0 l0]. cbn [fst snd]. lia. }
  assert (K : kept l <> []).
  { apply Exists_exists in P. destruct P as [[m0 l0] [Hin Pm]]. cbn [fst] in Pm.
    rewrite Forall_forall in N. specialize (N _ Hin). cbn [fst snd] in N.
    assert (Hk : In (m0, 2 * l0 + 1)%Z (kept l)).
    { apply in_kept. split; [|nia].
      unfold l, SE3GNConvolution.default_Rs_gn.
      apply (in_map (fun ml => (fst ml, 2 * snd ml + 1)%Z) _ _ Hin). }
    intros Ek. rewrite Ek in Hk. exact Hk. }
  assert (Chl : Z.of_nat C = channels (kept l)).
  { rewrite kept_channels by assumption. rewrite Ch.
    unfold l, SE3GNConvolution.default_Rs_gn, channels. now rewrite map_map. }
  destruct (fits_init l eps0 true t Bn C sp Nl (fun _ => Zl) K E PB Chl) as [g [Ig Fit]].
  pose proof (forward_run g t Bn C sp Fit W) as R.
  exists {| SE3GNConvolution.gn := g; SE3GNConvolution.conv := c |}.
  eexists. split; [|split; [reflexivity|split; [exact R|split]]].
  - unfold SE3GNConvolution.init. fold l. rewrite Ig. cbn [bind]. rewrite Ec. reflexivity.
  - now rewrite E.
  - unfold SE3GNConvolution.forward. cbn [SE3GNConvolution.gn SE3GNConvolution.conv].
    rewrite R. reflexivity.
Qed.

End WrapperDefault.
(** * The signal of spherical harmonic coefficients *)

Section SignalFacts.
Context {F : Type} `{Scalar F}.
Variable Angles : Type.
Variable spherical_harmonics : nat -> Angles -> Angles -> result (Tensor F).
Implicit Types (coeff : list F) (alpha beta : Angles).


(** The loop keeps [i = l * l] and stops at the degree [sqrt (len coeff)]. *)
Lemma loop_expansion coeff alpha beta k :
  forall fuel l s,
    l + k = Nat.sqrt (length coeff) -> k < fuel ->
    Plot.loop spherical_harmonics fuel coeff alpha beta l (l * l) s
    = Some (Plot.expansion spherical_harmonics coeff alpha beta (seq l k) s).
Proof.
  pose proof (Nat.sqrt_spec (length coeff) (Nat.le_0_l _)) as [Lo Hi].
  induction k as [|k IH]; intros fuel l s E Hf; (destruct fuel as [|fuel]; [lia|]);
    cbn [Plot.loop]; cbv zeta.
  - destruct (Nat.ltb_spec (length coeff) (l * l + (2 * l + 1))) as [_|G]; [reflexivity|].
    rewrite Nat.add_0_r in E. subst l. nia.
  - destruct (Nat.ltb_spec (length coeff) (l * l + (2 * l + 1))) as [G|_]; [nia|].
    cbn [seq Plot.expansion].
    destruct (Plot.degree spherical_harmonics coeff alpha beta l (l * l) s) as [s'|e];
      cbn [bind]; [|reflexivity].
    replace (l * l + (2 * l + 1)) with (S l * S l) by lia.
    apply IH; lia.
Qed.

Lemma signal_expansion coeff alpha beta :
  Plot.spherical_harmonic_signal spherical_harmonics coeff alpha beta
  = Some (Plot.expansion spherical_harmonics coeff alpha beta
            (seq 0 (Nat.sqrt (length coeff))) Plot.Zero).
Proof.
  unfold Plot.spherical_harmonic_signal.
  apply (loop_expansion coeff alpha beta (Nat.sqrt (length coeff)) _ 0 Plot.Zero eq_refl).
  pose proof (Nat.sqrt_le_lin (length coeff)). lia.
Qed.

(** X11.  The loop over [count()] ends: it breaks at the degree
    [sqrt (len coeff)], rounded down, so that many rounds and one more
    suffice, whatever the bound on the rounds beyond that.  What it
    returns is what the degrees below give one after the other, the
    degree [l] on the coefficients [l * l] to [(l + 1) * (l + 1)]. *)
Theorem X11_signal_loop_ends_at_the_square_root coeff alpha beta :
  exists r,
    Plot.spherical_harmonic_signal spherical_harmonics coeff alpha beta = Some r /\
    r = Plot.expansion spherical_harmonics coeff alpha beta
          (seq 0 (Nat.sqrt (length coeff))) Plot.Zero /\
    forall fuel, Nat.sqrt (length coeff) < fuel ->
                 Plot.loop spherical_harmonics fuel coeff alpha beta 0 0 Plot.Zero = Some r.
Proof.
  eexists. split; [apply signal_expansion|]. split; [reflexivity|].
  intros fuel Hf.
  exact (loop_expansion coeff alpha beta (Nat.sqrt (length coeff)) fuel 0 Plot.Zero eq_refl Hf).
Qed.

Lemma slice0_in_range (v : list F) o n :
  o + n <= length v ->
  slice0 v (Z.of_nat o) (Z.of_nat (o + n)) = map (fun i => nth (o + i) v fzero) (seq 0 n).
Proof. intros L. rewrite Nat2Z.inj_add. now apply slice0_entries. Qed.

Lemma expansion_ext coeff coeff' alpha beta ls s :
  (forall l, In l ls ->
     slice0 coeff (Z.of_nat (l * l)) (Z.of_nat (l * l + (2 * l + 1)))
     = slice0 coeff' (Z.of_nat (l * l)) (Z.of_nat (l * l + (2 * l + 1)))) ->
  Plot.expansion spherical_harmonics coeff alpha beta ls s
  = Plot.expansion spherical_harmonics coeff' alpha beta ls s.
Proof.
  revert s. induction ls as [|l ls IH]; intros s E; [reflexivity|].
  cbn [Plot.expansion]. unfold Plot.degree. rewrite (E l (or_introl eq_refl)).
  destruct (spherical_harmonics l alpha beta) as [y|e]; cbn [bind]; [|reflexivity].
  destruct (Plot.einsum_i _ y) as [c|e]; cbn [bind]; [|reflexivity].
  destruct (Plot.iadd s c) as [s'|e]; cbn [bind]; [|reflexivity].
  apply IH. intros l' Hl. apply E. now right.
Qed.

(** X12.  Coefficients after the last complete degree are not read:
    after [n * n] coefficients, up to [2 * n] more, too few for the
    degree [n], change nothing. *)
Theorem X12_signal_ignores_an_incomplete_degree coeff (extra : list F) alpha beta n :
  length coeff = n * n -> length extra <= 2 * n ->
  Plot.spherical_harmonic_signal spherical_harmonics (coeff ++ extra) alpha beta
  = Plot.spherical_harmonic_signal spherical_harmonics coeff alpha beta.
Proof.
  intros L Le. rewrite !signal_expansion.
  assert (S1 : Nat.sqrt (length coeff) = n) by (rewrite L; apply Nat.sqrt_square).
  assert (S2 : Nat.sqrt (length (coeff ++ extra)) = n).
  { apply Nat.sqrt_unique. rewrite length_app, L. nia. }
  rewrite S1, S2. f_equal. apply expansion_ext.
  intros l Hl. apply in_seq in Hl.
  rewrite !slice0_in_range by (rewrite ?length_app; nia).
  apply map_ext_seq. intros i Hi. apply app_nth1. nia.
Qed.

Lemma iadd_signal (s s' : Plot.signal) (e : Tensor F) :
  Plot.iadd s e = Ok s' -> exists t, s' = Plot.Signal t.
Proof.
  unfold Plot.iadd. destruct s as [|t].
  - intros R. inversion R. eauto.
  - destruct (add t e) as [r|]; cbn [bind]; [|discriminate].
    destruct (list_eq_dec Nat.eq_dec (size r) (size t)); [|discriminate].
    intros R. inversion R. eauto.
Qed.

Lemma degree_signal coeff alpha beta l i (s s' : Plot.signal) :
  Plot.degree spherical_harmonics coeff alpha beta l i s = Ok s' ->
  exists t, s' = Plot.Signal t.
Proof.
  unfold Plot.degree.
  destruct (spherical_harmonics l alpha beta) as [y|]; cbn [bind]; [|discriminate].
  destruct (Plot.einsum_i _ y) as [c|]; cbn [bind]; [|discriminate].
  apply iadd_signal.
Qed.

Lemma expansion_signal coeff alpha beta ls (t : Tensor F) (s' : Plot.signal) :
  Plot.expansion spherical_harmonics coeff alpha beta ls (Plot.Signal t) = Ok s' ->
  exists t', s' = Plot.Signal t'.
Proof.
  revert t. induction ls as [|l ls IH]; intros t R.
  - inversion R. eauto.
  - cbn [Plot.expansion] in R.
    destruct (Plot.degree spherical_harmonics coeff alpha beta l (l * l) (Plot.Signal t))
      as [s1|] eqn:D; cbn [bind] in R; [|discriminate].
    destruct (degree_signal _ _ _ _ _ _ _ D) as [t1 ->]. exact (IH t1 R).
Qed.

(** X13.  The function returns the Python integer [0], and not a tensor,
    exactly when there is no coefficient at all. *)
Theorem X13_signal_is_the_integer_zero_iff_no_coefficient coeff alpha beta :
  Plot.spherical_harmonic_signal spherical_harmonics coeff alpha beta = Some (Ok Plot.Zero)
  <-> coeff = [].
Proof.
  split.
  - rewrite signal_expansion. intros R. inversion R as [R']. clear R.
    destruct (Nat.sqrt (length coeff)) as [|k] eqn:E.
    + pose proof (Nat.sqrt_spec (length coeff) (Nat.le_0_l _)) as [_ Hi].
      rewrite E in Hi. destruct coeff; [reflexivity | cbn [length] in Hi; lia].
    + cbn [seq Plot.expansion] in R'.
      destruct (Plot.degree spherical_harmonics coeff alpha beta 0 (0 * 0) Plot.Zero)
        as [s1|] eqn:D; cbn [bind] in R'; [|discriminate].
      destruct (degree_signal _ _ _ _ _ _ _ D) as [t1 ->].
      destruct (expansion_signal _ _ _ _ _ _ R') as [t' Ht]. discriminate.
  - intros ->. reflexivity.
Qed.

End SignalFacts.
(** ** Adding tensors of one size *)

Section SameSize.
Context {F : Type} `{Scalar F}.
Variable op : F -> F -> F.

Lemma zip_with_app (l1 l2 l1' l2' : list F) :
  length l1 = length l2 ->
  zip_with op (l1 ++ l1') (l2 ++ l2') = zip_with op l1 l2 ++ zip_with op l1' l2'.
Proof.
  revert l2. induction l1 as [|x l1 IH]; intros [|y l2] L; try discriminate; [reflexivity|].
  cbn [app zip_with]. f_equal. apply IH. now inversion L.
Qed.

Lemma zip_with_rows P a (x y : list F) :
  length x = a * P -> length y = a * P ->
  flat_map (fun i => zip_with op (row P i x) (row P i y)) (seq 0 a) = zip_with op x y.
Proof.
  revert x y. induction a as [|a IH]; intros x y Lx Ly.
  - destruct x; [reflexivity | discriminate].
  - rewrite flat_map_seq_S, !row_0.
    rewrite (flat_map_ext_seq _ (fun i => zip_with op (row P i (skipn P x)) (row P i (skipn P y))))
      by (intros i _; now rewrite !row_S).
    rewrite IH by (rewrite length_skipn; lia).
    rewrite <- zip_with_app by (rewrite !length_firstn; lia).
    now rewrite !firstn_skipn.
Qed.

Lemma broadcast_data_same_size s (x y : list F) :
  length x = prod s -> length y = prod s ->
  broadcast_data op s s x y = zip_with op x y.
Proof.
  revert x y. induction s as [|a s IH]; intros x y Lx Ly.
  - destruct x as [|u [|]], y as [|v [|]]; try discriminate. reflexivity.
  - rewrite broadcast_data_same. cbn [prod fold_right] in Lx, Ly. fold (prod s) in Lx, Ly.
    rewrite (flat_map_ext_seq _ (fun i => zip_with op (row (prod s) i x) (row (prod s) i y))).
    + now apply zip_with_rows.
    + intros i Hi. apply IH; apply length_row; nia.
Qed.

Lemma broadcast_size_refl s : broadcast_size s s = Some s.
Proof. induction s as [|a s IH]; [reflexivity | now apply broadcast_size_same]. Qed.

Lemma binop_same_size (t u : Tensor F) :
  size u = size t -> wf t -> wf u ->
  binop op t u = Ok {| size := size t; data := zip_with op (data t) (data u) |}.
Proof.
  intros E Wt Wu. unfold binop. rewrite E, Nat.max_id. unfold align.
  rewrite Nat.sub_diag. cbn [repeat app]. rewrite broadcast_size_refl.
  rewrite broadcast_data_same_size; [reflexivity | exact Wt |].
  unfold wf, numel in Wu. now rewrite <- E.
Qed.

(** The contraction when the first axis of [y] has the length of [c]. *)
Lemma einsum_i_matching (c : list F) (y : Tensor F) (sh : list nat) :
  size y = length c :: sh ->
  Plot.einsum_i c y
  = Ok {| size := sh;
          data := map (fun p =>
                    fsum (map (fun i => fmul (nth i c fzero)
                                             (nth (i * prod sh + p) (data y) fzero))
                              (seq 0 (length c))))
                      (seq 0 (prod sh)) |}.
Proof.
  intros E. unfold Plot.einsum_i. rewrite E, Nat.eqb_refl. cbn [orb].
  do 2 f_equal. apply map_ext. intros p. f_equal.
  destruct (Nat.eqb_spec (length c) 1) as [E1|]; [|reflexivity].
  rewrite E1. reflexivity.
Qed.

End SameSize.
(** ** The signal as a sum over degrees and orders, in the reals *)

Section SignalSum.
Variable Angles : Type.
Variable spherical_harmonics : nat -> Angles -> Angles -> result (Tensor R).
Variables (coeff : list R) (alpha beta : Angles).
(** What the harmonics return on [alpha] and [beta], and the size of it
    after the first axis. *)
Variable Y : nat -> Tensor R.
Variable sh : list nat.
Open Scope R_scope.

Lemma degree_term (l : nat) :
  (S l * S l <= length coeff)%nat ->
  spherical_harmonics l alpha beta = Ok (Y l) ->
  size (Y l) = (2 * l + 1)%nat :: sh ->
  y <- spherical_harmonics l alpha beta ;;
  Plot.einsum_i (slice0 coeff (Z.of_nat (l * l)) (Z.of_nat (l * l + (2 * l + 1)))) y
  = Ok {| size := sh; data := map (Plot.term coeff Y (prod sh) l) (seq 0 (prod sh)) |}.
Proof.
  intros L Ey Es. rewrite Ey. cbn [bind].
  rewrite slice0_in_range by lia.
  rewrite (einsum_i_matching _ (Y l) sh) by (now rewrite length_map, length_seq).
  rewrite length_map, length_seq. do 2 f_equal. apply map_ext. intros p.
  unfold Plot.term. f_equal. apply map_ext_seq. intros k Hk.
  now rewrite nth_map_seq.
Qed.

Lemma expansion_sum (k : nat) :
  forall (l0 : nat) (acc : nat -> R),
    ((l0 + k) * (l0 + k) <= length coeff)%nat ->
    (forall l, (l0 <= l < l0 + k)%nat ->
       spherical_harmonics l alpha beta = Ok (Y l) /\ size (Y l) = (2 * l + 1)%nat :: sh) ->
    Plot.expansion spherical_harmonics coeff alpha beta (seq l0 k)
      (Plot.Signal {| size := sh; data := map acc (seq 0 (prod sh)) |})
    = Ok (Plot.Signal
            {| size := sh;
               data := map (fun p =>
                         acc p + fsum (map (fun l => Plot.term coeff Y (prod sh) l p)
                                           (seq l0 k)))
                           (seq 0 (prod sh)) |}).
Proof.
  induction k as [|k IH]; intros l0 acc L HY.
  - cbn [seq Plot.expansion map]. do 3 f_equal. apply map_ext. intros p. cbn. lra.
  - cbn [seq Plot.expansion]. unfold Plot.degree.
    destruct (HY l0 ltac:(lia)) as [Ey Es].
    pose proof (degree_term l0 ltac:(nia) Ey Es) as D.
    destruct (spherical_harmonics l0 alpha beta) as [y|]; [|discriminate].
    cbn [bind] in D |- *. rewrite D. cbn [bind Plot.iadd]. unfold add.
    rewrite binop_same_size;
      [|reflexivity
       |unfold wf, numel; cbn [size data]; now rewrite length_map, length_seq
       |unfold wf, numel; cbn [size data]; now rewrite length_map, length_seq].
    cbn [bind size data].
    destruct (list_eq_dec Nat.eq_dec sh sh) as [_|N]; [|contradiction].
    cbn [bind]. rewrite zip_with_maps, IH.
    + do 3 f_equal. apply map_ext. intros p. cbn [map]. rewrite fsum_cons_R.
      cbn [fadd Scalar_R]. lra.
    + nia.
    + intros l Hl. apply HY. lia.
Qed.

(** X14.  When the harmonics of every degree [l] below [sqrt (len coeff)]
    come with [2 * l + 1] rows of one size [sh], the signal of a
    coefficient list that is not empty is a tensor of size [sh] whose
    entry at position [p] is, in exact arithmetic, the sum over those
    degrees [l] of the terms of degree [l], each the sum over the orders
    [k < 2 * l + 1] of [coeff[l * l + k] * Y_l[k, p]]. *)
Theorem X14_signal_is_the_sum_over_degrees_and_orders :
  coeff <> [] ->
  (forall l, (l < Nat.sqrt (length coeff))%nat ->
     spherical_harmonics l alpha beta = Ok (Y l) /\ size (Y l) = (2 * l + 1)%nat :: sh) ->
  Plot.spherical_harmonic_signal spherical_harmonics coeff alpha beta
  = Some (Ok (Plot.Signal
       {| size := sh;
          data := map (fun p =>
                    fsum (map (fun l => Plot.term coeff Y (prod sh) l p)
                              (seq 0 (Nat.sqrt (length coeff)))))
                    (seq 0 (prod sh)) |})).
Proof.
  intros N HY. rewrite signal_expansion. f_equal.
  pose proof (Nat.sqrt_spec (length coeff) (Nat.le_0_l _)) as [Lo Hi].
  destruct (Nat.sqrt (length coeff)) as [|k] eqn:E.
  - destruct coeff; [contradiction | cbn [length] in Hi; lia].
  - cbn [seq Plot.expansion]. unfold Plot.degree.
    destruct (HY 0%nat ltac:(lia)) as [Ey Es].
    pose proof (degree_term 0 ltac:(nia) Ey Es) as D.
    destruct (spherical_harmonics 0 alpha beta) as [y|]; [|discriminate].
    cbn [bind] in D |- *. rewrite D. cbn [bind Plot.iadd].
    unfold add_scalar, tmap. cbn [size data]. rewrite map_map.
    rewrite (expansion_sum k 1 (fun p => fadd (Plot.term coeff Y (prod sh) 0 p) fzero)).
    + do 3 f_equal. apply map_ext. intros p. cbn [map]. rewrite fsum_cons_R.
      cbn [fadd fzero Scalar_R]. lra.
    + nia.
    + intros l Hl. apply HY. lia.
Qed.

End SignalSum.

Lemma X14_witness :
  exists t,
    Plot.spherical_harmonic_signal (fun l (_ _ : unit) => Ok (flat_harmonics l))
      [1; 2; 3; 4; 5]%R tt tt = Some (Ok (Plot.Signal t)) /\
    size t = [2].
Proof.
  eexists. split.
  - apply (X14_signal_is_the_sum_over_degrees_and_orders
             unit (fun l (_ _ : unit) => Ok (flat_harmonics l)) [1; 2; 3; 4; 5]%R tt tt
             flat_harmonics [2]).
    + discriminate.
    + intros l _. split; reflexivity.
  - reflexivity.
Defined.
(** ** The same on small inputs *)

Section MoreRuns.
Import SE3GroupNorm.
Open Scope R_scope.

Lemma X4_witness :
  exists y,
    forward (small_gn true) two_samples = Ok y /\
    forward (small_gn false) two_samples = Ok y.
Proof.
  pose proof (forward_run (small_gn true) two_samples 2 3 [1; 1; 1]%nat
                (fits_small_gn true two_samples eq_refl) eq_refl) as Run.
  eexists. split; [exact Run|].
  exact (@X4_fresh_affine_module_is_plain R Scalar_R Rmult_1_r Rplus_0_r
           [(1, 1); (1, 2)]%Z (1 / 100000) (small_gn true) (small_gn false) two_samples _
           (small_gn_init true) (small_gn_init false) eq_refl Run).
Defined.


Lemma X6_witness :
  exists y,
    forward (small_gn false) two_samples = Ok y /\
    0 <= mean (PerSample.sum_squares 1 2 1 (channels_of y 0 1 2)) < 1.
Proof.
  pose proof (forward_run (small_gn false) two_samples 2 3 [1; 1; 1]%nat
                (fits_small_gn false two_samples eq_refl) eq_refl) as R.
  assert (Pe : 0 < eps (small_gn false)) by (cbn [eps small_gn]; lra).
  eexists. split; [exact R|].
  exact (proj2 (X6_normalised_block_statistic (small_gn false) two_samples _
                  [(1, 1)%Z] [] 1%Z 2%Z 0%nat
                  Pe eq_refl R eq_refl eq_refl Nat.lt_0_2 Nat.lt_0_1)).
Defined.

Lemma X10_witness :
  exists self y,
    SE3GNConvolution.init (fun _ _ _ (_ : unit) => Ok tt)
      [(1, 0); (0, 1)]%Z [] 3%Z (1 / 100000) None tt = Ok self /\
    forward (SE3GNConvolution.gn self) (input_of [2; 1; 1; 1; 1]%nat) = Ok y /\
    size y = [2; 1; 1; 1; 1]%nat.
Proof.
  destruct (X10_wrapper_default_list_normalises
              unit unit (fun _ _ _ _ => Ok tt) (fun _ y => Ok y)
              [(1, 0); (0, 1)]%Z [] 3%Z (1 / 100000) tt tt
              (input_of [2; 1; 1; 1; 1]%nat) 2 1 [1; 1; 1]%nat)
    as [self [y [I [_ [R [Sy _]]]]]].
  - repeat constructor; cbn; lia.
  - apply Exists_cons_hd. cbn. lia.
  - reflexivity.
  - apply wf_input_of.
  - reflexivity.
  - apply Nat.lt_0_2.
  - reflexivity.
  - exists self, y. split; [exact I|]. split; [exact R | exact Sy].
Defined.

Lemma X12_witness :
  Plot.spherical_harmonic_signal (fun l (_ _ : unit) => Ok (flat_harmonics l))
    ([1] ++ [2; 3]) tt tt
  = Plot.spherical_harmonic_signal (fun l (_ _ : unit) => Ok (flat_harmonics l))
      [1] tt tt.
Proof.
  apply (X12_signal_ignores_an_incomplete_degree
           unit (fun l (_ _ : unit) => Ok (flat_harmonics l)) [1] [2; 3] tt tt 1).
  - reflexivity.
  - apply le_n.
Defined.

End MoreRuns.
(** * The exceptions of the forward pass *)

Section Raised.
Context {F : Type} `{Scalar F}.
Import SE3GroupNorm.

Lemma bind_raises (P : error -> Prop) (A B : Type) (c : result A) (k : A -> result B) :
  (forall e, c = Raise e -> P e) ->
  (forall a e, k a = Raise e -> P e) ->
  forall e, bind c k = Raise e -> P e.
Proof.
  intros Pc Pk e. destruct c as [a|e']; cbn [bind]; [apply Pk|].
  intros E. inversion E; subst e'. now apply Pc.
Qed.

Lemma view_raises (t : Tensor F) shape e : view t shape = Raise e -> e = RuntimeError.
Proof.
  unfold view, infer_size.
  repeat match goal with |- context [if ?c then _ else _] => destruct c end;
    cbn [bind]; intros E; inversion E; reflexivity.
Qed.

Lemma binop_raises op (t u : Tensor F) e : binop op t u = Raise e -> e = RuntimeError.
Proof. unfold binop. destruct (broadcast_size _ _); intros E; inversion E; reflexivity. Qed.

Lemma slice1_raises (t : Tensor F) a b e : slice1 t a b = Raise e -> e = IndexError.
Proof.
  unfold slice1. destruct (size t) as [|? [|? ?]]; intros E; inversion E; reflexivity.
Qed.

Lemma size_at_raises (t : Tensor F) i e : size_at t i = Raise e -> e = IndexError.
Proof. unfold size_at. destruct (nth_error _ _); intros E; inversion E; reflexivity. Qed.

Lemma sum_dim_raises (t : Tensor F) k e : sum_dim t k = Raise e -> e = IndexError.
Proof. unfold sum_dim. destruct (nth_error _ _); intros E; inversion E; reflexivity. Qed.

Lemma cat1_raises (ts : list (Tensor F)) e :
  cat1 ts = Raise e -> e = RuntimeError \/ e = IndexError.
Proof.
  unfold cat1. destruct ts as [|t0 ts]; [intros E; inversion E; auto|].
  destruct (size t0) as [|? [|? ?]]; try (intros E; inversion E; now auto).
  destruct (forallb _ _); intros E; inversion E; auto.
Qed.

Lemma assert_raises c e : assert c = Raise e -> e = AssertionError.
Proof. destruct c; intros E; inversion E; reflexivity. Qed.

(** Goals [forall e, c = Raise e -> P e], by the structure of [c]. *)
Ltac raises P :=
  repeat first
    [ solve [ let e := fresh "e" in let E := fresh "E" in
              intros e E;
              first [ discriminate E
                    | apply view_raises in E; subst e; cbn; tauto
                    | apply binop_raises in E; subst e; cbn; tauto
                    | apply slice1_raises in E; subst e; cbn; tauto
                    | apply size_at_raises in E; subst e; cbn; tauto
                    | apply sum_dim_raises in E; subst e; cbn; tauto
                    | apply assert_raises in E; subst e; cbn; tauto
                    | apply cat1_raises in E; destruct E; subst e; cbn; tauto ] ]
    | apply (bind_raises P); [|intros ?]
    | match goal with |- forall e, (match ?p with (_, _) => _ end) = _ -> _ => destruct p end
    | match goal with |- forall e, (if ?c then _ else _) = _ -> _ => destruct c end ].

Lemma block_raises (self : SE3GroupNorm.t F) t st md e :
  consistent self ->
  block self t st md = Raise e -> In e [RuntimeError; IndexError].
Proof.
  intros Co. revert e. destruct md as [m d].
  unfold block, center, field_norm, norm_stat, apply_weight, apply_bias, mul, add, sub.
  destruct (affine self) eqn:A.
  - destruct (Co A) as [[w ->] [b0 ->]]. cbn [param andb bind].
    raises (fun e => In e [RuntimeError; IndexError]).
  - cbn [andb]. raises (fun e => In e [RuntimeError; IndexError]).
Qed.

Lemma loop_raises (self : SE3GroupNorm.t F) t l :
  consistent self ->
  forall st e, loop self t st l = Raise e -> In e [RuntimeError; IndexError].
Proof.
  intros Co. induction l as [|md l IH]; intros st; cbn [loop]; [discriminate|].
  apply (bind_raises (fun e => In e [RuntimeError; IndexError])).
  - intros e. now apply block_raises.
  - intros st'. apply IH.
Qed.

(** X15.  On a module that has its parameters when it is affine, as
    every module built by [__init__] has, the forward pass raises nothing
    but an assertion error, a runtime error or an index error: a
    parameter is never found missing. *)
Theorem X15_forward_raises_one_of_three_errors
        (self : SE3GroupNorm.t F) (t : Tensor F) (e : error) :
  consistent self ->
  forward self t = Raise e ->
  e = AssertionError \/ e = RuntimeError \/ e = IndexError.
Proof.
  intros Co. revert e.
  assert (G : forall e, forward self t = Raise e ->
                        In e [AssertionError; RuntimeError; IndexError]).
  { unfold forward.
    apply (bind_raises (fun e => In e [AssertionError; RuntimeError; IndexError])).
    - intros e E. apply (loop_raises self t (Rs self) Co) in E. cbn in *. tauto.
    - intros st. unfold checks. destruct (affine self) eqn:A.
      + destruct (Co A) as [[w ->] [b0 ->]]. cbn [param_size bind].
        raises (fun e => In e [AssertionError; RuntimeError; IndexError]).
      + raises (fun e => In e [AssertionError; RuntimeError; IndexError]). }
  intros e E. apply G in E. cbn in E. intuition congruence.
Qed.

End Raised.
(** * Blocks that reach beyond the channels of the input *)

Section Overflow.
Context {F : Type} `{Scalar F}.
Import SE3GroupNorm.

(** A slice that reaches beyond the channels is cut at the last one. *)
Lemma slice1_clamped (t : Tensor F) Bn C sp ixn n :
  size t = Bn :: C :: sp -> ixn <= C -> C <= ixn + n ->
  slice1 t (Z.of_nat ixn) (Z.of_nat ixn + Z.of_nat n)
  = Ok {| size := Bn :: (C - ixn) :: sp;
          data := flat_map (fun b => firstn ((C - ixn) * prod sp)
                                       (skipn (ixn * prod sp) (row (C * prod sp) b (data t))))
                           (seq 0 Bn) |}.
Proof.
  intros E L1 L2. unfold slice1. rewrite E. unfold slice_len, slice_start.
  rewrite slice_index_in by lia.
  assert (Es : slice_index (Z.of_nat C) (Z.of_nat ixn + Z.of_nat n) = C).
  { unfold slice_index. destruct (Z.ltb_spec (Z.of_nat ixn + Z.of_nat n) 0); lia. }
  rewrite Es. unfold rows. now rewrite flat_map_map_l.
Qed.

Lemma infer_size_infer_fails (pre post : list nat) n :
  0 < prod pre * prod post ->
  n mod (prod pre * prod post) <> 0 ->
  infer_size (map Z.of_nat pre ++ (-1)%Z :: map Z.of_nat post) (Z.of_nat n)
  = Raise RuntimeError.
Proof.
  intros P D. unfold infer_size.
  rewrite existsb_app, shape_no_invalid. cbn [existsb].
  rewrite shape_no_invalid. change (-1 <? -1)%Z with false. cbn [orb].
  rewrite count_occ_app, shape_no_infer. cbn [count_occ].
  destruct (Z.eq_dec (-1) (-1)) as [_|N]; [|congruence].
  rewrite shape_no_infer. cbn [Nat.add Nat.ltb Nat.leb].
  rewrite filter_app, shape_known. cbn [filter].
  change (-1 =? -1)%Z with true. cbn [negb].
  rewrite shape_known, <- map_app, shape_prod, prod_app.
  set (p := prod pre * prod post) in *.
  rewrite <- Nat2Z.inj_mod.
  destruct (Z.eqb_spec (Z.of_nat n) (Z.of_nat p)) as [En|_].
  - apply Nat2Z.inj in En. subst n. rewrite Nat.Div0.mod_same in D. contradiction.
  - destruct (Z.eqb_spec (Z.of_nat (n mod p)) 0) as [E0|_]; [lia|].
    now rewrite andb_false_r.
Qed.

Lemma view_field_fails (t : Tensor F) Bn mn dn :
  0 < Bn -> 0 < mn -> 0 < dn ->
  numel t mod (Bn * (mn * dn)) <> 0 ->
  view t [Z.of_nat Bn; Z.of_nat mn; Z.of_nat dn; -1]%Z = Raise RuntimeError.
Proof.
  intros PB Pm Pd D. unfold view.
  pose proof (infer_size_infer_fails [Bn; mn; dn] [] (numel t)) as I.
  cbn [map app] in I. rewrite I; [reflexivity| |].
  - simpl. nia.
  - cbn [prod fold_right]. rewrite !Nat.mul_1_r. exact D.
Qed.

Lemma view_back_fails (t : Tensor F) Bn n sp :
  numel t <> Bn * (n * prod sp) ->
  view t (Z.of_nat Bn :: Z.of_nat n :: map Z.of_nat sp) = Raise RuntimeError.
Proof.
  intros N. unfold view, infer_size.
  change (Z.of_nat Bn :: Z.of_nat n :: map Z.of_nat sp) with (map Z.of_nat (Bn :: n :: sp)).
  rewrite shape_no_invalid, shape_no_infer, shape_known, shape_prod.
  cbn [Nat.ltb Nat.leb andb orb].
  destruct (Z.eqb_spec (Z.of_nat (numel t)) (Z.of_nat (prod (Bn :: n :: sp)))) as [E|_].
  - apply Nat2Z.inj in E. exfalso. apply N. rewrite E. reflexivity.
  - reflexivity.
Qed.

(** One turn of the loop on a block that starts within the channels and
    reaches beyond them: one of the two views of the block fails, the
    first when the elements there are do not fill whole rows, the last
    otherwise. *)
Lemma block_overflow (self : SE3GroupNorm.t F) (t : Tensor F) st Bn C sp mn dn ixn iwn ibn :
  size t = Bn :: C :: sp -> wf t ->
  0 < Bn -> 0 < mn -> 0 < dn -> 0 < prod sp ->
  ix st = Z.of_nat ixn -> ixn <= C -> C < ixn + mn * dn ->
  (affine self = true ->
     iw st = Z.of_nat iwn /\ exists w, weight self = Some w /\ iwn + mn <= length w) ->
  (affine self = true -> dn = 1 ->
     ib st = Z.of_nat ibn /\ exists b0, bias self = Some b0 /\ ibn + mn <= length b0) ->
  block self t st (Z.of_nat mn, Z.of_nat dn) = Raise RuntimeError.
Proof.
  intros E W PB Pm Pd PS Hix L1 L2 Hw Hb.
  unfold block. rewrite Hix, <- Nat2Z.inj_mul.
  rewrite (slice1_clamped t Bn C sp ixn (mn * dn) E L1) by lia. cbn [bind].
  unfold size_at. rewrite E. cbn [nth_error bind skipn].
  set (wd := C - ixn).
  set (xs := fun b => firstn (wd * prod sp)
                        (skipn (ixn * prod sp) (row (C * prod sp) b (data t)))).
  assert (Lx : forall b, b < Bn -> length (xs b) = wd * prod sp).
  { intros b Hlt. unfold xs, wd. unfold wf, numel in W. rewrite E in W.
    cbn [prod fold_right] in W. fold (prod sp) in W.
    rewrite length_firstn, length_skipn, length_row by nia. nia. }
  match goal with |- context [view ?u [_; _; _; _]] => set (field := u) end.
  assert (Nf : numel field = Bn * (wd * prod sp))
    by (unfold numel, field; cbn [size prod fold_right]; fold (prod sp); lia).
  destruct (Nat.eq_dec (numel field mod (Bn * (mn * dn))) 0) as [D|D].
  2:{ now rewrite (view_field_fails field Bn mn dn PB Pm Pd D). }
  apply Nat.Div0.mod_divides in D. destruct D as [q Eq]. rewrite Nf in Eq.
  assert (Ew : wd * prod sp = mn * (dn * q)) by nia.
  assert (Lq : forall b, b < Bn -> length (xs b) = mn * (dn * q))
    by (intros b Hlt; rewrite Lx; auto).
  assert (Ne : Bn * (mn * (dn * q)) <> Bn * (mn * dn * prod sp)).
  { unfold wd in Ew. nia. }
  rewrite (view_field field Bn mn dn q) by (assumption || lia).
  cbn [bind data field].
  rewrite (center_rows Bn mn dn q xs PB Lq). cbn [bind].
  assert (Lc : forall b, b < Bn -> length (PerSample.centred dn (xs b)) = mn * (dn * q))
    by (intros; rewrite length_centred; auto).
  rewrite (field_norm_rows self Bn mn dn q _ PB Lc). cbn [bind].
  destruct (affine self) eqn:A.
  - destruct (Hw eq_refl) as [Hiw [w [Ew' Lw]]]. rewrite Hiw.
    rewrite (apply_weight_affine self Bn mn _ w iwn A Ew' Lw). cbn [bind].
    unfold mul. rewrite binop_channel by assumption. cbn [bind].
    destruct (Nat.eqb_spec dn 1) as [->|N].
    + destruct (Hb eq_refl eq_refl) as [Hib [b0 [Eb Lb]]]. rewrite Hib.
      change (Z.of_nat 1) with 1%Z.
      rewrite (apply_bias_affine self Bn mn q _ b0 ibn A Eb Lb).
      * cbn [bind]. rewrite view_back_fails; [reflexivity|].
        unfold numel. cbn [size prod fold_right]. lia.
      * intros b Hlt. rewrite length_flat_map_seq with (n := 1 * q); [reflexivity|].
        intros i Hi. rewrite length_map. apply length_row.
        rewrite length_centred, Lq by assumption. nia.
    + unfold apply_bias. rewrite A.
      destruct (Z.eqb_spec (Z.of_nat dn) 1) as [E1|_]; [lia|]. cbn [andb bind].
      rewrite view_back_fails; [reflexivity|]. unfold numel. cbn [size prod fold_right]. lia.
  - unfold apply_weight, apply_bias. rewrite A. cbn [bind andb].
    unfold mul. rewrite binop_sample by assumption. cbn [bind].
    rewrite view_back_fails; [reflexivity|]. unfold numel. cbn [size prod fold_right]. lia.
Qed.

Lemma loop_app (self : SE3GroupNorm.t F) t l1 l2 :
  forall st, loop self t st (l1 ++ l2) = (st' <- loop self t st l1 ;; loop self t st' l2).
Proof.
  induction l1 as [|md l1 IH]; intros st; [reflexivity|].
  cbn [app loop]. destruct (block self t st md) as [st1|e]; cbn [bind]; [apply IH | reflexivity].
Qed.

(** The first block that reaches beyond [c] channels. *)
Lemma first_overflow (l : list (Z * Z)) :
  positive_blocks l ->
  forall c, (0 <= c < channels l)%Z ->
  exists pre m d post,
    l = pre ++ (m, d) :: post /\ (channels pre <= c < channels pre + m * d)%Z.
Proof.
  induction 1 as [|[m d] l [Pm Pd] P IH]; intros c Hc.
  - unfold channels in Hc. cbn in Hc. lia.
  - rewrite channels_cons in Hc. cbn [fst snd] in Pm, Pd, Hc.
    destruct (Z.lt_ge_cases c (m * d)) as [Lt|Ge].
    + exists [], m, d, l. split; [reflexivity|]. unfold channels. cbn. lia.
    + destruct (IH (c - m * d)%Z ltac:(lia)) as [pre [m' [d' [post [El Hl]]]]].
      exists ((m, d) :: pre), m', d', post. split; [now rewrite El|].
      rewrite channels_cons. cbn [fst snd]. lia.
Qed.

(** X16.  Too many blocks for the channels of the input: when the stored
    blocks are positive and span more channels than the input has, on a
    batch that is not empty, with at least one spatial position and with
    parameters that suffice, the forward pass raises a runtime error
    inside the loop, from a [view] of the first block that reaches beyond
    the channels; the closing assertions are not reached. *)
Theorem X16_missing_channels_raise_a_runtime_error
        (self : SE3GroupNorm.t F) (t : Tensor F) (Bn C : nat) (sp : list nat) :
  size t = Bn :: C :: sp -> wf t -> 0 < Bn -> 0 < prod sp ->
  positive_blocks (Rs self) ->
  (Z.of_nat C < channels (Rs self))%Z ->
  (affine self = true ->
     exists w b0, weight self = Some w /\ bias self = Some b0 /\
       (multiplicities (Rs self) <= Z.of_nat (length w))%Z /\
       (scalar_multiplicities (Rs self) <= Z.of_nat (length b0))%Z) ->
  forward self t = Raise RuntimeError.
Proof.
  intros E W PB PS P Ch Hp. unfold forward.
  destruct (first_overflow (Rs self) P (Z.of_nat C) ltac:(lia))
    as [pre [m [d [post [ERs [Lo Hi]]]]]].
  rewrite ERs in P, Hp |- *. apply positive_blocks_app in P.
  destruct P as [Ppre [[Pm Pd] Ppost]]. cbn [fst snd] in Pm, Pd.
  pose proof (channels_nonneg pre Ppre) as Cpre.
  pose proof (multiplicities_nonneg pre Ppre) as Mpre.
  pose proof (scalar_multiplicities_nonneg pre Ppre) as Spre.
  pose proof (multiplicities_nonneg post Ppost) as Mpost.
  pose proof (scalar_multiplicities_nonneg post Ppost) as Spost.
  assert (Em : multiplicities (pre ++ (m, d) :: post)
               = (multiplicities pre + (m + multiplicities post))%Z).
  { unfold multiplicities. rewrite map_app, zsum_app. cbn [map]. now rewrite zsum_cons. }
  assert (Es : scalar_multiplicities (pre ++ (m, d) :: post)
               = (scalar_multiplicities pre
                  + ((if (d =? 1)%Z then m else 0) + scalar_multiplicities post))%Z).
  { unfold scalar_multiplicities. rewrite filter_app, map_app, zsum_app. f_equal.
    apply scalar_multiplicities_cons. }
  rewrite loop_app.
  destruct (loop_spec self t Bn C sp pre E W PB loop_start 0 0 0 Ppre)
    as [fs [Run _]].
  - reflexivity.
  - cbn. lia.
  - intros A. destruct (Hp A) as [w [b0 [Ew [Eb [Lw Lb]]]]].
    repeat split. exists w, b0. rewrite Em in Lw. rewrite Es in Lb.
    repeat split; auto; cbn; destruct (d =? 1)%Z; lia.
  - rewrite Run. cbn [bind loop].
    assert (Emn : m = Z.of_nat (Z.to_nat m)) by lia.
    assert (Edn : d = Z.of_nat (Z.to_nat d)) by lia.
    rewrite Emn, Edn at 1.
    rewrite (block_overflow self t _ Bn C sp (Z.to_nat m) (Z.to_nat d)
               (Z.to_nat (channels pre))
               (Z.to_nat (multiplicities pre)) (Z.to_nat (scalar_multiplicities pre)));
      try assumption; try lia; try reflexivity.
    + cbn [ix loop_start]. lia.
    + intros A. destruct (Hp A) as [w [b0 [Ew [Eb [Lw Lb]]]]].
      cbn [iw loop_start]. rewrite A. split; [lia|]. exists w. split; [assumption|].
      rewrite Em in Lw. lia.
    + intros A D1. destruct (Hp A) as [w [b0 [Ew [Eb [Lw Lb]]]]].
      cbn [ib loop_start]. rewrite A. split; [lia|]. exists b0. split; [assumption|].
      rewrite Es in Lb. destruct (Z.eqb_spec d 1); lia.
Qed.

End Overflow.
(** * When construction fails *)

Section InitFails.
Context {F : Type} `{Scalar F}.
Import SE3GroupNorm.

(** X17.  [__init__] raises exactly when the module is affine and the
    multiplicities of the list it is given, or those of its entries of
    dimension 1, sum to a negative number: [torch.ones] or [torch.zeros]
    is then asked for a negative length.  It raises nothing but that
    runtime error; entries of negative multiplicity that the others
    outweigh go through. *)
Theorem X17_init_raises_iff_a_total_is_negative (Rs0 : list (Z * Z)) (e : F) (aff : bool) :
  (init Rs0 e aff = Raise RuntimeError <->
     aff = true /\ (multiplicities Rs0 < 0 \/ scalar_multiplicities Rs0 < 0)%Z) /\
  (forall err, init Rs0 e aff = Raise err -> err = RuntimeError).
Proof.
  unfold init, ones, zeros, full. destruct aff.
  - destruct (Z.ltb_spec (multiplicities Rs0) 0) as [Lm|Lm]; cbn [bind].
    + split; [split; auto|]. intros err E. now inversion E.
    + destruct (Z.ltb_spec (scalar_multiplicities Rs0) 0) as [Ls|Ls]; cbn [bind].
      * split; [split; auto|]. intros err E. now inversion E.
      * split; [split; [discriminate|]|discriminate]. intros [_ [N|N]]; lia.
  - split; [split; [discriminate|]|discriminate]. intros [N _]. discriminate.
Qed.

End InitFails.

Section ErrorRuns.
Import SE3GroupNorm.
Open Scope R_scope.

Lemma X15_witness :
  exists e,
    forward (small_gn true) (input_of [5]%nat) = Raise e /\
    (e = AssertionError \/ e = RuntimeError \/ e = IndexError).
Proof.
  exists IndexError. split; [reflexivity|].
  apply (X15_forward_raises_one_of_three_errors (small_gn true) (input_of [5]%nat)).
  - intros _. split; eexists; reflexivity.
  - reflexivity.
Defined.

Lemma X16_witness :
  forward (small_gn true) (input_of [1; 2; 1; 1; 1]%nat) = Raise RuntimeError.
Proof.
  apply (X16_missing_channels_raise_a_runtime_error
           (small_gn true) (input_of [1; 2; 1; 1; 1]%nat) 1 2 [1; 1; 1]%nat).
  - reflexivity.
  - apply wf_input_of.
  - apply Nat.lt_0_1.
  - apply Nat.lt_0_1.
  - repeat constructor.
  - reflexivity.
  - intros _. exists [1; 1], [0]. repeat split; cbn; lia.
Defined.

End ErrorRuns.
